(** * hwhkit-go: RBAC engine, JWT token lifecycle and rate limiter

    A shallow embedding of [pkg/auth/rbac.go], [pkg/auth/manager.go], the
    [JWTManager] of package [auth] and [pkg/middleware/ratelimit.go],
    followed by the properties of these components.

    Conventions of the embedding:
    - Go maps are finite maps ([gmap]); a lookup of an absent key yields
      the zero value ([default] of the looked-up option).
    - A Go method that mutates its receiver and returns [error] becomes a
      function into [result]: [Ok] carries the receiver after the call,
      [Err] the returned error (the receiver is then unchanged, as every
      such method of the source returns before its first write).
    - Every reading of [time.Now()] is an explicit argument, in
      nanoseconds since the Unix epoch.
    - Go [int], [int64] and [time.Duration] are 64-bit two's complement
      integers: arithmetic on them is wrapped by [wrap64]. *)

From Stdlib Require Import ZArith Lia Ascii String.
From stdpp Require Import base option list gmap strings fin_maps.

Local Open Scope string_scope.

(** ** Go runtime: errors, results, machine integers *)

(** The kinds of failure golang-jwt/jwt/v5 reports while validating the
    registered claims (validator.go). *)
Inductive ClaimsError : Type :=
| ErrTokenExpired
| ErrTokenNotValidYet.

#[global] Instance ClaimsError_eq_dec : EqDecision ClaimsError.
Proof. solve_decision. Defined.

(** The failures of [jwt.Parser.ParseWithClaims] (parser.go, errors.go). *)
Inductive ParseError : Type :=
| ErrTokenMalformed
| ErrTokenUnverifiable
| ErrTokenSignatureInvalid
| ErrTokenInvalidClaims (causes : list ClaimsError).

(** Go values of type [error] as the modelled code builds them:
    [errors.New msg], [fmt.Errorf (msg ++ ": %w") err], and the errors
    coming out of the JWT library. *)
Inductive error : Type :=
| errors_New (msg : string)
| fmt_Errorf (msg : string) (wrapped : error)
| jwt_Error (e : ParseError).

Inductive result (A : Type) : Type :=
| Ok (a : A)
| Err (e : error).
Arguments Ok {A} a.
Arguments Err {A} e.

(** A Go call either returns or panics (run-time error). *)
Inductive outcome (A : Type) : Type :=
| Returned (a : A)
| Panicked (msg : string).
Arguments Returned {A} a.
Arguments Panicked {A} msg.

Definition min_int64 : Z := (- 2 ^ 63)%Z.
Definition max_int64 : Z := (2 ^ 63 - 1)%Z.

(** Two's complement wrap-around of a mathematical integer to 64 bits. *)
Definition wrap64 (z : Z) : Z :=
  ((z + 2 ^ 63) mod 2 ^ 64 - 2 ^ 63)%Z.

(** ** package strings *)
Module Strings.

(** [strings.HasPrefix]: [len(s) >= len(prefix) && s[:len(prefix)] == prefix]. *)
Definition HasPrefix (s prefix : string) : bool :=
  (String.length prefix <=? String.length s)%nat
  && bool_decide (String.substring 0 (String.length prefix) s = prefix).

(** [strings.HasSuffix]:
    [len(s) >= len(suffix) && s[len(s)-len(suffix):] == suffix]. *)
Definition HasSuffix (s suffix : string) : bool :=
  (String.length suffix <=? String.length s)%nat
  && bool_decide
       (String.substring (String.length s - String.length suffix)
          (String.length suffix) s = suffix).

Definition TrimPrefix (s prefix : string) : string :=
  if HasPrefix s prefix then
    String.substring (String.length prefix)
      (String.length s - String.length prefix) s
  else s.

Definition TrimSuffix (s suffix : string) : string :=
  if HasSuffix s suffix then
    String.substring 0 (String.length s - String.length suffix) s
  else s.

(** [strings.IndexByte]: the first index holding the byte, if any. *)
Fixpoint IndexByte (s : string) (c : ascii) : option nat :=
  match s with
  | EmptyString => None
  | String b rest => if decide (b = c) then Some O else S <$> IndexByte rest c
  end.

(** [strings.SplitN(s, sep, 2)] for a separator of one byte: the text
    before the first separator and the text after it, or [s] alone. *)
Definition SplitN2 (s : string) (sep : ascii) : list string :=
  match IndexByte s sep with
  | Some m =>
      [String.substring 0 m s;
       String.substring (S m) (String.length s - S m) s]
  | None => [s]
  end.

Definition lowerByte (c : ascii) : ascii :=
  let n := nat_of_ascii c in
  if (65 <=? n)%nat && (n <=? 90)%nat then ascii_of_nat (n + 32) else c.

(** [strings.ToLower] on a string of ASCII bytes.  Bytes from 0x80 on are
    kept here; Go maps the runes they encode by the Unicode tables, and no
    such rune has an ASCII letter of "bearer" as its lower case. *)
Fixpoint ToLower (s : string) : string :=
  match s with
  | EmptyString => EmptyString
  | String c rest => String (lowerByte c) (ToLower rest)
  end.

(** [fmt]'s [%v] of a [[]string]: the elements between brackets, separated
    by spaces. *)
Definition Sprint_v (l : list string) : string :=
  "[" ++ String.concat " " l ++ "]".

End Strings.

(** ** pkg/auth/rbac.go *)
Module Rbac.

Record Permission : Type := mkPermission {
  Permission_ID : string;
  Permission_Name : string;
  Permission_Description : string;
  Permission_Resource : string;
  Permission_Action : string
}.

Record Role : Type := mkRole {
  Role_ID : string;
  Role_Name : string;
  Role_Description : string;
  Role_Permissions : list Permission
}.

(** [roles] and [permissions] hold pointers in the source; every role of
    the registry is modelled as owning its record and its permission
    slice. *)
Record RBAC : Type := mkRBAC {
  roles : gmap string Role;
  permissions : gmap string Permission;
  userRoles : gmap string (list string)
}.

Record Policy : Type := mkPolicy {
  Policy_Resource : string;
  Policy_Actions : list string;
  Policy_Roles : list string;
  Policy_Permissions : list string
}.

Definition NewRBAC : RBAC :=
  {| roles := ∅; permissions := ∅; userRoles := ∅ |}.

Definition AddPermission (rbac : RBAC) (permission : Permission) : result RBAC :=
  if decide (Permission_ID permission = "") then
    Err (errors_New "permission ID cannot be empty")
  else if decide (Permission_Name permission = "") then
    Err (errors_New "permission name cannot be empty")
  else
    Ok {| roles := roles rbac;
          permissions := <[Permission_ID permission := permission]> (permissions rbac);
          userRoles := userRoles rbac |}.

Definition GetPermission (rbac : RBAC) (permissionID : string) : result Permission :=
  match permissions rbac !! permissionID with
  | None => Err (errors_New "permission not found")
  | Some permission => Ok permission
  end.

(** The index at which the loop of [removePermissionFromRole] stops:
    the first [i] with [perms[i].ID == permissionID]. *)
Fixpoint indexOfPermission (perms : list Permission) (permissionID : string)
  : option nat :=
  match perms with
  | [] => None
  | permission :: rest =>
      if decide (Permission_ID permission = permissionID) then Some O
      else S <$> indexOfPermission rest permissionID
  end.

(** [append(role.Permissions[:i], role.Permissions[i+1:]...)] at the
    first matching index, then [break]. *)
Definition removePermissionFromRole (role : Role) (permissionID : string) : Role :=
  match indexOfPermission (Role_Permissions role) permissionID with
  | Some i =>
      {| Role_ID := Role_ID role;
         Role_Name := Role_Name role;
         Role_Description := Role_Description role;
         Role_Permissions :=
           (take i (Role_Permissions role) ++ drop (S i) (Role_Permissions role))%list |}
  | None => role
  end.

(** The loop over [rbac.roles] touches every role once, each through its
    own pointer: the order of the map iteration does not matter. *)
Definition RemovePermission (rbac : RBAC) (permissionID : string) : result RBAC :=
  match permissions rbac !! permissionID with
  | None => Err (errors_New "permission not found")
  | Some _ =>
      Ok {| roles := (fun role => removePermissionFromRole role permissionID) <$> roles rbac;
            permissions := delete permissionID (permissions rbac);
            userRoles := userRoles rbac |}
  end.

Definition AddRole (rbac : RBAC) (role : Role) : result RBAC :=
  if decide (Role_ID role = "") then
    Err (errors_New "role ID cannot be empty")
  else if decide (Role_Name role = "") then
    Err (errors_New "role name cannot be empty")
  else
    Ok {| roles := <[Role_ID role := role]> (roles rbac);
          permissions := permissions rbac;
          userRoles := userRoles rbac |}.

Definition GetRole (rbac : RBAC) (roleID : string) : result Role :=
  match roles rbac !! roleID with
  | None => Err (errors_New "role not found")
  | Some role => Ok role
  end.

Definition AddPermissionToRole (rbac : RBAC) (roleID permissionID : string)
  : result RBAC :=
  match roles rbac !! roleID with
  | None => Err (errors_New "role not found")
  | Some role =>
      match permissions rbac !! permissionID with
      | None => Err (errors_New "permission not found")
      | Some permission =>
          if existsb (fun p => bool_decide (Permission_ID p = permissionID))
               (Role_Permissions role)
          then Ok rbac
          else
            Ok {| roles :=
                    <[roleID :=
                        {| Role_ID := Role_ID role;
                           Role_Name := Role_Name role;
                           Role_Description := Role_Description role;
                           Role_Permissions := (Role_Permissions role ++ [permission])%list |}]>
                      (roles rbac);
                  permissions := permissions rbac;
                  userRoles := userRoles rbac |}
      end
  end.

Definition AssignRoleToUser (rbac : RBAC) (userID roleID : string) : result RBAC :=
  match roles rbac !! roleID with
  | None => Err (errors_New "role not found")
  | Some _ =>
      let userRoles_ := default [] (userRoles rbac !! userID) in
      if existsb (fun role => bool_decide (role = roleID)) userRoles_ then Ok rbac
      else
        Ok {| roles := roles rbac;
              permissions := permissions rbac;
              userRoles := <[userID := (userRoles_ ++ [roleID])%list]> (userRoles rbac) |}
  end.

Definition GetUserRoles (rbac : RBAC) (userID : string) : list string :=
  default [] (userRoles rbac !! userID).

(** The loop body of [deduplicatePermissions] on the pair
    ([seen], [result]). *)
Definition dedupStep (acc : gset string * list Permission) (permission : Permission)
  : gset string * list Permission :=
  if decide (Permission_ID permission ∈ acc.1) then acc
  else ({[Permission_ID permission]} ∪ acc.1, (acc.2 ++ [permission])%list).

Definition deduplicatePermissions (perms : list Permission) : list Permission :=
  (foldl dedupStep (∅, []) perms).2.

(** The loop of [GetUserPermissions] before the deduplication. *)
Definition collectPermissions (rbac : RBAC) (userRoles_ : list string)
  : list Permission :=
  foldl (fun perms roleID =>
           match roles rbac !! roleID with
           | Some role => (perms ++ Role_Permissions role)%list
           | None => perms
           end) [] userRoles_.

Definition GetUserPermissions (rbac : RBAC) (userID : string) : list Permission :=
  deduplicatePermissions
    (collectPermissions rbac (default [] (userRoles rbac !! userID))).

Definition HasPermission (rbac : RBAC) (userID permissionID : string) : bool :=
  existsb (fun permission => bool_decide (Permission_ID permission = permissionID))
    (GetUserPermissions rbac userID).

Definition HasResourcePermission (rbac : RBAC) (userID resource action : string)
  : bool :=
  existsb
    (fun permission =>
       if bool_decide (Permission_Resource permission = resource)
          && bool_decide (Permission_Action permission = action)
       then true
       else if bool_decide (Permission_Resource permission = "*")
               || bool_decide (Permission_Action permission = "*")
       then true
       else false)
    (GetUserPermissions rbac userID).

Definition HasRole (rbac : RBAC) (userID roleID : string) : bool :=
  existsb (fun role => bool_decide (role = roleID))
    (default [] (userRoles rbac !! userID)).

Definition HasAnyRole (rbac : RBAC) (userID : string) (roleIDs : list string) : bool :=
  existsb (fun roleID => HasRole rbac userID roleID) roleIDs.

Definition HasAllRoles (rbac : RBAC) (userID : string) (roleIDs : list string) : bool :=
  forallb (fun roleID => HasRole rbac userID roleID) roleIDs.

(** [PolicyEvaluator.EvaluatePolicy]; the evaluator only wraps the
    [*RBAC] it was created with. *)
Definition EvaluatePolicy (rbac : RBAC) (userID : string) (policy : Policy) : bool :=
  if (0 <? length (Policy_Roles policy))%nat
     && negb (HasAnyRole rbac userID (Policy_Roles policy))
  then false
  else if (0 <? length (Policy_Permissions policy))%nat
          && negb (forallb (fun permissionID => HasPermission rbac userID permissionID)
                     (Policy_Permissions policy))
  then false
  else if negb (forallb
                  (fun action =>
                     HasResourcePermission rbac userID (Policy_Resource policy) action)
                  (Policy_Actions policy))
  then false
  else true.

(** The index at which the loop of [removeRoleFromSlice] returns. *)
Fixpoint indexOfRole (roles_ : list string) (roleID : string) : option nat :=
  match roles_ with
  | [] => None
  | role :: rest =>
      if decide (role = roleID) then Some O else S <$> indexOfRole rest roleID
  end.

Definition removeRoleFromSlice (roles_ : list string) (roleID : string) : list string :=
  match indexOfRole roles_ roleID with
  | Some i => (take i roles_ ++ drop (S i) roles_)%list
  | None => roles_
  end.

(** The loop rewrites the entry of every user; the order of the map
    iteration does not matter. *)
Definition RemoveRole (rbac : RBAC) (roleID : string) : result RBAC :=
  match roles rbac !! roleID with
  | None => Err (errors_New "role not found")
  | Some _ =>
      Ok {| roles := delete roleID (roles rbac);
            permissions := permissions rbac;
            userRoles := (fun roles_ => removeRoleFromSlice roles_ roleID)
                           <$> userRoles rbac |}
  end.

Definition RemovePermissionFromRole (rbac : RBAC) (roleID permissionID : string)
  : result RBAC :=
  match roles rbac !! roleID with
  | None => Err (errors_New "role not found")
  | Some role =>
      Ok {| roles := <[roleID := removePermissionFromRole role permissionID]> (roles rbac);
            permissions := permissions rbac;
            userRoles := userRoles rbac |}
  end.

Definition RemoveRoleFromUser (rbac : RBAC) (userID roleID : string) : result RBAC :=
  match userRoles rbac !! userID with
  | None => Err (errors_New "user has no roles")
  | Some userRoles_ =>
      Ok {| roles := roles rbac;
            permissions := permissions rbac;
            userRoles := <[userID := removeRoleFromSlice userRoles_ roleID]>
                           (userRoles rbac) |}
  end.

Definition GetRolesByUser (rbac : RBAC) (userID : string) : list Role :=
  foldl (fun roles_ roleID =>
           match roles rbac !! roleID with
           | Some role => (roles_ ++ [role])%list
           | None => roles_
           end) [] (default [] (userRoles rbac !! userID)).

(** The two loops of [CreateDefaultRolesAndPermissions], which stop at the
    first error. *)
Fixpoint addPermissions (rbac : RBAC) (perms : list Permission) : result RBAC :=
  match perms with
  | [] => Ok rbac
  | permission :: rest =>
      match AddPermission rbac permission with
      | Err err => Err err
      | Ok rbac' => addPermissions rbac' rest
      end
  end.

Fixpoint addRoles (rbac : RBAC) (roles_ : list Role) : result RBAC :=
  match roles_ with
  | [] => Ok rbac
  | role :: rest =>
      match AddRole rbac role with
      | Err err => Err err
      | Ok rbac' => addRoles rbac' rest
      end
  end.

Definition defaultPermissions : list Permission :=
  [ mkPermission "user.read" "读取用户" "" "user" "read";
    mkPermission "user.write" "写入用户" "" "user" "write";
    mkPermission "user.delete" "删除用户" "" "user" "delete";
    mkPermission "admin.all" "管理员权限" "" "*" "*" ].

Definition defaultRoles : list Role :=
  [ mkRole "user" "普通用户" "普通用户角色，只能读取用户信息"
      [mkPermission "user.read" "读取用户" "" "user" "read"];
    mkRole "admin" "管理员" "管理员角色，拥有所有权限"
      [mkPermission "admin.all" "管理员权限" "" "*" "*"] ].

Definition CreateDefaultRolesAndPermissions (rbac : RBAC) : result RBAC :=
  match addPermissions rbac defaultPermissions with
  | Err err => Err err
  | Ok rbac' => addRoles rbac' defaultRoles
  end.

(** [ResourceMatcher.Match]. *)
Definition Match (pattern resource : string) : bool :=
  if bool_decide (pattern = "*") then true
  else if bool_decide (pattern = resource) then true
  else if Strings.HasSuffix pattern "*" then
    Strings.HasPrefix resource (Strings.TrimSuffix pattern "*")
  else false.

(** One successful call of an operation that changes the engine. *)
Inductive step : RBAC -> RBAC -> Prop :=
| step_AddPermission rbac permission rbac' :
    AddPermission rbac permission = Ok rbac' -> step rbac rbac'
| step_RemovePermission rbac permissionID rbac' :
    RemovePermission rbac permissionID = Ok rbac' -> step rbac rbac'
| step_AddRole rbac role rbac' :
    AddRole rbac role = Ok rbac' -> step rbac rbac'
| step_RemoveRole rbac roleID rbac' :
    RemoveRole rbac roleID = Ok rbac' -> step rbac rbac'
| step_AddPermissionToRole rbac roleID permissionID rbac' :
    AddPermissionToRole rbac roleID permissionID = Ok rbac' -> step rbac rbac'
| step_RemovePermissionFromRole rbac roleID permissionID rbac' :
    RemovePermissionFromRole rbac roleID permissionID = Ok rbac' -> step rbac rbac'
| step_AssignRoleToUser rbac userID roleID rbac' :
    AssignRoleToUser rbac userID roleID = Ok rbac' -> step rbac rbac'
| step_RemoveRoleFromUser rbac userID roleID rbac' :
    RemoveRoleFromUser rbac userID roleID = Ok rbac' -> step rbac rbac'.

(** The engines built from [NewRBAC] by calls of these operations. *)
Inductive reachable : RBAC -> Prop :=
| reachable_NewRBAC : reachable NewRBAC
| reachable_step rbac rbac' : reachable rbac -> step rbac rbac' -> reachable rbac'.

End Rbac.

(** ** pkg/auth/rbac.go on slices

    In [Rbac] every role owns its list of permissions.  In the source
    [Role.Permissions] is a slice, a window on an array that other slices
    may share: [AddRole] keeps the slice of the role it is given,
    [removePermissionFromRole] shifts the elements of the array in place,
    and [AddPermissionToRole] writes into the array when the slice has
    spare capacity.  Here the arrays are part of the state; [abstract]
    gives the state [Rbac] sees.  Every registered role is taken to be a
    struct of its own. *)
Module RbacSlices.

(** A slice header: the array, the index of the first element, the
    length and the capacity. *)
Record Slice : Type := mkSlice {
  array : nat;
  offset : nat;
  len : nat;
  cap : nat
}.

#[global] Instance Slice_eq_dec : EqDecision Slice.
Proof. solve_decision. Defined.

Record Role : Type := mkRole {
  Role_ID : string;
  Role_Name : string;
  Role_Description : string;
  Role_Permissions : Slice
}.

Record RBAC : Type := mkRBAC {
  roles : gmap string Role;
  permissions : gmap string Rbac.Permission;
  userRoles : gmap string (list string);
  arrays : gmap nat (list Rbac.Permission)
}.

(** [s[0], ..., s[len(s)-1]]. *)
Definition elements (arrays_ : gmap nat (list Rbac.Permission)) (s : Slice)
  : list Rbac.Permission :=
  take (len s) (drop (offset s) (default [] (arrays_ !! array s))).

(** A slice that lies within its array. *)
Definition valid (arrays_ : gmap nat (list Rbac.Permission)) (s : Slice) : Prop :=
  exists a, arrays_ !! array s = Some a
            /\ (offset s + cap s <= length a)%nat /\ (len s <= cap s)%nat.

(** A slice literal [[]Permission{...}]: a new array that holds exactly the
    elements. *)
Definition literal (rbac : RBAC) (perms : list Rbac.Permission) : RBAC * Slice :=
  let a := fresh (dom (arrays rbac)) in
  ({| roles := roles rbac; permissions := permissions rbac;
      userRoles := userRoles rbac; arrays := <[a := perms]> (arrays rbac) |},
   {| array := a; offset := 0; len := length perms; cap := length perms |}).

(** [append(s[:i], s[i+1:]...)] for [i < len(s)]: the elements after the
    index [i] are moved one place down within the array, whose last
    moved element stays where it was too; the slice is one element
    shorter. *)
Definition removeAt (arrays_ : gmap nat (list Rbac.Permission)) (s : Slice) (i : nat)
  : gmap nat (list Rbac.Permission) * Slice :=
  match arrays_ !! array s with
  | Some a =>
      (<[array s :=
           imap (fun k x =>
                   if bool_decide (offset s + i <= k < offset s + len s - 1)%nat
                   then default x (a !! S k) else x) a]> arrays_,
       {| array := array s; offset := offset s; len := len s - 1; cap := cap s |})
  | None => (arrays_, s)
  end.

Definition zeroPermission : Rbac.Permission := Rbac.mkPermission "" "" "" "" "".

(** [append(s, permission)]: with spare capacity the element is written
    into the array after the last element of the slice; otherwise the
    elements are copied to a new array, of the capacity the runtime
    chooses ([newcap], at least the new length). *)
Definition append (arrays_ : gmap nat (list Rbac.Permission)) (s : Slice)
    (permission : Rbac.Permission) (newcap : nat)
  : gmap nat (list Rbac.Permission) * Slice :=
  if bool_decide (len s < cap s)%nat then
    match arrays_ !! array s with
    | Some a =>
        (<[array s := <[(offset s + len s)%nat := permission]> a]> arrays_,
         {| array := array s; offset := offset s; len := S (len s); cap := cap s |})
    | None => (arrays_, s)
    end
  else
    let a := fresh (dom arrays_) in
    (<[a := (elements arrays_ s ++ permission
               :: replicate (newcap - S (len s)) zeroPermission)%list]> arrays_,
     {| array := a; offset := 0; len := S (len s);
        cap := S (len s) + (newcap - S (len s)) |}).

Definition NewRBAC : RBAC :=
  {| roles := ∅; permissions := ∅; userRoles := ∅; arrays := ∅ |}.

Definition AddPermission (rbac : RBAC) (permission : Rbac.Permission) : result RBAC :=
  if decide (Rbac.Permission_ID permission = "") then
    Err (errors_New "permission ID cannot be empty")
  else if decide (Rbac.Permission_Name permission = "") then
    Err (errors_New "permission name cannot be empty")
  else
    Ok {| roles := roles rbac;
          permissions :=
            <[Rbac.Permission_ID permission := permission]> (permissions rbac);
          userRoles := userRoles rbac;
          arrays := arrays rbac |}.

Definition AddRole (rbac : RBAC) (role : Role) : result RBAC :=
  if decide (Role_ID role = "") then
    Err (errors_New "role ID cannot be empty")
  else if decide (Role_Name role = "") then
    Err (errors_New "role name cannot be empty")
  else
    Ok {| roles := <[Role_ID role := role]> (roles rbac);
          permissions := permissions rbac;
          userRoles := userRoles rbac;
          arrays := arrays rbac |}.

Definition GetRole (rbac : RBAC) (roleID : string) : result Role :=
  match roles rbac !! roleID with
  | None => Err (errors_New "role not found")
  | Some role => Ok role
  end.

(** [role.Permissions] as the caller of [GetRole] reads it. *)
Definition rolePermissions (rbac : RBAC) (role : Role) : list Rbac.Permission :=
  elements (arrays rbac) (Role_Permissions role).

(** [removePermissionFromRole] on the role registered under [roleID]. *)
Definition removePermissionFromRole (rbac : RBAC) (roleID : string) (role : Role)
    (permissionID : string) : RBAC :=
  match Rbac.indexOfPermission (rolePermissions rbac role) permissionID with
  | Some i =>
      let '(arrays', s') := removeAt (arrays rbac) (Role_Permissions role) i in
      {| roles := <[roleID := {| Role_ID := Role_ID role;
                                 Role_Name := Role_Name role;
                                 Role_Description := Role_Description role;
                                 Role_Permissions := s' |}]> (roles rbac);
         permissions := permissions rbac;
         userRoles := userRoles rbac;
         arrays := arrays' |}
  | None => rbac
  end.

(** One turn of the loop of [RemovePermission], at the key [roleID]. *)
Definition removeFromRoleAt (permissionID : string) (rbac : RBAC) (roleID : string)
  : RBAC :=
  match roles rbac !! roleID with
  | Some role => removePermissionFromRole rbac roleID role permissionID
  | None => rbac
  end.

(** [RemovePermission]; [order] is the order in which the loop meets the
    keys of [rbac.roles], which Go leaves open. *)
Definition RemovePermission (rbac : RBAC) (permissionID : string) (order : list string)
  : result RBAC :=
  match permissions rbac !! permissionID with
  | None => Err (errors_New "permission not found")
  | Some _ =>
      Ok (foldl (removeFromRoleAt permissionID)
            {| roles := roles rbac;
               permissions := delete permissionID (permissions rbac);
               userRoles := userRoles rbac;
               arrays := arrays rbac |} order)
  end.

Definition RemovePermissionFromRole (rbac : RBAC) (roleID permissionID : string)
  : result RBAC :=
  match roles rbac !! roleID with
  | None => Err (errors_New "role not found")
  | Some role => Ok (removePermissionFromRole rbac roleID role permissionID)
  end.

(** [AddPermissionToRole]; [newcap] is the capacity the runtime chooses if
    [append] allocates. *)
Definition AddPermissionToRole (rbac : RBAC) (roleID permissionID : string)
    (newcap : nat) : result RBAC :=
  match roles rbac !! roleID with
  | None => Err (errors_New "role not found")
  | Some role =>
      match permissions rbac !! permissionID with
      | None => Err (errors_New "permission not found")
      | Some permission =>
          if existsb (fun p => bool_decide (Rbac.Permission_ID p = permissionID))
               (rolePermissions rbac role)
          then Ok rbac
          else
            let '(arrays', s') :=
              append (arrays rbac) (Role_Permissions role) permission newcap in
            Ok {| roles := <[roleID := {| Role_ID := Role_ID role;
                                          Role_Name := Role_Name role;
                                          Role_Description := Role_Description role;
                                          Role_Permissions := s' |}]> (roles rbac);
                  permissions := permissions rbac;
                  userRoles := userRoles rbac;
                  arrays := arrays' |}
      end
  end.

(** The role as [Rbac] sees it, and the state as [Rbac] sees it. *)
Definition abstractRole (arrays_ : gmap nat (list Rbac.Permission)) (role : Role)
  : Rbac.Role :=
  Rbac.mkRole (Role_ID role) (Role_Name role) (Role_Description role)
    (elements arrays_ (Role_Permissions role)).

Definition abstract (rbac : RBAC) : Rbac.RBAC :=
  Rbac.mkRBAC (abstractRole (arrays rbac) <$> roles rbac) (permissions rbac)
    (userRoles rbac).

(** The states in which every role's slice lies within an array and no
    two roles have slices on the same array. *)
Definition separated (rbac : RBAC) : Prop :=
  (forall roleID role, roles rbac !! roleID = Some role ->
                       valid (arrays rbac) (Role_Permissions role))
  /\ (forall roleID1 roleID2 role1 role2,
        roleID1 <> roleID2 ->
        roles rbac !! roleID1 = Some role1 -> roles rbac !! roleID2 = Some role2 ->
        array (Role_Permissions role1) <> array (Role_Permissions role2)).

End RbacSlices.

(** ** Go strings and formatting *)

(** [s[:n]]: the prefix of [n] bytes, or a run-time panic when [n] exceeds
    [len(s)]. *)
Definition slicePrefix (s : string) (n : nat) : option string :=
  if (n <=? String.length s)%nat then Some (String.substring 0 n s) else None.

Definition digitChar (d : Z) : ascii :=
  ascii_of_nat (48 + Z.to_nat d).

(** Decimal digits of a non-negative number, most significant first; the
    loop of [strconv.FormatInt], at most [fuel] digits. *)
Fixpoint formatUint (fuel : nat) (n : Z) (acc : string) : string :=
  match fuel with
  | O => acc
  | S fuel' =>
      let acc' := String (digitChar (n mod 10)%Z) acc in
      if (n <? 10)%Z then acc' else formatUint fuel' (n / 10)%Z acc'
  end.

(** [fmt.Sprintf("%d", n)] for an [int64]: 20 digits are enough. *)
Definition Sprintf_d (n : Z) : string :=
  if (n <? 0)%Z then String "-" (formatUint 20 (- n)%Z "")
  else formatUint 20 n "".

(** ** pkg/config: JWTConfig *)
Module config.
Record JWTConfig : Type := mkJWTConfig {
  Secret : string;
  ExpireHours : Z;
  RefreshHours : Z;
  Issuer : string
}.
End config.

(** ** package time *)
Module time.
Local Open Scope Z_scope.

Definition Second : Z := 1000000000.
Definition Hour : Z := 3600 * Second.

(** [time.Duration(hours) * time.Hour], an [int64] product. *)
Definition Hours (hours : Z) : Z := wrap64 (hours * Hour).

(** [t.Add(d)] on instants counted in nanoseconds. *)
Definition Add (t d : Z) : Z := t + d.

(** [t.Truncate(time.Second)]. *)
Definition TruncateSecond (t : Z) : Z := t / Second * Second.

(** [t.Unix()]. *)
Definition Unix (t : Z) : Z := t / Second.

Definition Before (t u : Z) : bool := t <? u.
Definition After (t u : Z) : bool := u <? t.

(** [t.Sub(u)]: the difference as a [Duration], saturated at the largest
    and smallest [Duration]. *)
Definition Sub (t u : Z) : Z :=
  if max_int64 <? t - u then max_int64
  else if t - u <? min_int64 then min_int64
  else t - u.

(** [int(d.Seconds())]: the whole seconds of a duration, truncated
    towards zero.  [Seconds] goes through [float64]; the conversion is
    exact below 2^24 seconds and stays within one second of this value
    above. *)
Definition SecondsInt (d : Z) : Z := Z.quot d Second.

(** [-d] on a [Duration]. *)
Definition Neg (d : Z) : Z := wrap64 (- d).
End time.

(** ** unicode/utf8 and encoding/json on strings *)
Module utf8.

(** A continuation byte. *)
Definition cont (b : nat) : bool := (128 <=? b)%nat && (b <=? 191)%nat.

(** The length of the encoding that starts the bytes, as
    [utf8.DecodeRuneInString] accepts it; [None] where it returns
    [RuneError] with width 1 (or 0, on no bytes). *)
Definition encodingLength (bytes : list nat) : option nat :=
  match bytes with
  | [] => None
  | b0 :: rest =>
      if (b0 <? 128)%nat then Some 1%nat
      else if (194 <=? b0)%nat && (b0 <=? 223)%nat then
        match rest with
        | b1 :: _ => if cont b1 then Some 2%nat else None
        | _ => None
        end
      else if (224 <=? b0)%nat && (b0 <=? 239)%nat then
        match rest with
        | b1 :: b2 :: _ =>
            let lo := if (b0 =? 224)%nat then 160%nat else 128%nat in
            let hi := if (b0 =? 237)%nat then 159%nat else 191%nat in
            if (lo <=? b1)%nat && (b1 <=? hi)%nat && cont b2 then Some 3%nat else None
        | _ => None
        end
      else if (240 <=? b0)%nat && (b0 <=? 244)%nat then
        match rest with
        | b1 :: b2 :: b3 :: _ =>
            let lo := if (b0 =? 240)%nat then 144%nat else 128%nat in
            let hi := if (b0 =? 244)%nat then 143%nat else 191%nat in
            if (lo <=? b1)%nat && (b1 <=? hi)%nat && cont b2 && cont b3
            then Some 4%nat else None
        | _ => None
        end
      else None
  end.

Arguments encodingLength : simpl never.

(** The first [n] bytes of a string, fewer if it is shorter. *)
Fixpoint firstBytes (n : nat) (s : string) : list nat :=
  match n, s with
  | S n', String c rest => nat_of_ascii c :: firstBytes n' rest
  | _, _ => []
  end.

(** [utf8.ValidString], with [pending] bytes of the current encoding
    still to be passed over. *)
Fixpoint validFrom (s : string) (pending : nat) : bool :=
  match s with
  | EmptyString => true
  | String c rest =>
      match pending with
      | S pending' => validFrom rest pending'
      | O =>
          match encodingLength (nat_of_ascii c :: firstBytes 3 rest) with
          | Some n => validFrom rest (n - 1)
          | None => false
          end
      end
  end.

Definition ValidString (s : string) : bool := validFrom s 0.


(** The encoding of [utf8.RuneError], U+FFFD. *)
Definition RuneError : string :=
  String (ascii_of_nat 239) (String (ascii_of_nat 191) (String (ascii_of_nat 189) "")).

End utf8.

Module json.

(** What [json.Unmarshal] reads back of a string that [json.Marshal]
    wrote: the encoder writes every byte that starts no valid encoding as
    the escape of U+FFFD, and writes the valid encodings so that they are
    read back unchanged. *)
Fixpoint coerceFrom (s : string) (pending : nat) : string :=
  match s with
  | EmptyString => EmptyString
  | String c rest =>
      match pending with
      | S pending' => String c (coerceFrom rest pending')
      | O =>
          match utf8.encodingLength (nat_of_ascii c :: utf8.firstBytes 3 rest) with
          | Some n => String c (coerceFrom rest (n - 1))
          | None => utf8.RuneError ++ coerceFrom rest 0
          end
      end
  end.

Definition roundtrip (s : string) : string := coerceFrom s 0.

End json.

(** ** crypto/hmac *)
Module hmac.

(** The block size of the hash of a signing method: 64 bytes for SHA-256,
    128 bytes for SHA-384 and SHA-512. *)
Definition blockSize (hash : string) : nat :=
  if bool_decide (hash = "HS256") then 64%nat else 128%nat.

(** A string without its trailing zero bytes. *)
Fixpoint trimZeros (s : string) : string :=
  match s with
  | EmptyString => EmptyString
  | String c rest =>
      match trimZeros rest with
      | EmptyString => if bool_decide (c = zero) then EmptyString else String c EmptyString
      | trimmed => String c trimmed
      end
  end.

(** The key of one block that [hmac.New] derives from the secret: a
    secret of at most one block is padded with zero bytes, so that it is
    determined by, and determines, the secret without its trailing zero
    bytes; a longer secret is replaced by its digest, which is kept as a
    symbol. *)
Inductive Key : Type :=
| PaddedKey (bytes : string)
| DigestKey (hash : string) (secret : string).

Definition key (hash secret : string) : Key :=
  if (String.length secret <=? blockSize hash)%nat then PaddedKey (trimZeros secret)
  else DigestKey hash secret.

#[global] Instance Key_eq_dec : EqDecision Key.
Proof. solve_decision. Defined.

End hmac.

(** ** github.com/golang-jwt/jwt/v5

    The library is not part of the repository.  A well-formed token
    string is the triple it decodes to: its algorithm, the claims that
    [encoding/json] reads from its payload, and its signature.  Token
    strings that differ only in the spelling of their JSON text are so
    not told apart; [SignedString] writes claims whose strings are valid
    UTF-8 in one way only, and reads other strings back as
    [json.roundtrip] has them.
    HMAC is an ideal message authentication code: a tag is determined by,
    and determines, the hash, the key of one block ([hmac.key]) and the
    signed segments. *)
Module jwt.
Local Open Scope Z_scope.

Record RegisteredClaims : Type := mkRegisteredClaims {
  Issuer : string;
  Subject : string;
  Audience : list string;
  ExpiresAt : option Z;
  NotBefore : option Z;
  IssuedAt : option Z
}.

#[global] Instance RegisteredClaims_eq_dec : EqDecision RegisteredClaims.
Proof. solve_decision. Defined.

(** [jwt.NewNumericDate(t)]: a non-nil date truncated to
    [jwt.TimePrecision = time.Second]. *)
Definition NewNumericDate (t : Z) : option Z := Some (time.TruncateSecond t).

(** The registered claims as read back from their JSON encoding. *)
Definition decodedRegistered (rc : RegisteredClaims) : RegisteredClaims :=
  {| Issuer := json.roundtrip (Issuer rc);
     Subject := json.roundtrip (Subject rc);
     Audience := json.roundtrip <$> Audience rc;
     ExpiresAt := ExpiresAt rc;
     NotBefore := NotBefore rc;
     IssuedAt := IssuedAt rc |}.

(** The [jwt.Claims] interface: access to the registered claims, and the
    claims as [json.Unmarshal] reads them back from what [json.Marshal]
    wrote of them. *)
Class Claims (C : Type) : Type := {
  registered : C -> RegisteredClaims;
  decoded : C -> C;
  claims_eq_dec : EqDecision C
}.
#[global] Existing Instance claims_eq_dec.

Inductive SigningMethod : Type :=
| SigningMethodHMAC (alg : string)
| SigningMethodOther (alg : string).

(** [jwt.GetSigningMethod]: the methods registered by the library. *)
Definition GetSigningMethod (alg : string) : option SigningMethod :=
  if bool_decide (alg ∈ ["HS256"; "HS384"; "HS512"]) then
    Some (SigningMethodHMAC alg)
  else if bool_decide (alg ∈ ["RS256"; "RS384"; "RS512"; "ES256"; "ES384"; "ES512";
                               "PS256"; "PS384"; "PS512"; "EdDSA"; "none"]) then
    Some (SigningMethodOther alg)
  else None.

(** The third segment: a message authentication code (of hash [hash],
    under the key [key] of one block, over the header naming [alg] and the
    claims), or any other bytes. *)
Inductive Signature (C : Type) : Type :=
| MAC (hash : string) (key : hmac.Key) (alg : string) (claims : C)
| OtherSignature (raw : string).
Arguments MAC {C} hash key alg claims.
Arguments OtherSignature {C} raw.

(** The tag that the signing method of hash [hash] computes under the
    secret [secret]. *)
Definition HMACTag {C : Type} (hash secret alg : string) (claims : C) : Signature C :=
  MAC hash (hmac.key hash secret) alg claims.

Inductive TokenString (C : Type) : Type :=
| Compact (alg : string) (claims : C) (signature : Signature C)
| Malformed (raw : string).
Arguments Compact {C} alg claims signature.
Arguments Malformed {C} raw.

Record Token (C : Type) : Type := mkToken {
  Method : SigningMethod;
  Header_alg : string;
  Token_Claims : C;
  Token_Signature : Signature C;
  Valid : bool
}.
Arguments mkToken {C}.
Arguments Method {C}.
Arguments Header_alg {C}.
Arguments Token_Claims {C}.
Arguments Token_Signature {C}.
Arguments Valid {C}.

#[global] Instance Signature_eq_dec {C} `{EqDecision C} : EqDecision (Signature C).
Proof. solve_decision. Defined.

(** [jwt.NewWithClaims(method, claims).SignedString(key)] with an HMAC
    method and a [[]byte] key; it cannot fail.  The payload is the JSON
    encoding of the claims, which decodes to [decoded claims]. *)
Definition SignedString {C} `{Claims C} (alg : string) (claims : C) (key : string)
  : result (TokenString C) :=
  Ok (Compact alg (decoded claims) (HMACTag alg key alg (decoded claims))).

(** [token.Method.Verify(signingString, signature, key)] with a [[]byte]
    key: the other methods reject that key type. *)
Definition Verify {C} `{Claims C} (method : SigningMethod) (key : string)
    (alg : string) (claims : C) (signature : Signature C) : bool :=
  match method with
  | SigningMethodHMAC hash => bool_decide (signature = HMACTag hash key alg claims)
  | SigningMethodOther _ => false
  end.

(** [Validator.Validate] with the default options: [exp] and [nbf] are
    checked when present, without leeway; the errors are collected. *)
Definition Validate (now : Z) (rc : RegisteredClaims) : list ClaimsError :=
  (match ExpiresAt rc with
   | Some exp => if time.Before now exp then [] else [ErrTokenExpired]
   | None => []
   end ++
   match NotBefore rc with
   | Some nbf => if time.Before now nbf then [ErrTokenNotValidYet] else []
   | None => []
   end)%list.

(** [jwt.ParseWithClaims(tokenString, &C{}, keyFunc, opts...)];
    [skipClaimsValidation] is [jwt.WithoutClaimsValidation()], [now] the
    validator's reading of the clock. *)
Definition ParseWithClaims {C} `{Claims C} (tokenString : TokenString C)
    (keyFunc : Token C -> result string) (skipClaimsValidation : bool) (now : Z)
  : result (Token C) :=
  match tokenString with
  | Malformed _ => Err (jwt_Error ErrTokenMalformed)
  | Compact alg claims signature =>
      match GetSigningMethod alg with
      | None => Err (jwt_Error ErrTokenUnverifiable)
      | Some method =>
          let token := mkToken method alg claims signature false in
          match keyFunc token with
          | Err _ => Err (jwt_Error ErrTokenUnverifiable)
          | Ok key =>
              if negb (Verify method key alg claims signature) then
                Err (jwt_Error ErrTokenSignatureInvalid)
              else
                match (if skipClaimsValidation then []
                       else Validate now (registered claims)) with
                | [] => Ok (mkToken method alg claims signature true)
                | causes => Err (jwt_Error (ErrTokenInvalidClaims causes))
                end
          end
      end
  end.

(** The key function both managers pass to the parser. *)
Definition hmacKeyFunc {C} (secret : string) (token : Token C) : result string :=
  match Method token with
  | SigningMethodHMAC _ => Ok secret
  | SigningMethodOther _ => Err (errors_New "unexpected signing method")
  end.
End jwt.

(** ** pkg/auth/manager.go *)
Module Manager.
Local Open Scope Z_scope.

Record Claims : Type := mkClaims {
  Claims_UserID : Z;
  Claims_Username : string;
  Claims_Email : string;
  Claims_Role : string;
  Claims_Registered : jwt.RegisteredClaims
}.

#[global] Instance Claims_eq_dec : EqDecision Claims.
Proof. solve_decision. Defined.

(** [UserID] is written as a JSON number and read back as it was. *)
Definition Claims_decoded (claims : Claims) : Claims :=
  {| Claims_UserID := Claims_UserID claims;
     Claims_Username := json.roundtrip (Claims_Username claims);
     Claims_Email := json.roundtrip (Claims_Email claims);
     Claims_Role := json.roundtrip (Claims_Role claims);
     Claims_Registered := jwt.decodedRegistered (Claims_Registered claims) |}.

#[global] Instance Claims_jwt : jwt.Claims Claims :=
  {| jwt.registered := Claims_Registered; jwt.decoded := Claims_decoded |}.

Record TokenPair : Type := mkTokenPair {
  TokenPair_AccessToken : jwt.TokenString Claims;
  TokenPair_RefreshToken : jwt.TokenString Claims;
  TokenPair_ExpiresAt : Z;
  TokenPair_TokenType : string
}.

(** [signingMethod] is always [jwt.SigningMethodHS256] ([New]). *)
Record Manager : Type := mkManager {
  config : config.JWTConfig
}.

Definition New (cfg : config.JWTConfig) : Manager := {| config := cfg |}.

Definition GenerateToken (m : Manager) (now : Z)
    (userID : Z) (username email role : string) : result (jwt.TokenString Claims) :=
  let expiresAt := time.Add now (time.Hours (config.ExpireHours (config m))) in
  let claims :=
    {| Claims_UserID := userID;
       Claims_Username := username;
       Claims_Email := email;
       Claims_Role := role;
       Claims_Registered :=
         {| jwt.Issuer := config.Issuer (config m);
            jwt.Subject := Sprintf_d userID;
            jwt.Audience := [config.Issuer (config m)];
            jwt.ExpiresAt := jwt.NewNumericDate expiresAt;
            jwt.NotBefore := jwt.NewNumericDate now;
            jwt.IssuedAt := jwt.NewNumericDate now |} |} in
  jwt.SignedString "HS256" claims (config.Secret (config m)).

Definition GenerateRefreshToken (m : Manager) (now : Z)
    (userID : Z) (username : string) : result (jwt.TokenString Claims) :=
  let expiresAt := time.Add now (time.Hours (config.RefreshHours (config m))) in
  let claims :=
    {| Claims_UserID := userID;
       Claims_Username := username;
       Claims_Email := "";
       Claims_Role := "";
       Claims_Registered :=
         {| jwt.Issuer := config.Issuer (config m);
            jwt.Subject := "refresh:" +:+ Sprintf_d userID;
            jwt.Audience := [config.Issuer (config m)];
            jwt.ExpiresAt := jwt.NewNumericDate expiresAt;
            jwt.NotBefore := jwt.NewNumericDate now;
            jwt.IssuedAt := jwt.NewNumericDate now |} |} in
  jwt.SignedString "HS256" claims (config.Secret (config m)).

(** The three readings of the clock are those of [GenerateToken],
    [GenerateRefreshToken] and of the function itself. *)
Definition GenerateTokenPair (m : Manager) (now1 now2 now3 : Z)
    (userID : Z) (username email role : string) : result TokenPair :=
  match GenerateToken m now1 userID username email role with
  | Err err => Err (fmt_Errorf "failed to generate access token" err)
  | Ok accessToken =>
      match GenerateRefreshToken m now2 userID username with
      | Err err => Err (fmt_Errorf "failed to generate refresh token" err)
      | Ok refreshToken =>
          let expiresAt :=
            time.Unix (time.Add now3 (time.Hours (config.ExpireHours (config m)))) in
          Ok {| TokenPair_AccessToken := accessToken;
                TokenPair_RefreshToken := refreshToken;
                TokenPair_ExpiresAt := expiresAt;
                TokenPair_TokenType := "Bearer" |}
      end
  end.

Definition ValidateToken (m : Manager) (now : Z)
    (tokenString : jwt.TokenString Claims) : result Claims :=
  match jwt.ParseWithClaims tokenString
          (jwt.hmacKeyFunc (config.Secret (config m))) false now with
  | Err err => Err (fmt_Errorf "failed to parse token" err)
  | Ok token =>
      if negb (jwt.Valid token) then Err (errors_New "invalid token")
      else
        let claims := jwt.Token_Claims token in
        if negb (bool_decide (jwt.Issuer (Claims_Registered claims)
                              = config.Issuer (config m)))
        then Err (errors_New "invalid token issuer")
        else Ok claims
  end.

(** [now] is the validator's reading of the clock; [now1], [now2] and
    [now3] are those of [GenerateTokenPair]. *)
Definition RefreshToken (m : Manager) (now now1 now2 now3 : Z)
    (refreshTokenString : jwt.TokenString Claims) : outcome (result TokenPair) :=
  match ValidateToken m now refreshTokenString with
  | Err err => Returned (Err (fmt_Errorf "invalid refresh token" err))
  | Ok claims =>
      let subject := jwt.Subject (Claims_Registered claims) in
      if bool_decide (subject = "") then
        Returned (Err (errors_New "not a refresh token"))
      else
        match slicePrefix subject 8 with
        | None => Panicked "slice bounds out of range"
        | Some prefix =>
            if negb (bool_decide (prefix = "refresh:")) then
              Returned (Err (errors_New "not a refresh token"))
            else
              Returned (GenerateTokenPair m now1 now2 now3
                          (Claims_UserID claims) (Claims_Username claims)
                          (Claims_Email claims) (Claims_Role claims))
        end
  end.

Definition ExtractUsername (m : Manager) (now : Z)
    (tokenString : jwt.TokenString Claims) : result string :=
  match ValidateToken m now tokenString with
  | Err err => Err err
  | Ok claims => Ok (Claims_Username claims)
  end.


(** [errors.Is(err, jwt.ErrTokenExpired)]: the library joins the causes of
    a claims failure under [ErrTokenInvalidClaims]. *)
Fixpoint errors_Is_ErrTokenExpired (err : error) : bool :=
  match err with
  | errors_New _ => false
  | fmt_Errorf _ wrapped => errors_Is_ErrTokenExpired wrapped
  | jwt_Error (ErrTokenInvalidClaims causes) => bool_decide (ErrTokenExpired ∈ causes)
  | jwt_Error _ => false
  end.

(** [now] is the validator's reading of the clock, [now2] the reading of
    the final comparison; [claims.ExpiresAt] is nil when the token carries
    no [exp]. *)
Definition IsTokenExpired (m : Manager) (now now2 : Z)
    (tokenString : jwt.TokenString Claims) : outcome (result bool) :=
  match jwt.ParseWithClaims tokenString
          (jwt.hmacKeyFunc (config.Secret (config m))) false now with
  | Err err =>
      if errors_Is_ErrTokenExpired err then Returned (Ok true)
      else Returned (Err err)
  | Ok token =>
      match jwt.ExpiresAt (Claims_Registered (jwt.Token_Claims token)) with
      | None => Panicked "nil pointer dereference"
      | Some expiresAt => Returned (Ok (time.Before expiresAt now2))
      end
  end.

(** With [jwt.WithoutClaimsValidation()] the validator, and so the clock,
    is not consulted. *)
Definition GetTokenClaims (m : Manager) (tokenString : jwt.TokenString Claims)
  : result Claims :=
  match jwt.ParseWithClaims tokenString
          (jwt.hmacKeyFunc (config.Secret (config m))) true 0 with
  | Err err => Err (fmt_Errorf "failed to parse token" err)
  | Ok token => Ok (jwt.Token_Claims token)
  end.

(** A Go [error] result: [None] is [nil]. *)
Definition ValidateRole (m : Manager) (now : Z)
    (tokenString : jwt.TokenString Claims) (requiredRoles : list string)
  : option error :=
  match ValidateToken m now tokenString with
  | Err err => Some err
  | Ok claims =>
      if (length requiredRoles =? 0)%nat then None
      else
        let userRole := Claims_Role claims in
        if existsb (fun role => bool_decide (userRole = role)) requiredRoles then None
        else Some (errors_New ("insufficient permissions: required one of "
                               +:+ Strings.Sprint_v requiredRoles
                               +:+ ", got " +:+ userRole))
  end.

Definition GetTokenExpiration (m : Manager) (tokenString : jwt.TokenString Claims)
  : result Z :=
  match GetTokenClaims m tokenString with
  | Err err => Err err
  | Ok claims =>
      match jwt.ExpiresAt (Claims_Registered claims) with
      | None => Err (errors_New "token has no expiration time")
      | Some expiresAt => Ok expiresAt
      end
  end.
End Manager.

(** ** [JWTManager] of package auth *)
Module JWTManager.
Local Open Scope Z_scope.

Record Claims : Type := mkClaims {
  Claims_UserID : string;
  Claims_Username : string;
  Claims_Email : string;
  Claims_Roles : list string;
  Claims_Registered : jwt.RegisteredClaims
}.

#[global] Instance Claims_eq_dec : EqDecision Claims.
Proof. solve_decision. Defined.

Definition Claims_decoded (claims : Claims) : Claims :=
  {| Claims_UserID := json.roundtrip (Claims_UserID claims);
     Claims_Username := json.roundtrip (Claims_Username claims);
     Claims_Email := json.roundtrip (Claims_Email claims);
     Claims_Roles := json.roundtrip <$> Claims_Roles claims;
     Claims_Registered := jwt.decodedRegistered (Claims_Registered claims) |}.

#[global] Instance Claims_jwt : jwt.Claims Claims :=
  {| jwt.registered := Claims_Registered; jwt.decoded := Claims_decoded |}.

Record TokenPair : Type := mkTokenPair {
  TokenPair_AccessToken : jwt.TokenString Claims;
  TokenPair_RefreshToken : jwt.TokenString Claims;
  TokenPair_ExpiresIn : Z;
  TokenPair_TokenType : string
}.

Record User : Type := mkUser {
  User_ID : string;
  User_Username : string;
  User_Email : string;
  User_Password : string;
  User_Roles : list string;
  User_IsActive : bool
}.

Record JWTManager : Type := mkJWTManager {
  config : config.JWTConfig
}.

Definition NewJWTManager (cfg : config.JWTConfig) : JWTManager := {| config := cfg |}.

(** The claims both [GenerateToken] and [GenerateRefreshToken] build,
    for a lifetime of [hours]. *)
Definition userClaims (jm : JWTManager) (now hours : Z) (user : User) : Claims :=
  let expiresAt := time.Add now (time.Hours hours) in
  {| Claims_UserID := User_ID user;
     Claims_Username := User_Username user;
     Claims_Email := User_Email user;
     Claims_Roles := User_Roles user;
     Claims_Registered :=
       {| jwt.Issuer := config.Issuer (config jm);
          jwt.Subject := User_ID user;
          jwt.Audience := [];
          jwt.ExpiresAt := jwt.NewNumericDate expiresAt;
          jwt.NotBefore := jwt.NewNumericDate now;
          jwt.IssuedAt := jwt.NewNumericDate now |} |}.

Definition GenerateToken (jm : JWTManager) (now : Z) (user : User)
  : result (jwt.TokenString Claims) :=
  jwt.SignedString "HS256"
    (userClaims jm now (config.ExpireHours (config jm)) user)
    (config.Secret (config jm)).

Definition GenerateRefreshToken (jm : JWTManager) (now : Z) (user : User)
  : result (jwt.TokenString Claims) :=
  jwt.SignedString "HS256"
    (userClaims jm now (config.RefreshHours (config jm)) user)
    (config.Secret (config jm)).

Definition GenerateTokenPair (jm : JWTManager) (now1 now2 : Z) (user : User)
  : result TokenPair :=
  match GenerateToken jm now1 user with
  | Err err => Err (fmt_Errorf "failed to generate access token" err)
  | Ok accessToken =>
      match GenerateRefreshToken jm now2 user with
      | Err err => Err (fmt_Errorf "failed to generate refresh token" err)
      | Ok refreshToken =>
          Ok {| TokenPair_AccessToken := accessToken;
                TokenPair_RefreshToken := refreshToken;
                TokenPair_ExpiresIn := wrap64 (config.ExpireHours (config jm) * 3600);
                TokenPair_TokenType := "Bearer" |}
      end
  end.

Definition ValidateToken (jm : JWTManager) (now : Z)
    (tokenString : jwt.TokenString Claims) : result Claims :=
  match jwt.ParseWithClaims tokenString
          (jwt.hmacKeyFunc (config.Secret (config jm))) false now with
  | Err err => Err err
  | Ok token =>
      if jwt.Valid token then Ok (jwt.Token_Claims token)
      else Err (errors_New "invalid token")
  end.

(** [now] is the validator's reading of the clock, [now0] the one of
    [RefreshToken] itself, [now1] and [now2] those of
    [GenerateTokenPair].  [claims.ExpiresAt.Time] dereferences a pointer
    that is nil when the token carries no [exp]. *)
Definition RefreshToken (jm : JWTManager) (now now0 now1 now2 : Z)
    (refreshTokenString : jwt.TokenString Claims) : outcome (result TokenPair) :=
  match ValidateToken jm now refreshTokenString with
  | Err err => Returned (Err (fmt_Errorf "invalid refresh token" err))
  | Ok claims =>
      match jwt.ExpiresAt (Claims_Registered claims) with
      | None => Panicked "nil pointer dereference"
      | Some expiresAt =>
          if time.Before expiresAt now0 then
            Returned (Err (errors_New "refresh token expired"))
          else
            let user :=
              {| User_ID := Claims_UserID claims;
                 User_Username := Claims_Username claims;
                 User_Email := Claims_Email claims;
                 User_Password := "";
                 User_Roles := Claims_Roles claims;
                 User_IsActive := false |} in
            Returned (GenerateTokenPair jm now1 now2 user)
      end
  end.
Definition ExtractTokenFromHeader (authHeader : string) : result string :=
  if bool_decide (authHeader = "") then
    Err (errors_New "authorization header is empty")
  else
    match Strings.SplitN2 authHeader " " with
    | [scheme; token] =>
        if negb (bool_decide (Strings.ToLower scheme = "bearer")) then
          Err (errors_New "authorization header format must be Bearer {token}")
        else Ok token
    | _ => Err (errors_New "authorization header format must be Bearer {token}")
    end.


Definition HasRole (claims : Claims) (role : string) : bool :=
  existsb (fun userRole => bool_decide (userRole = role)) (Claims_Roles claims).

Definition HasAnyRole (claims : Claims) (roles : list string) : bool :=
  existsb (fun role => HasRole claims role) roles.

Definition HasAllRoles (claims : Claims) (roles : list string) : bool :=
  forallb (fun role => HasRole claims role) roles.

(** The flags of the loop of [ValidatePasswordStrength]. *)
Record charFlags : Type := mkCharFlags {
  hasUpper : bool;
  hasLower : bool;
  hasNumber : bool;
  hasSpecial : bool
}.

(** One turn of the loop.  The loop ranges over runes: a byte below 0x80
    is a rune of its own, and every rune read from bytes from 0x80 on (the
    replacement rune included) falls in the [default] case, as such a byte
    does here. *)
Definition classify (flags : charFlags) (char : ascii) : charFlags :=
  let c := nat_of_ascii char in
  if (65 <=? c)%nat && (c <=? 90)%nat then
    mkCharFlags true (hasLower flags) (hasNumber flags) (hasSpecial flags)
  else if (97 <=? c)%nat && (c <=? 122)%nat then
    mkCharFlags (hasUpper flags) true (hasNumber flags) (hasSpecial flags)
  else if (48 <=? c)%nat && (c <=? 57)%nat then
    mkCharFlags (hasUpper flags) (hasLower flags) true (hasSpecial flags)
  else
    mkCharFlags (hasUpper flags) (hasLower flags) (hasNumber flags) true.

Definition ValidatePasswordStrength (password : string) : option error :=
  if (String.length password <? 8)%nat then
    Some (errors_New "password must be at least 8 characters long")
  else
    let flags :=
      foldl classify (mkCharFlags false false false false)
        (list_ascii_of_string password) in
    if negb (hasUpper flags) then
      Some (errors_New "password must contain at least one uppercase letter")
    else if negb (hasLower flags) then
      Some (errors_New "password must contain at least one lowercase letter")
    else if negb (hasNumber flags) then
      Some (errors_New "password must contain at least one number")
    else if negb (hasSpecial flags) then
      Some (errors_New "password must contain at least one special character")
    else None.
End JWTManager.

(** ** pkg/middleware/ratelimit.go *)
Module RateLimit.
Local Open Scope Z_scope.

Record tokenBucket : Type := mkTokenBucket {
  tokens : Z;
  capacity : Z;
  rate : Z;
  lastRefill : Z
}.

Definition newTokenBucket (capacity rate : Z) (now : Z) : tokenBucket :=
  {| tokens := capacity; capacity := capacity; rate := rate; lastRefill := now |}.

(** The refill of [consume], for [secs = int(elapsed.Seconds())]. *)
Definition refill (tb : tokenBucket) (secs now : Z) : tokenBucket :=
  let tokensToAdd := wrap64 (secs * rate tb) in
  if 0 <? tokensToAdd then
    let tokens1 := wrap64 (tokens tb + tokensToAdd) in
    {| tokens := if capacity tb <? tokens1 then capacity tb else tokens1;
       capacity := capacity tb;
       rate := rate tb;
       lastRefill := now |}
  else tb.

(** The attempt of [consume] to take one token. *)
Definition takeToken (tb : tokenBucket) : bool * tokenBucket :=
  if 0 <? tokens tb then
    (true, {| tokens := wrap64 (tokens tb - 1);
              capacity := capacity tb;
              rate := rate tb;
              lastRefill := lastRefill tb |})
  else (false, tb).

Definition consume (tb : tokenBucket) (now : Z) : bool * tokenBucket :=
  let elapsed := time.Sub now (lastRefill tb) in
  takeToken (refill tb (time.SecondsInt elapsed) now).

(** A sequence of [consume] calls, one per reading of the clock; the
    answers come in the order of the calls. *)
Fixpoint consumeAll (tb : tokenBucket) (times : list Z) : list bool * tokenBucket :=
  match times with
  | [] => ([], tb)
  | now :: rest =>
      let '(ok, tb1) := consume tb now in
      let '(oks, tb2) := consumeAll tb1 rest in
      (ok :: oks, tb2)
  end.

Record slidingWindow : Type := mkSlidingWindow {
  requests : list Z;
  limit : Z;
  window : Z
}.

Definition newSlidingWindow (limit window : Z) : slidingWindow :=
  {| requests := []; limit := limit; window := window |}.

Definition cutoff (sw : slidingWindow) (now : Z) : Z :=
  time.Add now (time.Neg (window sw)).

Definition allow (sw : slidingWindow) (now : Z) : bool * slidingWindow :=
  let validRequests :=
    List.filter (fun reqTime => time.After reqTime (cutoff sw now)) (requests sw) in
  if limit sw <=? Z.of_nat (length validRequests) then
    (false, {| requests := validRequests; limit := limit sw; window := window sw |})
  else
    (true, {| requests := (validRequests ++ [now])%list;
              limit := limit sw; window := window sw |}).

Fixpoint allowAll (sw : slidingWindow) (times : list Z) : list bool * slidingWindow :=
  match times with
  | [] => ([], sw)
  | now :: rest =>
      let '(ok, sw1) := allow sw now in
      let '(oks, sw2) := allowAll sw1 rest in
      (ok :: oks, sw2)
  end.
Record RateLimiterConfig : Type := mkRateLimiterConfig {
  Rate : Z;
  Burst : Z;
  Duration : Z
}.

Record rateLimiter : Type := mkRateLimiter {
  buckets : gmap string tokenBucket;
  windows : gmap string slidingWindow;
  config : RateLimiterConfig
}.

Definition newRateLimiter (config : RateLimiterConfig) : rateLimiter :=
  {| buckets := ∅; windows := ∅; config := config |}.

(** [rateLimiter.allow]: [created] is the reading of the clock by
    [newTokenBucket], taken only when the key has no bucket yet; [now] is
    the reading by [consume]. *)
Definition rateLimiter_allow (rl : rateLimiter) (key : string) (created now : Z)
  : bool * rateLimiter :=
  let bucket :=
    match buckets rl !! key with
    | Some bucket => bucket
    | None => newTokenBucket (Burst (config rl)) (Rate (config rl)) created
    end in
  let '(ok, bucket') := consume bucket now in
  (ok, {| buckets := <[key := bucket']> (buckets rl);
          windows := windows rl;
          config := config rl |}).

Definition rateLimiter_allowSliding (rl : rateLimiter) (key : string) (now : Z)
  : bool * rateLimiter :=
  let window_ :=
    match windows rl !! key with
    | Some window_ => window_
    | None => newSlidingWindow (Rate (config rl)) (Duration (config rl))
    end in
  let '(ok, window') := allow window_ now in
  (ok, {| buckets := buckets rl;
          windows := <[key := window']> (windows rl);
          config := config rl |}).

Definition Minute : Z := 60 * time.Second.

(** One tick of the loop of [cleanup], under the limiter's lock: buckets
    not refilled for more than ten minutes and windows without a recorded
    request are deleted. *)
Definition cleanupTick (rl : rateLimiter) (now : Z) : rateLimiter :=
  {| buckets :=
       filter (fun kb => ~ (10 * Minute < time.Sub now (lastRefill kb.2))) (buckets rl);
     windows := filter (fun kw => requests kw.2 <> []) (windows rl);
     config := config rl |}.
(** The instants of the admitted calls, from the instants of the calls and
    the answers to them. *)
Fixpoint admitted (times : list Z) (oks : list bool) : list Z :=
  match times, oks with
  | now :: times', ok :: oks' =>
      if ok then now :: admitted times' oks' else admitted times' oks'
  | _, _ => []
  end.

(** A call on the limiter.  Each method holds the limiter's lock from its
    first statement to its return, so a run of the limiter is a sequence of
    calls. *)
Inductive call : Type :=
| call_allow (key : string) (created now : Z)
| call_allowSliding (key : string) (now : Z)
| call_cleanupTick (now : Z).

Definition runCall (rl : rateLimiter) (c : call) : rateLimiter :=
  match c with
  | call_allow key created now => (rateLimiter_allow rl key created now).2
  | call_allowSliding key now => (rateLimiter_allowSliding rl key now).2
  | call_cleanupTick now => cleanupTick rl now
  end.

Definition runCalls (rl : rateLimiter) (calls : list call) : rateLimiter :=
  foldl runCall rl calls.
End RateLimit.

(** ** pkg/middleware/jwt.go *)
Module Middleware.

Definition matchPath (path pattern : string) : bool :=
  if bool_decide (pattern = path) then true
  else if Strings.HasSuffix pattern "*" then
    Strings.HasPrefix path (Strings.TrimSuffix pattern "*")
  else false.

Definition shouldSkipPath (path : string) (skipPaths : list string) : bool :=
  existsb (fun skipPath => matchPath path skipPath) skipPaths.

(** What [c.Get("claims")] finds in the context: a [*auth.Claims], nil or
    not, or a value of another type. *)
Inductive contextValue : Type :=
| ClaimsPointer (claims : option Manager.Claims)
| OtherValue.

(** What a handler does with the request: [c.Next()], or [c.JSON] with a
    status, an error and a message followed by [c.Abort()]. *)
Inductive handled : Type :=
| Next
| AbortWithJSON (status : Z) (error_ message : string).

Definition RequireRole (roles : list string) (claimsValue : option contextValue)
  : outcome handled :=
  match claimsValue with
  | None =>
      Returned (AbortWithJSON 401 "Unauthorized" "No authentication claims found")
  | Some OtherValue =>
      Returned (AbortWithJSON 401 "Unauthorized" "Invalid authentication claims")
  | Some (ClaimsPointer None) => Panicked "nil pointer dereference"
  | Some (ClaimsPointer (Some claims)) =>
      let userRole := Manager.Claims_Role claims in
      if existsb (fun role => bool_decide (userRole = role)) roles then Returned Next
      else
        Returned (AbortWithJSON 403 "Forbidden"
                    ("Required role: " +:+ Strings.Sprint_v roles
                     +:+ ", got: " +:+ userRole))
  end.

Definition RequireAnyRole (roles : list string) (claimsValue : option contextValue)
  : outcome handled :=
  RequireRole roles claimsValue.

Definition RequireAllRoles (roles : list string) (claimsValue : option contextValue)
  : outcome handled :=
  match claimsValue with
  | None =>
      Returned (AbortWithJSON 401 "Unauthorized" "No authentication claims found")
  | Some OtherValue =>
      Returned (AbortWithJSON 401 "Unauthorized" "Invalid authentication claims")
  | Some (ClaimsPointer None) => Panicked "nil pointer dereference"
  | Some (ClaimsPointer (Some claims)) =>
      let userRole := Manager.Claims_Role claims in
      if forallb (fun role => bool_decide (userRole = role)) roles then Returned Next
      else
        Returned (AbortWithJSON 403 "Forbidden"
                    ("Required all roles: " +:+ Strings.Sprint_v roles
                     +:+ ", got: " +:+ userRole))
  end.
End Middleware.


(** * Properties *)

(** ** RBAC engine *)
Section RbacProperties.
Import Rbac.

Implicit Types (rbac : RBAC) (role : Role) (permission : Permission).
Implicit Types (perms : list Permission) (userID roleID permissionID : string).

(** *** Loops with an early [return true] *)

Lemma existsb_elem_of {A} (f : A -> bool) (l : list A) :
  existsb f l = true <-> exists x, x ∈ l /\ f x = true.
Proof.
  rewrite existsb_exists. split; intros (x & Hx & Hf); exists x; split; auto;
    by apply list_elem_of_In.
Qed.

Lemma forallb_elem_of {A} (f : A -> bool) (l : list A) :
  forallb f l = true <-> forall x, x ∈ l -> f x = true.
Proof.
  rewrite forallb_forall. split; intros H x Hx; apply H; by apply list_elem_of_In.
Qed.

Lemma HasRole_elem_of rbac userID roleID :
  HasRole rbac userID roleID = true <-> roleID ∈ GetUserRoles rbac userID.
Proof.
  unfold HasRole, GetUserRoles. rewrite existsb_elem_of. split.
  - intros (x & Hx & Heq). apply bool_decide_eq_true in Heq. by subst.
  - intros H. exists roleID. split; [done | by apply bool_decide_eq_true].
Qed.

Lemma HasAnyRole_elem_of rbac userID (roleIDs : list string) :
  HasAnyRole rbac userID roleIDs = true <->
  exists roleID, roleID ∈ roleIDs /\ roleID ∈ GetUserRoles rbac userID.
Proof.
  unfold HasAnyRole. rewrite existsb_elem_of.
  split; intros (x & Hx & H); exists x; split; auto; by apply HasRole_elem_of.
Qed.

Lemma HasPermission_elem_of rbac userID permissionID :
  HasPermission rbac userID permissionID = true <->
  permissionID ∈ Permission_ID <$> GetUserPermissions rbac userID.
Proof.
  unfold HasPermission. rewrite existsb_elem_of, list_elem_of_fmap. split.
  - intros (p & Hp & Heq). apply bool_decide_eq_true in Heq. eauto.
  - intros (p & Heq & Hp). exists p. split; [done | by apply bool_decide_eq_true].
Qed.

(** *** [deduplicatePermissions] *)

(** The loop keeps [seen] equal to the ids of [result], and [result] free
    of repeated ids; it adds exactly the ids it meets, and only permissions
    it meets. *)
Lemma dedupStep_spec (acc : gset string * list Permission) permission :
  (forall id, id ∈ acc.1 <-> id ∈ Permission_ID <$> acc.2) ->
  NoDup (Permission_ID <$> acc.2) ->
  (forall id, id ∈ (dedupStep acc permission).1 <->
              id ∈ Permission_ID <$> (dedupStep acc permission).2)
  /\ NoDup (Permission_ID <$> (dedupStep acc permission).2)
  /\ (forall id, id ∈ Permission_ID <$> (dedupStep acc permission).2 <->
                 id ∈ Permission_ID <$> acc.2 \/ id = Permission_ID permission)
  /\ (forall q, q ∈ (dedupStep acc permission).2 -> q ∈ acc.2 \/ q = permission).
Proof.
  intros Hseen Hnd. unfold dedupStep.
  destruct (decide (Permission_ID permission ∈ acc.1)) as [Hin|Hnin]; simpl.
  - split_and!; auto.
    intros id. split; [auto|]. intros [H| ->]; [done | by apply Hseen].
  - rewrite fmap_app. simpl. split_and!.
    + intros id.
      rewrite elem_of_union, elem_of_singleton, elem_of_app, list_elem_of_singleton.
      rewrite Hseen. tauto.
    + apply NoDup_app. split; [done|]. split.
      * intros x Hx Hx'. apply list_elem_of_singleton in Hx'. subst.
        apply Hnin. by apply Hseen.
      * apply NoDup_singleton.
    + intros id. rewrite elem_of_app, list_elem_of_singleton. tauto.
    + intros q. rewrite elem_of_app, list_elem_of_singleton. tauto.
Qed.

Lemma dedup_loop perms : forall (acc : gset string * list Permission),
  (forall id, id ∈ acc.1 <-> id ∈ Permission_ID <$> acc.2) ->
  NoDup (Permission_ID <$> acc.2) ->
  (forall id, id ∈ (foldl dedupStep acc perms).1 <->
              id ∈ Permission_ID <$> (foldl dedupStep acc perms).2)
  /\ NoDup (Permission_ID <$> (foldl dedupStep acc perms).2)
  /\ (forall id, id ∈ Permission_ID <$> (foldl dedupStep acc perms).2 <->
                 id ∈ Permission_ID <$> acc.2 \/ id ∈ Permission_ID <$> perms)
  /\ (forall permission, permission ∈ (foldl dedupStep acc perms).2 ->
                         permission ∈ acc.2 \/ permission ∈ perms).
Proof.
  induction perms as [|p perms IH]; intros acc Hseen Hnd; simpl.
  - split_and!; auto.
    intros id. split; [auto|]. intros [H|H]; [done | by apply elem_of_nil in H].
  - destruct (dedupStep_spec acc p Hseen Hnd) as (Hs1 & Hs2 & Hs3 & Hs4).
    destruct (IH (dedupStep acc p) Hs1 Hs2) as (I1 & I2 & I3 & I4).
    split_and!; auto.
    + intros id. rewrite I3, Hs3, elem_of_cons. tauto.
    + intros q Hq. apply I4 in Hq. rewrite elem_of_cons.
      destruct Hq as [Hq|Hq]; [apply Hs4 in Hq|]; tauto.
Qed.

Lemma deduplicatePermissions_spec perms :
  NoDup (Permission_ID <$> deduplicatePermissions perms)
  /\ (forall id, id ∈ Permission_ID <$> deduplicatePermissions perms <->
                 id ∈ Permission_ID <$> perms)
  /\ (forall permission,
        permission ∈ deduplicatePermissions perms -> permission ∈ perms).
Proof.
  unfold deduplicatePermissions.
  destruct (dedup_loop perms (∅, [])) as (_ & H2 & H3 & H4); simpl.
  - intros id. split; intros H; [by apply not_elem_of_empty in H | by apply elem_of_nil in H].
  - apply NoDup_nil_2.
  - split_and!; auto.
    + intros id. rewrite H3. split; [|auto].
      intros [H|H]; [by apply elem_of_nil in H | done].
    + intros p Hp. apply H4 in Hp as [Hp|Hp]; [by apply elem_of_nil in Hp | done].
Qed.

(** *** The loop of [GetUserPermissions] *)

Lemma collect_loop rbac (userRoles_ : list string) : forall (acc : list Permission) permission,
  permission ∈ foldl (fun perms roleID =>
                        match roles rbac !! roleID with
                        | Some role => (perms ++ Role_Permissions role)%list
                        | None => perms
                        end) acc userRoles_ <->
  permission ∈ acc \/
  exists roleID role, roleID ∈ userRoles_ /\ roles rbac !! roleID = Some role
                      /\ permission ∈ Role_Permissions role.
Proof.
  induction userRoles_ as [|r rs IH]; intros acc p; simpl.
  - split; [auto|]. intros [H|(roleID & role & H & _)]; [done | by apply elem_of_nil in H].
  - rewrite IH. destruct (roles rbac !! r) as [role|] eqn:Hr.
    + rewrite elem_of_app. split.
      * intros [[H|H]|(roleID & role' & H1 & H2 & H3)]; auto.
        -- right. exists r, role. rewrite elem_of_cons. auto.
        -- right. exists roleID, role'. rewrite elem_of_cons. auto.
      * intros [H|(roleID & role' & H1 & H2 & H3)]; auto.
        apply elem_of_cons in H1 as [->|H1].
        -- rewrite Hr in H2. injection H2 as ->. auto.
        -- right. eauto.
    + split.
      * intros [H|(roleID & role' & H1 & H2 & H3)]; auto.
        right. exists roleID, role'. rewrite elem_of_cons. auto.
      * intros [H|(roleID & role' & H1 & H2 & H3)]; auto.
        apply elem_of_cons in H1 as [->|H1]; [congruence|]. right. eauto.
Qed.

Lemma collectPermissions_elem_of rbac (userRoles_ : list string) permission :
  permission ∈ collectPermissions rbac userRoles_ <->
  exists roleID role, roleID ∈ userRoles_ /\ roles rbac !! roleID = Some role
                      /\ permission ∈ Role_Permissions role.
Proof.
  unfold collectPermissions. rewrite collect_loop. split; [|auto].
  intros [H|H]; [by apply elem_of_nil in H | done].
Qed.

(** C8. [GetUserPermissions] returns the union, deduplicated by permission
    id, of the permission lists of the roles assigned to the user (those of
    the assigned role ids that are registered): no id appears twice, an id
    appears exactly when a permission of one of these roles carries it, and
    every returned permission is taken from one of these roles. *)
Theorem GetUserPermissions_dedup_union rbac userID :
  NoDup (Permission_ID <$> GetUserPermissions rbac userID)
  /\ (forall id,
        id ∈ Permission_ID <$> GetUserPermissions rbac userID <->
        exists roleID role permission,
          roleID ∈ GetUserRoles rbac userID /\ roles rbac !! roleID = Some role
          /\ permission ∈ Role_Permissions role /\ Permission_ID permission = id)
  /\ (forall permission,
        permission ∈ GetUserPermissions rbac userID ->
        exists roleID role,
          roleID ∈ GetUserRoles rbac userID /\ roles rbac !! roleID = Some role
          /\ permission ∈ Role_Permissions role).
Proof.
  unfold GetUserPermissions, GetUserRoles.
  set (rs := default [] (userRoles rbac !! userID)).
  destruct (deduplicatePermissions_spec (collectPermissions rbac rs)) as (Hnd & Hids & Hsub).
  split; [done|]. split.
  - intros id. rewrite Hids, list_elem_of_fmap. split.
    + intros (p & -> & Hp). apply collectPermissions_elem_of in Hp
        as (roleID & role & H1 & H2 & H3). by exists roleID, role, p.
    + intros (roleID & role & p & H1 & H2 & H3 & <-). exists p. split; [done|].
      apply collectPermissions_elem_of. eauto.
  - intros p Hp. apply Hsub in Hp. by apply collectPermissions_elem_of.
Qed.

(** Case analysis on the four string comparisons of the loop body of
    [HasResourcePermission]. *)
Ltac wildcard_cases p resource action :=
  destruct (bool_decide_reflect (Permission_Resource p = resource));
  destruct (bool_decide_reflect (Permission_Action p = action));
  destruct (bool_decide_reflect (Permission_Resource p = "*"));
  destruct (bool_decide_reflect (Permission_Action p = "*")).





(** C4 fails when two roles keep different copies under one permission
    id.  The engine is built by the operations alone: the permission "p"
    is registered for ("doc", "read") and attached to role "A", registered
    again as a wildcard and attached to role "B", and the user is assigned
    "A", then "B".  The user holds, through "B", a permission whose
    resource is ["*"], and is refused. *)
Lemma HasResourcePermission_first_copy_only :
  let p_doc := mkPermission "p" "P" "" "doc" "read" in
  let p_all := mkPermission "p" "P" "" "*" "*" in
  exists rbac1 rbac2 rbac3 rbac4 rbac5 rbac6 rbac7 rbac,
    AddPermission NewRBAC p_doc = Ok rbac1
    /\ AddRole rbac1 (mkRole "A" "A" "" []) = Ok rbac2
    /\ AddPermissionToRole rbac2 "A" "p" = Ok rbac3
    /\ AddPermission rbac3 p_all = Ok rbac4
    /\ AddRole rbac4 (mkRole "B" "B" "" []) = Ok rbac5
    /\ AddPermissionToRole rbac5 "B" "p" = Ok rbac6
    /\ AssignRoleToUser rbac6 "u" "A" = Ok rbac7
    /\ AssignRoleToUser rbac7 "u" "B" = Ok rbac
    /\ HasRole rbac "u" "B" = true
    /\ GetRole rbac "B" = Ok (mkRole "B" "B" "" [p_all])
    /\ Permission_Resource p_all = "*"
    /\ GetUserPermissions rbac "u" = [p_doc]
    /\ HasResourcePermission rbac "u" "invoice" "delete" = false.
Proof.
  simpl. eexists _, _, _, _, _, _, _, _.
  split_and!; try (vm_compute; reflexivity).
Qed.

(** The permissions the user holds come from the assigned roles, and when
    the copies of a permission kept by these roles agree on resource and
    action, every copy counts. *)
Lemma HasResourcePermission_by_roles rbac userID (resource action : string) :
  (HasResourcePermission rbac userID resource action = true ->
   exists roleID role permission,
     roleID ∈ GetUserRoles rbac userID /\ roles rbac !! roleID = Some role
     /\ permission ∈ Role_Permissions role
     /\ ((Permission_Resource permission = resource
          /\ Permission_Action permission = action)
         \/ Permission_Resource permission = "*"
         \/ Permission_Action permission = "*"))
  /\ ((forall p q, p ∈ GetUserPermissions rbac userID ->
                  (exists roleID role, roleID ∈ GetUserRoles rbac userID
                     /\ roles rbac !! roleID = Some role /\ q ∈ Role_Permissions role) ->
                  Permission_ID p = Permission_ID q ->
                  Permission_Resource p = Permission_Resource q
                  /\ Permission_Action p = Permission_Action q) ->
      forall roleID role permission,
        roleID ∈ GetUserRoles rbac userID -> roles rbac !! roleID = Some role ->
        permission ∈ Role_Permissions role ->
        ((Permission_Resource permission = resource
          /\ Permission_Action permission = action)
         \/ Permission_Resource permission = "*"
         \/ Permission_Action permission = "*") ->
        HasResourcePermission rbac userID resource action = true).
Proof.
  unfold HasResourcePermission. rewrite existsb_elem_of.
  destruct (deduplicatePermissions_spec
              (collectPermissions rbac (GetUserRoles rbac userID)))
    as (_ & Hids & Hsub).
  fold (GetUserPermissions rbac userID) in Hids, Hsub.
  split.
  - intros (p & Hp & H).
    apply Hsub, collectPermissions_elem_of in Hp as (roleID & role & H1 & H2 & H3).
    exists roleID, role, p. split_and!; auto.
    wildcard_cases p resource action; simpl in H; auto; discriminate.
  - intros Hagree roleID role q H1 H2 H3 Hm.
    assert (Hq : Permission_ID q ∈ Permission_ID <$> GetUserPermissions rbac userID).
    { apply Hids, list_elem_of_fmap. exists q. split; [done|].
      apply collectPermissions_elem_of. eauto. }
    apply list_elem_of_fmap in Hq as (p & Heq & Hp).
    apply existsb_elem_of. exists p. split; [done|].
    destruct (Hagree p q Hp) as [Hr Ha]; [eauto | done |].
    rewrite <- Hr, <- Ha in Hm.
    wildcard_cases p resource action; simpl; auto; tauto.
Qed.

(** C3. [EvaluatePolicy] grants exactly when each of the three checks
    passes for its non-empty dimension: with a non-empty [Roles] the user
    has one of the listed roles, with a non-empty [Permissions] the user
    holds every listed permission id, and the user has the resource
    permission for every action of [Actions]; an empty list is skipped. *)
Theorem EvaluatePolicy_iff rbac userID (policy : Policy) :
  EvaluatePolicy rbac userID policy = true <->
  (Policy_Roles policy <> [] ->
   exists roleID, roleID ∈ Policy_Roles policy /\ roleID ∈ GetUserRoles rbac userID)
  /\ (Policy_Permissions policy <> [] ->
      forall permissionID,
        permissionID ∈ Policy_Permissions policy ->
        permissionID ∈ Permission_ID <$> GetUserPermissions rbac userID)
  /\ (forall action,
        action ∈ Policy_Actions policy ->
        HasResourcePermission rbac userID (Policy_Resource policy) action = true).
Proof.
  assert (Hlen : forall l : list string, (0 <? length l)%nat = true <-> l <> []).
  { intros [|x l]; simpl; split; intros; done. }
  unfold EvaluatePolicy.
  destruct ((0 <? length (Policy_Roles policy))%nat
            && negb (HasAnyRole rbac userID (Policy_Roles policy))) eqn:E1.
  { split; [done|]. intros (H1 & _). exfalso.
    apply andb_true_iff in E1 as [Hr Hn]. apply Hlen, H1, HasAnyRole_elem_of in Hr.
    rewrite Hr in Hn. done. }
  destruct ((0 <? length (Policy_Permissions policy))%nat
            && negb (forallb (fun permissionID => HasPermission rbac userID permissionID)
                       (Policy_Permissions policy))) eqn:E2.
  { split; [done|]. intros (_ & H2 & _). exfalso.
    apply andb_true_iff in E2 as [Hp Hn]. apply Hlen in Hp.
    assert (Hall : forallb (fun permissionID => HasPermission rbac userID permissionID)
                     (Policy_Permissions policy) = true).
    { apply forallb_elem_of. intros x Hx. apply HasPermission_elem_of. auto. }
    rewrite Hall in Hn. done. }
  destruct (forallb (fun action =>
                       HasResourcePermission rbac userID (Policy_Resource policy) action)
              (Policy_Actions policy)) eqn:E3; simpl.
  - split; [intros _ | done]. split_and!.
    + intros Hne. apply Hlen in Hne. rewrite Hne in E1. simpl in E1.
      apply negb_false_iff in E1. by apply HasAnyRole_elem_of.
    + intros Hne x Hx. apply Hlen in Hne. rewrite Hne in E2. simpl in E2.
      apply negb_false_iff in E2. rewrite forallb_elem_of in E2.
      apply HasPermission_elem_of. auto.
    + by apply forallb_elem_of.
  - split; [done|]. intros (_ & _ & H3). exfalso.
    apply not_true_iff_false in E3. apply E3, forallb_elem_of. exact H3.
Qed.

(** *** [RemovePermission] *)


(** The loop stops at the first permission carrying the id. *)
Lemma indexOfPermission_Some perms permissionID : forall i,
  indexOfPermission perms permissionID = Some i ->
  exists permission,
    perms !! i = Some permission
    /\ Permission_ID permission = permissionID
    /\ (permissionID ∉ Permission_ID <$> take i perms).
Proof.
  induction perms as [|p perms IH]; simpl; intros i Hi; [done|].
  destruct (decide (Permission_ID p = permissionID)) as [Heq|Hne].
  - injection Hi as <-. exists p. simpl. split_and!; auto. apply not_elem_of_nil.
  - apply fmap_Some in Hi as (j & Hj & ->). apply IH in Hj as (q & H1 & H2 & H3).
    exists q. simpl. split_and!; auto. rewrite not_elem_of_cons. auto.
Qed.






(** The policy example of the specification, on the state the test
    [TestPolicyEvaluator] builds: a user holding only the role ["user"] is
    denied the policy that asks for the role ["admin"] and the action
    ["write"] on ["user"]; the administrator is granted it. *)
Lemma EvaluatePolicy_example :
  let readUser := mkPermission "read.user" "Read User" "" "user" "read" in
  let writeUser := mkPermission "write.user" "Write User" "" "user" "write" in
  let readAdmin := mkPermission "read.admin" "Read Admin" "" "admin" "read" in
  let rbac :=
    {| roles :=
         {[ "user" := mkRole "user" "User" "Regular user" [readUser];
            "admin" := mkRole "admin" "Admin" "Administrator"
                         [readUser; writeUser; readAdmin] ]};
       permissions :=
         {[ "read.user" := readUser; "write.user" := writeUser;
            "read.admin" := readAdmin ]};
       userRoles := {[ "user123" := ["user"]; "admin123" := ["admin"] ]} |} in
  let writeUserPolicy := mkPolicy "user" ["write"] ["admin"] [] in
  EvaluatePolicy rbac "user123" writeUserPolicy = false
  /\ EvaluatePolicy rbac "admin123" writeUserPolicy = true
  /\ EvaluatePolicy rbac "user123" (mkPolicy "user" ["read"] ["user"; "admin"] []) = true
  /\ EvaluatePolicy rbac "user123" (mkPolicy "user" ["read"] [] []) = true.
Proof. vm_compute. split_and!; reflexivity. Qed.

End RbacProperties.

(** ** Strings across JSON, keys across HMAC *)
Section JsonProperties.









End JsonProperties.

(** ** The JWT library model *)
Section JwtProperties.
Local Open Scope Z_scope.

Context {C : Type} {claimsC : jwt.Claims C}.

Lemma GetSigningMethod_HMAC (alg : string) :
  alg ∈ ["HS256"; "HS384"; "HS512"] ->
  jwt.GetSigningMethod alg = Some (jwt.SigningMethodHMAC alg).
Proof. intros Hin. unfold jwt.GetSigningMethod. by rewrite bool_decide_eq_true_2. Qed.

Lemma GetSigningMethod_not_HMAC (alg : string) :
  alg ∉ ["HS256"; "HS384"; "HS512"] ->
  jwt.GetSigningMethod alg = None
  \/ jwt.GetSigningMethod alg = Some (jwt.SigningMethodOther alg).
Proof.
  intros Hin. unfold jwt.GetSigningMethod. rewrite bool_decide_eq_false_2 by done.
  destruct (bool_decide _); auto.
Qed.

(** The default validation passes exactly when the expiry, if any, is
    still ahead and the not-before time, if any, has been reached. *)
Lemma Validate_nil (now : Z) (rc : jwt.RegisteredClaims) :
  jwt.Validate now rc = [] <->
  (forall exp, jwt.ExpiresAt rc = Some exp -> now < exp)
  /\ (forall nbf, jwt.NotBefore rc = Some nbf -> nbf <= now).
Proof.
  unfold jwt.Validate, time.Before.
  destruct (jwt.ExpiresAt rc) as [exp|], (jwt.NotBefore rc) as [nbf|]; simpl;
    repeat match goal with
           | |- context [(?a <? ?b)] => destruct (Z.ltb_spec a b); simpl
           end;
    (split; [intros Hnil; try discriminate Hnil; split; intros ? [= <-]; lia
            | intros [H1 H2]; try reflexivity; exfalso;
              try (specialize (H1 _ eq_refl)); try (specialize (H2 _ eq_refl)); lia]).
Qed.

Lemma Validate_expired (now exp : Z) (rc : jwt.RegisteredClaims) :
  jwt.ExpiresAt rc = Some exp -> exp <= now -> ErrTokenExpired ∈ jwt.Validate now rc.
Proof.
  intros He Hle. unfold jwt.Validate, time.Before. rewrite He.
  destruct (Z.ltb_spec now exp); [lia|]. apply list_elem_of_here.
Qed.


(** What the parser does with the managers' key function, case by case. *)
Lemma ParseWithClaims_cases (secret : string) (now : Z) (tokenString : jwt.TokenString C) :
  match tokenString with
  | jwt.Malformed _ =>
      jwt.ParseWithClaims tokenString (jwt.hmacKeyFunc secret) false now
      = Err (jwt_Error ErrTokenMalformed)
  | jwt.Compact alg claims signature =>
      (alg ∉ ["HS256"; "HS384"; "HS512"] ->
       jwt.ParseWithClaims tokenString (jwt.hmacKeyFunc secret) false now
       = Err (jwt_Error ErrTokenUnverifiable))
      /\ (alg ∈ ["HS256"; "HS384"; "HS512"] ->
          signature <> jwt.HMACTag alg secret alg claims ->
          jwt.ParseWithClaims tokenString (jwt.hmacKeyFunc secret) false now
          = Err (jwt_Error ErrTokenSignatureInvalid))
      /\ (alg ∈ ["HS256"; "HS384"; "HS512"] ->
          signature = jwt.HMACTag alg secret alg claims ->
          jwt.Validate now (jwt.registered claims) <> [] ->
          jwt.ParseWithClaims tokenString (jwt.hmacKeyFunc secret) false now
          = Err (jwt_Error (ErrTokenInvalidClaims
                              (jwt.Validate now (jwt.registered claims)))))
      /\ (alg ∈ ["HS256"; "HS384"; "HS512"] ->
          signature = jwt.HMACTag alg secret alg claims ->
          jwt.Validate now (jwt.registered claims) = [] ->
          jwt.ParseWithClaims tokenString (jwt.hmacKeyFunc secret) false now
          = Ok (jwt.mkToken (jwt.SigningMethodHMAC alg) alg claims signature true))
  end.
Proof.
  destruct tokenString as [alg claims signature|raw]; [|done].
  unfold jwt.ParseWithClaims. split_and!.
  - intros Hin. destruct (GetSigningMethod_not_HMAC alg Hin) as [-> | ->]; done.
  - intros Hin Hsig. rewrite (GetSigningMethod_HMAC alg Hin). simpl.
    by rewrite bool_decide_eq_false_2.
  - intros Hin Hsig Hv. rewrite (GetSigningMethod_HMAC alg Hin). simpl.
    rewrite bool_decide_eq_true_2 by done. simpl.
    destruct (jwt.Validate now (jwt.registered claims)); done.
  - intros Hin Hsig Hv. rewrite (GetSigningMethod_HMAC alg Hin). simpl.
    rewrite bool_decide_eq_true_2 by done. simpl. by rewrite Hv.
Qed.

(** The parser accepts exactly the tokens of an HMAC algorithm whose tag
    was made under [secret] over their own header and claims and whose
    registered claims validate. *)
Lemma ParseWithClaims_Ok (secret : string) (now : Z) (tokenString : jwt.TokenString C)
    (token : jwt.Token C) :
  jwt.ParseWithClaims tokenString (jwt.hmacKeyFunc secret) false now = Ok token <->
  exists alg claims,
    alg ∈ ["HS256"; "HS384"; "HS512"]
    /\ tokenString = jwt.Compact alg claims (jwt.HMACTag alg secret alg claims)
    /\ jwt.Validate now (jwt.registered claims) = []
    /\ token = jwt.mkToken (jwt.SigningMethodHMAC alg) alg claims
                 (jwt.HMACTag alg secret alg claims) true.
Proof.
  pose proof (ParseWithClaims_cases secret now tokenString) as Hc.
  destruct tokenString as [alg claims signature|raw].
  - destruct Hc as (H1 & H2 & H3 & H4).
    destruct (decide (alg ∈ ["HS256"; "HS384"; "HS512"])) as [Hin|Hin];
      [|rewrite (H1 Hin); split; [done | intros (? & ? & ? & [= -> -> ->] & _); done]].
    destruct (decide (signature = jwt.HMACTag alg secret alg claims)) as [Hs|Hs];
      [|rewrite (H2 Hin Hs); split; [done | intros (? & ? & ? & [= -> -> ->] & _); done]].
    destruct (decide (jwt.Validate now (jwt.registered claims) = [])) as [Hv|Hv];
      [|rewrite (H3 Hin Hs Hv); split;
        [done | intros (? & ? & ? & [= -> -> ->] & ? & _); done]].
    rewrite (H4 Hin Hs Hv). subst signature. split.
    + intros [= <-]. by exists alg, claims.
    + intros (? & ? & ? & [= <- <-] & ? & ->). done.
  - rewrite Hc. split; [done | intros (? & ? & ? & ? & _); done].
Qed.

End JwtProperties.

(** ** JWT token lifecycle *)
Section TokenProperties.
Local Open Scope Z_scope.

Implicit Types (m : Manager.Manager) (jm : JWTManager.JWTManager).


(** [Manager.ValidateToken] succeeds exactly on the tokens the parser
    accepts under the manager's secret whose issuer is the configured one. *)
Lemma Manager_ValidateToken_Ok m (now : Z) (tokenString : jwt.TokenString Manager.Claims)
    (claims : Manager.Claims) :
  Manager.ValidateToken m now tokenString = Ok claims <->
  exists alg,
    alg ∈ ["HS256"; "HS384"; "HS512"]
    /\ tokenString
       = jwt.Compact alg claims
           (jwt.HMACTag alg (config.Secret (Manager.config m)) alg claims)
    /\ jwt.Validate now (Manager.Claims_Registered claims) = []
    /\ jwt.Issuer (Manager.Claims_Registered claims) = config.Issuer (Manager.config m).
Proof.
  unfold Manager.ValidateToken.
  destruct (jwt.ParseWithClaims tokenString _ false now) as [token|e] eqn:Hp.
  - apply ParseWithClaims_Ok in Hp as (alg & claims' & Hin & -> & Hv & ->). simpl.
    destruct (bool_decide_reflect
                (jwt.Issuer (Manager.Claims_Registered claims')
                 = config.Issuer (Manager.config m))) as [Hiss|Hiss]; simpl.
    + split.
      * intros [= <-]. by exists alg.
      * intros (alg' & _ & [= _ <-] & _). done.
    + split; [done|]. intros (alg' & _ & [= _ <-] & _ & Hiss'). done.
  - split; [done|]. intros (alg & Hin & -> & Hv & Hiss).
    assert (Hp' : exists token,
               jwt.ParseWithClaims
                 (jwt.Compact alg claims
                    (jwt.HMACTag alg (config.Secret (Manager.config m)) alg claims))
                 (jwt.hmacKeyFunc (config.Secret (Manager.config m))) false now
               = Ok token).
    { eexists. apply ParseWithClaims_Ok. exists alg, claims. split_and!; eauto. }
    destruct Hp' as [token Hp']. congruence.
Qed.











(** C6 fails under a manager whose issuer is not valid UTF-8: the token
    carries the issuer with U+FFFD in place of the offending byte, and the
    manager that issued it refuses it for its issuer. *)
Lemma ValidateToken_GenerateToken_invalid_issuer :
  let issuer := String (ascii_of_nat 255) "" in
  let m := Manager.New (config.mkJWTConfig "test-secret-key" 1 24 issuer) in
  exists tokenString,
    Manager.GenerateToken m 1700000000123456789 123 "testuser" "test@example.com" "user"
    = Ok tokenString
    /\ utf8.ValidString issuer = false
    /\ json.roundtrip issuer = utf8.RuneError
    /\ Manager.ValidateToken m 1700000000223456789 tokenString
       = Err (errors_New "invalid token issuer").
Proof. simpl. eexists. split; [reflexivity|]. vm_compute. split_and!; reflexivity. Qed.

(** *** [RefreshToken] and the refresh marker *)



(** Twenty digits are never exhausted on an [int64]: more fuel than
    digits changes nothing. *)
Lemma formatUint_fuel (k : nat) : forall (fuel : nat) (n : Z) (acc : string),
  (1 <= k <= fuel)%nat -> 0 <= n < 10 ^ Z.of_nat k ->
  formatUint fuel n acc = formatUint k n acc.
Proof.
  induction k as [|k IH]; intros fuel n acc Hk Hn; [lia|].
  destruct fuel as [|fuel]; [lia|]. simpl.
  destruct (Z.ltb_spec n 10) as [Hlt|Hge]; [done|].
  destruct k as [|k].
  { change (10 ^ Z.of_nat 1) with 10 in Hn. lia. }
  apply IH; [lia|].
  split; [apply Z.div_pos; lia|]. apply Z.div_lt_upper_bound; [lia|].
  replace (10 * 10 ^ Z.of_nat (S k)) with (10 ^ Z.of_nat (S (S k))); [lia|].
  rewrite (Nat2Z.inj_succ (S k)), Z.pow_succ_r; lia.
Qed.










(** C2 fails for a user id below 10000000 whose rendering has 8 bytes:
    the access token of user -1000000 does not trigger the panic, it is
    refused with an error. *)
Lemma RefreshToken_eight_byte_subject :
  let m := Manager.New (config.mkJWTConfig "test-secret-key" 1 24 "test-app") in
  exists accessToken,
    Manager.GenerateToken m 1700000000123456789 (-1000000) "testuser" "" "user"
    = Ok accessToken
    /\ Manager.RefreshToken m 1700000000223456789 1700000000223456789
         1700000000223456789 1700000000223456789 accessToken
       = Returned (Err (errors_New "not a refresh token")).
Proof. simpl. eexists. split; [reflexivity|]. vm_compute. reflexivity. Qed.

(** C1 on the input of the repository's own test
    [TestRefreshTokenWithAccessToken]: the access token of user 123 is
    accepted by [ValidateToken], and [RefreshToken] panics on it instead of
    returning "not a refresh token". *)
Lemma RefreshToken_with_access_token_panics :
  let m := Manager.New (config.mkJWTConfig "test-secret-key" 1 24 "test-app") in
  exists accessToken claims,
    Manager.GenerateToken m 1700000000123456789 123 "testuser" "test@example.com" "user"
    = Ok accessToken
    /\ Manager.ValidateToken m 1700000000223456789 accessToken = Ok claims
    /\ jwt.Subject (Manager.Claims_Registered claims) = "123"
    /\ Manager.RefreshToken m 1700000000223456789 1700000000223456789
         1700000000223456789 1700000000223456789 accessToken
       = Panicked "slice bounds out of range".
Proof.
  simpl. eexists _, _. split; [reflexivity|].
  split; [vm_compute; reflexivity|]. split; vm_compute; reflexivity.
Qed.

(** [JWTManager] gives both tokens the user id as subject and its
    [RefreshToken] looks for no marker: an access token refreshes. *)
Lemma JWTManager_RefreshToken_accepts_access_token :
  let jm := JWTManager.NewJWTManager
              (config.mkJWTConfig "test-secret-key" 1 24 "test-issuer") in
  let user := JWTManager.mkUser "123" "testuser" "test@example.com" "" ["user"] true in
  exists accessToken pair,
    JWTManager.GenerateToken jm 1700000000123456789 user = Ok accessToken
    /\ JWTManager.RefreshToken jm 1700000000223456789 1700000000223456789
         1700000005000000000 1700000005000000000 accessToken
       = Returned (Ok pair).
Proof. simpl. eexists _, _. split; [reflexivity|]. vm_compute. reflexivity. Qed.

(** Dates are cut to the second and the signature is a function of the
    claims: a refresh within the second of issue returns the very access
    token it was issued with ([TestJWTManagerTokenPair] expects another
    one). *)
Lemma JWTManager_RefreshToken_same_second :
  let jm := JWTManager.NewJWTManager
              (config.mkJWTConfig "test-secret-key" 1 24 "test-issuer") in
  let user := JWTManager.mkUser "123" "testuser" "test@example.com" "" ["user"] true in
  exists pair pair',
    JWTManager.GenerateTokenPair jm 1700000000123456789 1700000000123460000 user
    = Ok pair
    /\ JWTManager.RefreshToken jm 1700000000223456789 1700000000223456789
         1700000000223460000 1700000000223470000
         (JWTManager.TokenPair_RefreshToken pair)
       = Returned (Ok pair')
    /\ JWTManager.TokenPair_AccessToken pair' = JWTManager.TokenPair_AccessToken pair.
Proof.
  simpl. eexists _, _. split; [reflexivity|]. split; vm_compute; reflexivity.
Qed.

(** With [Manager], a refresh token carries neither email nor role: the
    new access token differs from the original one when these were set,
    and within the second of issue it is the original one when they were
    empty. *)
Lemma Manager_RefreshToken_same_second :
  let m := Manager.New (config.mkJWTConfig "test-secret-key" 1 24 "test-app") in
  exists pair pair',
    Manager.GenerateTokenPair m 1700000000123456789 1700000000123460000
      1700000000123470000 12345678 "testuser" "" "" = Ok pair
    /\ Manager.RefreshToken m 1700000000223456789 1700000000223460000
         1700000000223470000 1700000000223480000 (Manager.TokenPair_RefreshToken pair)
       = Returned (Ok pair')
    /\ Manager.TokenPair_AccessToken pair' = Manager.TokenPair_AccessToken pair.
Proof.
  simpl. eexists _, _. split; [reflexivity|]. split; vm_compute; reflexivity.
Qed.

End TokenProperties.

(** ** Rate limiter *)
Section RateLimitProperties.
Import RateLimit.
Local Open Scope Z_scope.

Lemma wrap64_id (z : Z) : min_int64 <= z <= max_int64 -> wrap64 z = z.
Proof.
  unfold min_int64, max_int64, wrap64. intros Hz.
  rewrite Z.mod_small; lia.
Qed.

Lemma Sub_in_int64 (t u : Z) : min_int64 <= time.Sub t u <= max_int64.
Proof.
  unfold time.Sub, min_int64, max_int64.
  destruct (Z.ltb_spec (2 ^ 63 - 1) (t - u)); [lia|].
  destruct (Z.ltb_spec (t - u) (- 2 ^ 63)); lia.
Qed.

(** A [Duration] holds at most 9223372036 whole seconds. *)
Lemma SecondsInt_bound (d : Z) :
  min_int64 <= d <= max_int64 -> Z.abs (time.SecondsInt d) <= 9223372036.
Proof.
  unfold time.SecondsInt, time.Second, min_int64, max_int64. intros [Hlo Hhi].
  pose proof (Z.quot_le_mono d (2 ^ 63 - 1) 1000000000 ltac:(lia) Hhi) as H1.
  pose proof (Z.quot_le_mono (- 2 ^ 63) d 1000000000 ltac:(lia) Hlo) as H2.
  change ((2 ^ 63 - 1) ÷ 1000000000) with 9223372036 in H1.
  change (- 2 ^ 63 ÷ 1000000000) with (-9223372036) in H2.
  lia.
Qed.

(** The refill keeps the token count within the bucket, whatever the
    number of whole seconds read off the clock (up to 9223372037 in
    magnitude), as long as the sum cannot leave the [int] range. *)
Lemma refill_bounded (tb : tokenBucket) (secs now : Z) :
  0 <= tokens tb <= capacity tb ->
  Z.abs secs <= 9223372037 ->
  capacity tb + 9223372037 * Z.abs (rate tb) <= max_int64 ->
  0 <= tokens (refill tb secs now) <= capacity tb
  /\ capacity (refill tb secs now) = capacity tb
  /\ rate (refill tb secs now) = rate tb.
Proof.
  intros Htok Hsecs Hcap. unfold refill.
  assert (Habs : Z.abs (secs * rate tb) <= 9223372037 * Z.abs (rate tb)).
  { rewrite Z.abs_mul. apply Z.mul_le_mono_nonneg_r; lia. }
  assert (Hmax : max_int64 = 9223372036854775807) by reflexivity.
  assert (Hmin : min_int64 = -9223372036854775808) by reflexivity.
  rewrite (wrap64_id (secs * rate tb)) by lia.
  destruct (Z.ltb_spec 0 (secs * rate tb)) as [Hpos|Hnpos]; simpl; [|lia].
  rewrite (wrap64_id (tokens tb + secs * rate tb)) by lia.
  destruct (Z.ltb_spec (capacity tb) (tokens tb + secs * rate tb)); lia.
Qed.

Lemma takeToken_bounded (tb : tokenBucket) :
  0 <= tokens tb <= capacity tb ->
  capacity tb <= max_int64 ->
  0 <= tokens (takeToken tb).2 <= capacity tb
  /\ capacity (takeToken tb).2 = capacity tb
  /\ rate (takeToken tb).2 = rate tb.
Proof.
  intros Htok Hcap. unfold takeToken.
  assert (Hmax : max_int64 = 9223372036854775807) by reflexivity.
  assert (Hmin : min_int64 = -9223372036854775808) by reflexivity.
  destruct (Z.ltb_spec 0 (tokens tb)); simpl; [|lia].
  rewrite wrap64_id by lia. lia.
Qed.

Lemma consume_bounded (tb : tokenBucket) (now : Z) :
  0 <= tokens tb <= capacity tb ->
  capacity tb + 9223372037 * Z.abs (rate tb) <= max_int64 ->
  0 <= tokens (consume tb now).2 <= capacity tb
  /\ capacity (consume tb now).2 = capacity tb
  /\ rate (consume tb now).2 = rate tb.
Proof.
  intros Htok Hcap. unfold consume.
  pose proof (SecondsInt_bound _ (Sub_in_int64 now (lastRefill tb))) as Hsecs.
  destruct (refill_bounded tb (time.SecondsInt (time.Sub now (lastRefill tb))) now)
    as (H1 & H2 & H3); [done | lia | done |].
  destruct (takeToken_bounded
              (refill tb (time.SecondsInt (time.Sub now (lastRefill tb))) now))
    as (T1 & T2 & T3); [lia | rewrite H2; lia |].
  rewrite T2, T3, H2, H3. rewrite H2 in T1. done.
Qed.

Lemma consumeAll_bounded (times : list Z) : forall tb : tokenBucket,
  0 <= tokens tb <= capacity tb ->
  capacity tb + 9223372037 * Z.abs (rate tb) <= max_int64 ->
  0 <= tokens (consumeAll tb times).2 <= capacity tb
  /\ capacity (consumeAll tb times).2 = capacity tb.
Proof.
  induction times as [|now times IH]; intros tb Htok Hcap; simpl; [done|].
  destruct (consume_bounded tb now Htok Hcap) as (H1 & H2 & H3).
  destruct (consume tb now) as [ok tb1]. simpl in *.
  specialize (IH tb1). rewrite H2, H3 in IH. specialize (IH H1 Hcap).
  destruct (consumeAll tb1 times) as [oks tb2]. simpl in *. done.
Qed.

(** C9, as the code has it.  For a bucket created by [newTokenBucket] with
    a capacity that is not negative and a rate for which refilling cannot
    leave the [int] range, the token count stays between 0 and the capacity
    whatever the sequence of [consume] calls and their times. *)
Theorem tokenBucket_tokens_bounded (capacity_ rate_ created : Z) (times : list Z) :
  0 <= capacity_ ->
  capacity_ + 9223372037 * Z.abs rate_ <= max_int64 ->
  0 <= tokens (consumeAll (newTokenBucket capacity_ rate_ created) times).2 <= capacity_
  /\ capacity (consumeAll (newTokenBucket capacity_ rate_ created) times).2 = capacity_.
Proof.
  intros Hcap Hrate.
  apply (consumeAll_bounded times (newTokenBucket capacity_ rate_ created)); simpl; lia.
Qed.

Lemma tokenBucket_tokens_bounded_witness :
  0 <= tokens (consumeAll (newTokenBucket 5 1 0)
                 [0; 0; 0; 0; 0; 0; 1000000000; 7000000000]).2 <= 5
  /\ capacity (consumeAll (newTokenBucket 5 1 0)
                 [0; 0; 0; 0; 0; 0; 1000000000; 7000000000]).2 = 5.
Proof.
  apply (tokenBucket_tokens_bounded 5 1 0 [0; 0; 0; 0; 0; 0; 1000000000; 7000000000]).
  - lia.
  - vm_compute. discriminate.
Defined.

(** C9 fails for a negative capacity, where the count starts negative, and
    for a capacity and rate whose sum overflows, where a refill wraps the
    count around. *)
Lemma tokenBucket_tokens_out_of_bounds :
  tokens (consumeAll (newTokenBucket (-1) 1 0) []).2 = -1
  /\ ~ (0 <= tokens (consumeAll (newTokenBucket (-1) 1 0) []).2)
  /\ tokens (consumeAll (newTokenBucket (2 ^ 62) (2 ^ 62) 0) [1000000000]).2 = - 2 ^ 63
  /\ ~ (0 <= tokens (consumeAll (newTokenBucket (2 ^ 62) (2 ^ 62) 0) [1000000000]).2).
Proof. vm_compute. split_and!; try reflexivity; intros H; apply H; reflexivity. Qed.

(** The bucket of the specification: capacity 5, one token per second. *)
Lemma tokenBucket_five_then_wait :
  (consumeAll (newTokenBucket 5 1 1700000000000000000)
     [1700000000000000001; 1700000000000000002; 1700000000000000003;
      1700000000000000004; 1700000000000000005; 1700000000000000006;
      1700000001000000000]).1
  = [true; true; true; true; true; false; true].
Proof. vm_compute. reflexivity. Qed.

(** *** Sliding window *)

Lemma cutoff_sub (sw : slidingWindow) (now : Z) :
  min_int64 < window sw <= max_int64 -> cutoff sw now = now - window sw.
Proof.
  intros Hw. unfold cutoff, time.Add, time.Neg. rewrite wrap64_id; [lia|].
  unfold min_int64, max_int64 in *. lia.
Qed.




(** C10 fails at the boundary: [allow] keeps only the instants after
    [now - window], so an instant exactly one window old, which is not
    older than the window, is pruned too; with a limit of 1, two requests
    exactly one window apart are both admitted. *)
Lemma slidingWindow_prunes_at_window :
  let first := 1700000000000000000 in
  let second := 1700000001000000000 in
  let sw := (allow (newSlidingWindow 1 time.Second) first).2 in
  requests sw = [first]
  /\ second - first = time.Second
  /\ ~ (time.Second < second - first)
  /\ allow sw second
     = (true, {| requests := [second]; limit := 1; window := time.Second |})
  /\ (allowAll (newSlidingWindow 1 time.Second) [first; second]).1 = [true; true].
Proof. vm_compute. split_and!; try reflexivity. discriminate. Qed.

End RateLimitProperties.

(** * Further properties *)

(** ** package strings *)
Section StringsProperties.

Lemma append_nil_l (b : string) : "" ++ b = b.
Proof. reflexivity. Qed.

Lemma append_cons (c : ascii) (a b : string) : String c a ++ b = String c (a ++ b).
Proof. reflexivity. Qed.

Lemma length_append (a b : string) :
  String.length (a ++ b) = (String.length a + String.length b)%nat.
Proof.
  induction a as [|c a IH]; [done|]. rewrite append_cons. simpl. by rewrite IH.
Qed.

Lemma append_empty_r (a : string) : a ++ "" = a.
Proof. induction a as [|c a IH]; [done|]. by rewrite append_cons, IH. Qed.

Lemma append_assoc (a b c : string) : (a ++ b) ++ c = a ++ (b ++ c).
Proof. induction a as [|x a IH]; [done|]. by rewrite !append_cons, IH. Qed.

Lemma substring_all (s : string) : String.substring 0 (String.length s) s = s.
Proof. induction s as [|c s IH]; simpl; [done | by rewrite IH]. Qed.

Lemma substring_0_append (a b : string) :
  String.substring 0 (String.length a) (a ++ b) = a.
Proof.
  induction a as [|c a IH]; [by destruct b|]. rewrite append_cons. simpl. by rewrite IH.
Qed.

Lemma substring_skip_append (a b : string) (m : nat) :
  String.substring (String.length a) m (a ++ b) = String.substring 0 m b.
Proof. induction a as [|c a IH]; [done|]. rewrite append_cons. simpl. done. Qed.

(** [s = s[:n] + s[n:]]. *)
Lemma substring_split (s : string) : forall n : nat,
  String.substring 0 n s ++ String.substring n (String.length s - n) s = s.
Proof.
  induction s as [|c s IH]; intros [|n]; simpl; try done.
  - rewrite append_nil_l. by rewrite substring_all.
  - by rewrite append_cons, IH.
Qed.

Lemma HasPrefix_iff (s prefix : string) :
  Strings.HasPrefix s prefix = true <-> exists rest, s = prefix ++ rest.
Proof.
  unfold Strings.HasPrefix. rewrite andb_true_iff, Nat.leb_le, bool_decide_eq_true.
  split.
  - intros [Hlen Hsub].
    exists (String.substring (String.length prefix)
              (String.length s - String.length prefix) s).
    rewrite <- Hsub at 1. symmetry. apply substring_split.
  - intros [rest ->]. rewrite length_append, substring_0_append. split; [lia | done].
Qed.

Lemma HasSuffix_append (a suffix : string) : Strings.HasSuffix (a ++ suffix) suffix = true.
Proof.
  unfold Strings.HasSuffix. rewrite andb_true_iff, Nat.leb_le, bool_decide_eq_true.
  rewrite length_append. split; [lia|].
  replace (String.length a + String.length suffix - String.length suffix)%nat
    with (String.length a) by lia.
  by rewrite substring_skip_append, substring_all.
Qed.

Lemma TrimSuffix_append (a suffix : string) : Strings.TrimSuffix (a ++ suffix) suffix = a.
Proof.
  unfold Strings.TrimSuffix. rewrite HasSuffix_append, length_append.
  replace (String.length a + String.length suffix - String.length suffix)%nat
    with (String.length a) by lia.
  apply substring_0_append.
Qed.

(** A string that has the suffix is what [TrimSuffix] leaves of it,
    followed by the suffix. *)
Lemma HasSuffix_TrimSuffix (s suffix : string) :
  Strings.HasSuffix s suffix = true -> s = Strings.TrimSuffix s suffix ++ suffix.
Proof.
  intros Hs. unfold Strings.TrimSuffix. rewrite Hs. unfold Strings.HasSuffix in Hs.
  apply andb_true_iff in Hs as [Hlen Hsub].
  apply Nat.leb_le in Hlen. apply bool_decide_eq_true in Hsub.
  rewrite <- (substring_split s (String.length s - String.length suffix)) at 1.
  f_equal.
  replace (String.length s - (String.length s - String.length suffix))%nat
    with (String.length suffix) by lia.
  exact Hsub.
Qed.

Lemma HasSuffix_iff (s suffix : string) :
  Strings.HasSuffix s suffix = true <-> exists a, s = a ++ suffix.
Proof.
  split.
  - intros Hs. eexists. by apply HasSuffix_TrimSuffix.
  - intros [a ->]. apply HasSuffix_append.
Qed.

End StringsProperties.

(** ** Pattern matching of resources and paths *)
Section MatchProperties.

(** X1. [ResourceMatcher.Match] accepts a resource exactly when the pattern
    is the resource itself, or ends with ["*"] and the resource starts with
    what precedes that final ["*"]; an asterisk elsewhere in the pattern is
    an ordinary byte. *)
Theorem Match_iff (pattern resource : string) :
  Rbac.Match pattern resource = true <->
  pattern = resource
  \/ exists prefix rest, pattern = prefix ++ "*" /\ resource = prefix ++ rest.
Proof.
  unfold Rbac.Match.
  destruct (bool_decide_reflect (pattern = "*")) as [->|Hstar].
  { split; [|done]. intros _. right. by exists "", resource. }
  destruct (bool_decide_reflect (pattern = resource)) as [->|Hne].
  { split; [auto | done]. }
  destruct (Strings.HasSuffix pattern "*") eqn:Hs.
  - rewrite HasPrefix_iff. split.
    + intros [rest Hr]. right. exists (Strings.TrimSuffix pattern "*"), rest.
      split; [by apply HasSuffix_TrimSuffix | done].
    + intros [Heq|(prefix & rest & -> & ->)]; [done|].
      rewrite TrimSuffix_append. by exists rest.
  - split; [done|]. intros [Heq|(prefix & rest & -> & _)]; [done|].
    by rewrite HasSuffix_append in Hs.
Qed.

(** X2. The path matcher of the JWT middleware decides like
    [ResourceMatcher.Match] with its arguments swapped, and a path is
    skipped exactly when a listed pattern matches it: with an empty list
    nothing is skipped, with ["*"] in the list everything is. *)
Theorem shouldSkipPath_iff (path : string) (skipPaths : list string) :
  (forall pattern, Middleware.matchPath path pattern = Rbac.Match pattern path)
  /\ (Middleware.shouldSkipPath path skipPaths = true <->
      exists pattern, pattern ∈ skipPaths /\ Rbac.Match pattern path = true)
  /\ Middleware.shouldSkipPath path [] = false
  /\ ("*" ∈ skipPaths -> Middleware.shouldSkipPath path skipPaths = true).
Proof.
  assert (Hm : forall pattern, Middleware.matchPath path pattern = Rbac.Match pattern path).
  { intros pattern. unfold Middleware.matchPath, Rbac.Match.
    destruct (bool_decide_reflect (pattern = "*")) as [->|Hstar]; [|done].
    destruct (bool_decide_reflect ("*" = path)); [done|].
    change (Strings.HasSuffix "*" "*") with true.
    change (Strings.TrimSuffix "*" "*") with "".
    apply HasPrefix_iff. by exists path. }
  assert (Hiff : Middleware.shouldSkipPath path skipPaths = true <->
      exists pattern, pattern ∈ skipPaths /\ Rbac.Match pattern path = true).
  { unfold Middleware.shouldSkipPath. rewrite existsb_elem_of.
    split; intros (pattern & Hin & H); exists pattern; (split; [done|]).
    - by rewrite <- Hm.
    - by rewrite Hm. }
  split_and!; [done | done | done |].
  intros Hin. apply Hiff. exists "*". split; done.
Qed.

End MatchProperties.

(** ** More of the RBAC engine *)
Section RbacMore.
Import Rbac.

Implicit Types (rbac : RBAC) (role : Role) (permission : Permission).
Implicit Types (perms : list Permission) (userID roleID permissionID : string).

Lemma GetUserPermissions_ids rbac userID (id : string) :
  id ∈ Permission_ID <$> GetUserPermissions rbac userID <->
  exists roleID role permission,
    roleID ∈ GetUserRoles rbac userID /\ roles rbac !! roleID = Some role
    /\ permission ∈ Role_Permissions role /\ Permission_ID permission = id.
Proof.
  unfold GetUserPermissions. fold (GetUserRoles rbac userID).
  destruct (deduplicatePermissions_spec
              (collectPermissions rbac (GetUserRoles rbac userID)))
    as (_ & Hids & _).
  rewrite Hids, list_elem_of_fmap. split.
  - intros (p & -> & Hp).
    apply collectPermissions_elem_of in Hp as (roleID & role & H1 & H2 & H3).
    by exists roleID, role, p.
  - intros (roleID & role & p & H1 & H2 & H3 & <-). exists p. split; [done|].
    apply collectPermissions_elem_of. eauto.
Qed.

(** X3. [AddPermission] succeeds exactly when the id and the name are not
    empty; the permission is then what [GetPermission] returns for its id,
    the other ids are untouched, and so are the copies the roles hold: no
    user gains or loses a permission by a (re-)registration. *)
Theorem AddPermission_GetPermission rbac permission :
  ((exists rbac', AddPermission rbac permission = Ok rbac') <->
   Permission_ID permission <> "" /\ Permission_Name permission <> "")
  /\ (forall rbac',
        AddPermission rbac permission = Ok rbac' ->
        GetPermission rbac' (Permission_ID permission) = Ok permission
        /\ (forall id, id <> Permission_ID permission ->
                       GetPermission rbac' id = GetPermission rbac id)
        /\ (forall userID,
              GetUserPermissions rbac' userID = GetUserPermissions rbac userID
              /\ GetUserRoles rbac' userID = GetUserRoles rbac userID)).
Proof.
  unfold AddPermission.
  destruct (decide (Permission_ID permission = "")) as [Hid|Hid].
  { split; [|done]. split; [by intros [? ?] | by intros [? _]]. }
  destruct (decide (Permission_Name permission = "")) as [Hname|Hname].
  { split; [|done]. split; [by intros [? ?] | by intros [_ ?]]. }
  split; [split; eauto|].
  intros rbac' [= <-]. unfold GetPermission. simpl. split_and!.
  - by rewrite lookup_insert_eq.
  - intros id Hne. by rewrite lookup_insert_ne.
  - done.
Qed.

(** X4. [AddRole] succeeds exactly when the id and the name are not empty
    and files the role under its id, replacing a role of that id; a user
    assigned that id alone then holds the permissions of the new role, each
    id once. *)
Theorem AddRole_GetRole rbac role :
  ((exists rbac', AddRole rbac role = Ok rbac') <->
   Role_ID role <> "" /\ Role_Name role <> "")
  /\ (forall rbac',
        AddRole rbac role = Ok rbac' ->
        GetRole rbac' (Role_ID role) = Ok role
        /\ (forall id, id <> Role_ID role -> GetRole rbac' id = GetRole rbac id)
        /\ (forall userID,
              GetUserRoles rbac' userID = GetUserRoles rbac userID
              /\ (GetUserRoles rbac userID = [Role_ID role] ->
                  GetUserPermissions rbac' userID
                  = deduplicatePermissions (Role_Permissions role)))).
Proof.
  unfold AddRole.
  destruct (decide (Role_ID role = "")) as [Hid|Hid].
  { split; [|done]. split; [by intros [? ?] | by intros [? _]]. }
  destruct (decide (Role_Name role = "")) as [Hname|Hname].
  { split; [|done]. split; [by intros [? ?] | by intros [_ ?]]. }
  split; [split; eauto|].
  intros rbac' [= <-]. unfold GetRole. simpl. split_and!.
  - by rewrite lookup_insert_eq.
  - intros id Hne. by rewrite lookup_insert_ne.
  - intros userID. split; [done|]. unfold GetUserPermissions, GetUserRoles. simpl.
    intros ->. unfold collectPermissions. simpl. by rewrite lookup_insert_eq.
Qed.

(** *** Attaching and detaching permissions *)

Lemma existsb_permission_id perms permissionID :
  existsb (fun p => bool_decide (Permission_ID p = permissionID)) perms = true <->
  permissionID ∈ Permission_ID <$> perms.
Proof.
  rewrite existsb_elem_of, list_elem_of_fmap. split.
  - intros (p & Hp & Heq). apply bool_decide_eq_true in Heq. eauto.
  - intros (p & Heq & Hp). exists p. split; [done | by apply bool_decide_eq_true].
Qed.

(** X5. When the role and the permission are registered (the permission
    under its own id) [AddPermissionToRole] succeeds, every user assigned
    the role then has the permission, and a second call changes nothing;
    an unknown role or permission is an error. *)
Theorem AddPermissionToRole_grants rbac roleID permissionID role permission :
  roles rbac !! roleID = Some role ->
  permissions rbac !! permissionID = Some permission ->
  Permission_ID permission = permissionID ->
  exists rbac',
    AddPermissionToRole rbac roleID permissionID = Ok rbac'
    /\ (forall userID, roleID ∈ GetUserRoles rbac userID ->
                       HasPermission rbac' userID permissionID = true)
    /\ AddPermissionToRole rbac' roleID permissionID = Ok rbac'
    /\ (forall other, roles rbac !! other = None ->
                      AddPermissionToRole rbac other permissionID
                      = Err (errors_New "role not found"))
    /\ (forall other, permissions rbac !! other = None ->
                      AddPermissionToRole rbac roleID other
                      = Err (errors_New "permission not found")).
Proof.
  intros Hrole Hperm Hid. unfold AddPermissionToRole at 1. rewrite Hrole, Hperm.
  assert (Herr1 : forall other, roles rbac !! other = None ->
            AddPermissionToRole rbac other permissionID = Err (errors_New "role not found")).
  { intros other Ho. unfold AddPermissionToRole. by rewrite Ho. }
  assert (Herr2 : forall other, permissions rbac !! other = None ->
            AddPermissionToRole rbac roleID other
            = Err (errors_New "permission not found")).
  { intros other Ho. unfold AddPermissionToRole. by rewrite Hrole, Ho. }
  destruct (existsb _ (Role_Permissions role)) eqn:Hex.
  - exists rbac. split_and!; auto.
    + intros userID Hu. apply HasPermission_elem_of, GetUserPermissions_ids.
      apply existsb_permission_id, list_elem_of_fmap in Hex as (p & Hp & Hin).
      by exists roleID, role, p.
    + unfold AddPermissionToRole. by rewrite Hrole, Hperm, Hex.
  - eexists. split; [reflexivity|]. split_and!; auto.
    + intros userID Hu. apply HasPermission_elem_of, GetUserPermissions_ids.
      eexists roleID, _, permission. unfold GetUserRoles. simpl.
      split_and!; [done | apply lookup_insert_eq | | done].
      simpl. apply elem_of_app. right. apply list_elem_of_here.
    + unfold AddPermissionToRole. simpl. rewrite lookup_insert_eq, Hperm. simpl.
      assert (Hex' : existsb (fun p => bool_decide (Permission_ID p = permissionID))
                       (Role_Permissions role ++ [permission])%list = true).
      { apply existsb_permission_id. rewrite fmap_app. apply elem_of_app. right.
        rewrite <- Hid. apply list_elem_of_here. }
      by rewrite Hex'.
Qed.

Lemma AddPermissionToRole_grants_witness :
  let p := mkPermission "doc.read" "Read" "" "doc" "read" in
  let rbac := mkRBAC {["reader" := mkRole "reader" "Reader" "" []]}
                {["doc.read" := p]} {["u1" := ["reader"]]} in
  exists rbac',
    AddPermissionToRole rbac "reader" "doc.read" = Ok rbac'
    /\ HasPermission rbac' "u1" "doc.read" = true
    /\ AddPermissionToRole rbac' "reader" "doc.read" = Ok rbac'.
Proof.
  intros p rbac.
  destruct (AddPermissionToRole_grants rbac "reader" "doc.read"
              (mkRole "reader" "Reader" "" []) p)
    as (rbac' & H1 & H2 & H3 & _); try reflexivity.
  exists rbac'. split; [done|]. split; [|done].
  apply H2. unfold GetUserRoles. simpl. rewrite lookup_singleton_eq.
  apply list_elem_of_here.
Defined.





(** *** Assigning and removing roles *)

Lemma existsb_role (roles_ : list string) roleID :
  existsb (fun r => bool_decide (r = roleID)) roles_ = true <-> roleID ∈ roles_.
Proof.
  rewrite existsb_elem_of. split.
  - intros (r & Hr & Heq). apply bool_decide_eq_true in Heq. by subst.
  - intros H. exists roleID. split; [done | by apply bool_decide_eq_true].
Qed.

Lemma indexOfRole_None (roles_ : list string) roleID :
  indexOfRole roles_ roleID = None <-> roleID ∉ roles_.
Proof.
  induction roles_ as [|r rs IH]; simpl.
  - split; [intros _; apply not_elem_of_nil | done].
  - destruct (decide (r = roleID)) as [->|Hne].
    + split; [done|]. intros H. exfalso. apply H, list_elem_of_here.
    + rewrite fmap_None, IH, not_elem_of_cons. split; [auto | tauto].
Qed.

Lemma indexOfRole_Some (roles_ : list string) roleID : forall i,
  indexOfRole roles_ roleID = Some i ->
  roles_ !! i = Some roleID /\ (roleID ∉ take i roles_).
Proof.
  induction roles_ as [|r rs IH]; simpl; intros i Hi; [done|].
  destruct (decide (r = roleID)) as [->|Hne].
  - injection Hi as <-. simpl. split; [done | apply not_elem_of_nil].
  - apply fmap_Some in Hi as (j & Hj & ->). apply IH in Hj as [H1 H2].
    simpl. split; [done|]. rewrite not_elem_of_cons. auto.
Qed.

(** [removeRoleFromSlice] cuts out the first occurrence of the role and
    nothing else. *)
Lemma removeRoleFromSlice_spec (roles_ : list string) roleID :
  ((roleID ∉ roles_) /\ removeRoleFromSlice roles_ roleID = roles_)
  \/ exists before after,
       roles_ = (before ++ roleID :: after)%list
       /\ (roleID ∉ before)
       /\ removeRoleFromSlice roles_ roleID = (before ++ after)%list.
Proof.
  unfold removeRoleFromSlice.
  destruct (indexOfRole roles_ roleID) as [i|] eqn:Hi.
  - right. apply indexOfRole_Some in Hi as [H1 H2].
    exists (take i roles_), (drop (S i) roles_). split_and!; auto.
    symmetry. by apply take_drop_middle.
  - left. split; [by apply indexOfRole_None | done].
Qed.

Lemma removeRoleFromSlice_spec_absent (roles_ : list string) roleID :
  removeRoleFromSlice roles_ roleID = roles_ <-> (roleID ∉ roles_).
Proof.
  destruct (removeRoleFromSlice_spec roles_ roleID)
    as [[Hno ->]|(l1 & l2 & -> & Hl1 & ->)]; [done|].
  split.
  - intros Heq. apply (f_equal length) in Heq. rewrite !length_app in Heq.
    simpl in Heq. lia.
  - intros Hno. exfalso. apply Hno, elem_of_app. right. apply list_elem_of_here.
Qed.

Lemma removeRoleFromSlice_elem_of (roles_ : list string) roleID (r : string) :
  r ∈ removeRoleFromSlice roles_ roleID -> r ∈ roles_.
Proof.
  destruct (removeRoleFromSlice_spec roles_ roleID)
    as [[_ ->]|(l1 & l2 & -> & _ & ->)]; [done|].
  rewrite !elem_of_app, elem_of_cons. tauto.
Qed.

Lemma removeRoleFromSlice_other (roles_ : list string) roleID (r : string) :
  r <> roleID -> r ∈ removeRoleFromSlice roles_ roleID <-> r ∈ roles_.
Proof.
  intros Hne. destruct (removeRoleFromSlice_spec roles_ roleID)
    as [[_ ->]|(l1 & l2 & -> & _ & ->)]; [done|].
  rewrite !elem_of_app, elem_of_cons. tauto.
Qed.

Lemma removeRoleFromSlice_NoDup (roles_ : list string) roleID :
  NoDup roles_ ->
  NoDup (removeRoleFromSlice roles_ roleID)
  /\ (roleID ∉ removeRoleFromSlice roles_ roleID).
Proof.
  intros Hnd. destruct (removeRoleFromSlice_spec roles_ roleID)
    as [[Hnin ->]|(l1 & l2 & -> & Hl1 & ->)]; [done|].
  apply NoDup_app in Hnd as (Hn1 & Hdis & Hn2). apply NoDup_cons in Hn2 as [Hx Hn2].
  split.
  - apply NoDup_app. split_and!; auto. intros x Hx1 Hx2.
    apply (Hdis x Hx1). by apply list_elem_of_further.
  - rewrite not_elem_of_app. auto.
Qed.

(** X8. [AssignRoleToUser] refuses an unregistered role; otherwise the user
    has the role afterwards and keeps the roles held before, the other
    users are untouched, a list without repetition stays so, and assigning
    again changes nothing. *)
Theorem AssignRoleToUser_spec rbac userID roleID :
  (roles rbac !! roleID = None ->
   AssignRoleToUser rbac userID roleID = Err (errors_New "role not found"))
  /\ (is_Some (roles rbac !! roleID) ->
      exists rbac',
        AssignRoleToUser rbac userID roleID = Ok rbac'
        /\ HasRole rbac' userID roleID = true
        /\ (forall r, r ∈ GetUserRoles rbac' userID <->
                      r ∈ GetUserRoles rbac userID \/ r = roleID)
        /\ (forall other, other <> userID ->
                          GetUserRoles rbac' other = GetUserRoles rbac other)
        /\ (NoDup (GetUserRoles rbac userID) -> NoDup (GetUserRoles rbac' userID))
        /\ roles rbac' = roles rbac
        /\ AssignRoleToUser rbac' userID roleID = Ok rbac').
Proof.
  unfold AssignRoleToUser at 1 2. split; [by intros ->|].
  intros [role Hrole]. rewrite Hrole.
  fold (GetUserRoles rbac userID).
  destruct (existsb _ (GetUserRoles rbac userID)) eqn:Hex.
  - apply existsb_role in Hex. exists rbac. split_and!; auto.
    + by apply HasRole_elem_of.
    + intros r. split; [auto|]. intros [H| ->]; done.
    + unfold AssignRoleToUser. rewrite Hrole. fold (GetUserRoles rbac userID).
      by rewrite (proj2 (existsb_role _ _) Hex).
  - apply not_true_iff_false in Hex. rewrite existsb_role in Hex.
    eexists. split; [reflexivity|].
    assert (Hnew : forall rbac', userRoles rbac'
                     = <[userID := (GetUserRoles rbac userID ++ [roleID])%list]>
                         (userRoles rbac) ->
              GetUserRoles rbac' userID = (GetUserRoles rbac userID ++ [roleID])%list).
    { intros rbac' Hu. unfold GetUserRoles at 1. by rewrite Hu, lookup_insert_eq. }
    split_and!.
    + apply HasRole_elem_of. rewrite Hnew by done. apply elem_of_app. right.
      apply list_elem_of_here.
    + intros r. rewrite Hnew by done. rewrite elem_of_app, list_elem_of_singleton. done.
    + intros other Hne. unfold GetUserRoles. simpl. by rewrite lookup_insert_ne.
    + intros Hnd. rewrite Hnew by done. apply NoDup_app. split_and!; auto.
      * intros x Hx Hx'. apply list_elem_of_singleton in Hx'. by subst.
      * apply NoDup_singleton.
    + done.
    + unfold AssignRoleToUser. simpl. rewrite Hrole, lookup_insert_eq. simpl.
      assert (Hex' : existsb (fun r => bool_decide (r = roleID))
                       (GetUserRoles rbac userID ++ [roleID])%list = true).
      { apply existsb_role, elem_of_app. right. apply list_elem_of_here. }
      by rewrite Hex'.
Qed.

(** X9. [RemoveRole] fails on an unregistered role; otherwise the role is
    gone from the registry, the first occurrence of its id is cut out of
    every user's list, the other roles of every user stay, and a user whose
    list held no id twice no longer has the role. *)
Theorem RemoveRole_cascade rbac roleID :
  (roles rbac !! roleID = None ->
   RemoveRole rbac roleID = Err (errors_New "role not found"))
  /\ (is_Some (roles rbac !! roleID) ->
      exists rbac',
        RemoveRole rbac roleID = Ok rbac'
        /\ GetRole rbac' roleID = Err (errors_New "role not found")
        /\ (forall other, other <> roleID -> GetRole rbac' other = GetRole rbac other)
        /\ permissions rbac' = permissions rbac
        /\ (forall userID,
              GetUserRoles rbac' userID
              = removeRoleFromSlice (GetUserRoles rbac userID) roleID
              /\ (forall r, r <> roleID ->
                            HasRole rbac' userID r = HasRole rbac userID r)
              /\ (NoDup (GetUserRoles rbac userID) ->
                  HasRole rbac' userID roleID = false))).
Proof.
  unfold RemoveRole. split; [by intros ->|].
  intros [role Hrole]. rewrite Hrole. eexists. split; [reflexivity|].
  assert (Hlist : forall userID,
            GetUserRoles
              {| roles := delete roleID (roles rbac);
                 permissions := permissions rbac;
                 userRoles := (fun roles_ => removeRoleFromSlice roles_ roleID)
                                <$> userRoles rbac |} userID
            = removeRoleFromSlice (GetUserRoles rbac userID) roleID).
  { intros userID. unfold GetUserRoles. simpl. rewrite lookup_fmap.
    by destruct (userRoles rbac !! userID). }
  split_and!.
  - unfold GetRole. simpl. by rewrite lookup_delete_eq.
  - intros other Hne. unfold GetRole. simpl. by rewrite lookup_delete_ne.
  - done.
  - intros userID. split_and!; [apply Hlist | |].
    + intros r Hne. apply eq_true_iff_eq. rewrite !HasRole_elem_of, Hlist.
      by apply removeRoleFromSlice_other.
    + intros Hnd. apply not_true_iff_false. rewrite HasRole_elem_of, Hlist.
      by apply removeRoleFromSlice_NoDup.
Qed.

(** *** What every operation keeps *)

(** Every user's list is free of repetitions and names registered roles
    only. *)
Lemma step_keeps_assignments rbac rbac' :
  step rbac rbac' ->
  (forall userID roles_, userRoles rbac !! userID = Some roles_ ->
     NoDup roles_ /\ forall r, r ∈ roles_ -> is_Some (roles rbac !! r)) ->
  forall userID roles_, userRoles rbac' !! userID = Some roles_ ->
    NoDup roles_ /\ forall r, r ∈ roles_ -> is_Some (roles rbac' !! r).
Proof.
  intros Hstep Hinv. destruct Hstep as
    [rbac p rbac' H | rbac id rbac' H | rbac role rbac' H | rbac rid rbac' H
    | rbac rid pid rbac' H | rbac rid pid rbac' H | rbac u rid rbac' H
    | rbac u rid rbac' H].
  - unfold AddPermission in H. repeat case_decide; try done. injection H as <-.
    exact Hinv.
  - unfold RemovePermission in H. destruct (permissions rbac !! id) as [p0|]; [|done].
    injection H as <-. simpl. intros userID l Hl. destruct (Hinv _ _ Hl) as [Hnd Hreg].
    split; [done|]. intros r Hr. rewrite lookup_fmap. by apply fmap_is_Some, Hreg.
  - unfold AddRole in H. repeat case_decide; try done. injection H as <-. simpl.
    intros userID l Hl. destruct (Hinv _ _ Hl) as [Hnd Hreg]. split; [done|].
    intros r Hr. rewrite lookup_insert. case_decide; [by eexists | by apply Hreg].
  - unfold RemoveRole in H. destruct (roles rbac !! rid) as [role0|]; [|done].
    injection H as <-. simpl. intros userID l Hl. rewrite lookup_fmap in Hl.
    destruct (userRoles rbac !! userID) as [l0|] eqn:Hl0; [|done].
    injection Hl as <-. destruct (Hinv _ _ Hl0) as [Hnd Hreg].
    destruct (removeRoleFromSlice_NoDup l0 rid Hnd) as [Hnd' Hnin].
    split; [done|]. intros r Hr. rewrite lookup_delete_ne.
    + by apply Hreg, (removeRoleFromSlice_elem_of l0 rid).
    + intros <-. done.
  - unfold AddPermissionToRole in H.
    destruct (roles rbac !! rid) as [role|] eqn:Hrole; [|done].
    destruct (permissions rbac !! pid) as [p0|]; [|done].
    destruct (existsb _ _); injection H as <-; [exact Hinv|]. simpl.
    intros userID l Hl. destruct (Hinv _ _ Hl) as [Hnd Hreg]. split; [done|].
    intros r Hr. rewrite lookup_insert. case_decide; [by eexists | by apply Hreg].
  - unfold RemovePermissionFromRole in H.
    destruct (roles rbac !! rid) as [role|] eqn:Hrole; [|done].
    injection H as <-. simpl.
    intros userID l Hl. destruct (Hinv _ _ Hl) as [Hnd Hreg]. split; [done|].
    intros r Hr. rewrite lookup_insert. case_decide; [by eexists | by apply Hreg].
  - unfold AssignRoleToUser in H.
    destruct (roles rbac !! rid) as [role|] eqn:Hrole; [|done].
    destruct (existsb _ _) eqn:Hex; injection H as <-; [exact Hinv|]. simpl.
    apply not_true_iff_false in Hex. rewrite existsb_role in Hex.
    intros userID l Hl. rewrite lookup_insert in Hl. case_decide as Hu.
    + injection Hl as <-. subst userID.
      assert (Hold : NoDup (default [] (userRoles rbac !! u))
                     /\ forall r, r ∈ default [] (userRoles rbac !! u) ->
                                  is_Some (roles rbac !! r)).
      { destruct (userRoles rbac !! u) as [l0|] eqn:Hl0; simpl.
        - by apply (Hinv u).
        - split; [apply NoDup_nil_2 | by intros r Hr%elem_of_nil]. }
      destruct Hold as [Hnd Hreg]. split.
      * apply NoDup_app. split_and!; auto.
        -- intros x Hx Hx'. apply list_elem_of_singleton in Hx'. by subst.
        -- apply NoDup_singleton.
      * intros r Hr. apply elem_of_app in Hr as [Hr|Hr]; [by apply Hreg|].
        apply list_elem_of_singleton in Hr. subst. by eexists.
    + by apply (Hinv userID).
  - unfold RemoveRoleFromUser in H.
    destruct (userRoles rbac !! u) as [l0|] eqn:Hl0; [|done].
    injection H as <-. simpl.
    intros userID l Hl. rewrite lookup_insert in Hl. case_decide as Hu.
    + injection Hl as <-. destruct (Hinv _ _ Hl0) as [Hnd Hreg].
      destruct (removeRoleFromSlice_NoDup l0 rid Hnd) as [Hnd' _].
      split; [done|]. intros r Hr. by apply Hreg, (removeRoleFromSlice_elem_of l0 rid).
    + by apply (Hinv userID).
Qed.

(** X10. In every engine built from [NewRBAC] by the operations, no user's
    role list repeats an id and every assigned id is a registered role;
    so [RemoveRole] takes the role from every user. *)
Theorem reachable_assignments rbac :
  reachable rbac ->
  (forall userID,
     NoDup (GetUserRoles rbac userID)
     /\ (forall r, r ∈ GetUserRoles rbac userID -> exists role, GetRole rbac r = Ok role))
  /\ (forall roleID rbac',
        RemoveRole rbac roleID = Ok rbac' ->
        forall userID, HasRole rbac' userID roleID = false).
Proof.
  intros Hreach.
  assert (Hinv : forall userID roles_, userRoles rbac !! userID = Some roles_ ->
            NoDup roles_ /\ forall r, r ∈ roles_ -> is_Some (roles rbac !! r)).
  { induction Hreach as [|rbac rbac' Hreach IH Hstep]; [done|].
    by apply (step_keeps_assignments rbac rbac'). }
  assert (Huser : forall userID,
            NoDup (GetUserRoles rbac userID)
            /\ (forall r, r ∈ GetUserRoles rbac userID ->
                          exists role, GetRole rbac r = Ok role)).
  { intros userID. unfold GetUserRoles, GetRole.
    destruct (userRoles rbac !! userID) as [l|] eqn:Hl; simpl.
    - destruct (Hinv _ _ Hl) as [Hnd Hreg]. split; [done|].
      intros r Hr. destruct (Hreg r Hr) as [role ->]. by exists role.
    - split; [apply NoDup_nil_2 | by intros r Hr%elem_of_nil]. }
  split; [exact Huser|].
  intros roleID rbac' Hrm userID. unfold RemoveRole in Hrm.
  destruct (roles rbac !! roleID) as [role0|]; [|done]. injection Hrm as <-.
  apply not_true_iff_false. rewrite HasRole_elem_of. unfold GetUserRoles. simpl.
  rewrite lookup_fmap.
  destruct (userRoles rbac !! userID) as [l|] eqn:Hl; simpl; [|apply not_elem_of_nil].
  destruct (Hinv _ _ Hl) as [Hnd _]. by apply removeRoleFromSlice_NoDup.
Qed.

Lemma reachable_assignments_witness :
  let role := mkRole "admin" "Admin" "" [] in
  let rbac1 := mkRBAC {["admin" := role]} ∅ ∅ in
  let rbac2 := mkRBAC {["admin" := role]} ∅ {["u1" := ["admin"]]} in
  AddRole NewRBAC role = Ok rbac1
  /\ AssignRoleToUser rbac1 "u1" "admin" = Ok rbac2
  /\ HasRole rbac2 "u1" "admin" = true
  /\ exists rbac3,
       RemoveRole rbac2 "admin" = Ok rbac3
       /\ HasRole rbac3 "u1" "admin" = false.
Proof.
  intros role rbac1 rbac2.
  assert (H1 : AddRole NewRBAC role = Ok rbac1) by (vm_compute; reflexivity).
  assert (H2 : AssignRoleToUser rbac1 "u1" "admin" = Ok rbac2)
    by (vm_compute; reflexivity).
  split; [done|]. split; [done|]. split; [vm_compute; reflexivity|].
  eexists. split; [reflexivity|].
  apply (proj2 (reachable_assignments rbac2
                  (reachable_step _ _
                     (reachable_step _ _ reachable_NewRBAC
                        (step_AddRole _ role _ H1))
                     (step_AssignRoleToUser _ "u1" "admin" _ H2)))
           "admin").
  reflexivity.
Defined.

Lemma removeRoleFromSlice_app_fresh (roles_ : list string) roleID :
  (roleID ∉ roles_) -> removeRoleFromSlice (roles_ ++ [roleID])%list roleID = roles_.
Proof.
  intros Hnin.
  destruct (removeRoleFromSlice_spec (roles_ ++ [roleID])%list roleID)
    as [[Hno _]|(l1 & l2 & Heq & Hl1 & ->)].
  - exfalso. apply Hno, elem_of_app. right. apply list_elem_of_here.
  - assert (Hlen : length l1 = length roles_).
    { destruct (Nat.lt_trichotomy (length l1) (length roles_)) as [Hlt|[Heq'|Hgt]];
        [exfalso | done | exfalso].
      - apply Hnin. apply list_elem_of_lookup. exists (length l1).
        rewrite <- (lookup_app_l roles_ [roleID]) by done.
        rewrite Heq. by rewrite list_lookup_middle.
      - apply (f_equal length) in Heq. rewrite !length_app in Heq. simpl in Heq. lia. }
    apply app_inj_1 in Heq as [-> Hl2]; [|done].
    injection Hl2 as <-. by rewrite app_nil_r.
Qed.

(** X11. [RemoveRoleFromUser] fails with "user has no roles" only for a
    user who was never assigned a role.  After [AssignRoleToUser] of a role
    the user did not have, it gives the user's roles back as they were, and
    from then on it succeeds for that user without changing anything, even
    when no role is left. *)
Theorem RemoveRoleFromUser_AssignRoleToUser rbac userID roleID :
  (userRoles rbac !! userID = None ->
   RemoveRoleFromUser rbac userID roleID = Err (errors_New "user has no roles"))
  /\ (is_Some (roles rbac !! roleID) ->
      (roleID ∉ GetUserRoles rbac userID) ->
      exists rbac1 rbac2,
        AssignRoleToUser rbac userID roleID = Ok rbac1
        /\ RemoveRoleFromUser rbac1 userID roleID = Ok rbac2
        /\ (forall other, GetUserRoles rbac2 other = GetUserRoles rbac other)
        /\ HasRole rbac2 userID roleID = false
        /\ roles rbac2 = roles rbac
        /\ RemoveRoleFromUser rbac2 userID roleID = Ok rbac2).
Proof.
  split.
  { intros Hu. unfold RemoveRoleFromUser. by rewrite Hu. }
  intros [role Hrole] Hnin. unfold AssignRoleToUser. rewrite Hrole.
  fold (GetUserRoles rbac userID).
  assert (Hex : existsb (fun r => bool_decide (r = roleID)) (GetUserRoles rbac userID)
                = false).
  { apply not_true_iff_false. by rewrite existsb_role. }
  rewrite Hex. eexists _, _. split; [reflexivity|].
  unfold RemoveRoleFromUser at 1. simpl. rewrite lookup_insert_eq.
  rewrite removeRoleFromSlice_app_fresh by done. split; [reflexivity|].
  rewrite insert_insert_eq.
  assert (Hget : forall other,
            GetUserRoles
              {| roles := roles rbac; permissions := permissions rbac;
                 userRoles := <[userID := GetUserRoles rbac userID]> (userRoles rbac) |}
              other = GetUserRoles rbac other).
  { intros other. unfold GetUserRoles at 1. simpl. rewrite lookup_insert.
    case_decide; [by subst | done]. }
  split_and!.
  - exact Hget.
  - apply not_true_iff_false. by rewrite HasRole_elem_of, Hget.
  - done.
  - unfold RemoveRoleFromUser. simpl. rewrite lookup_insert_eq, insert_insert_eq.
    by rewrite (proj2 (removeRoleFromSlice_spec_absent _ _) Hnin).
Qed.

(** X12. [CreateDefaultRolesAndPermissions] never fails, whatever the engine
    holds: it registers (or overwrites) the four default permissions and the
    roles "user" and "admin", and leaves the other roles and every
    assignment alone.  Afterwards a user whose only role is "admin" is
    allowed every action on every resource, a user whose only role is
    "user" is allowed exactly to read "user", and calling it again changes
    nothing. *)
Theorem CreateDefaultRolesAndPermissions_spec rbac :
  exists rbac',
    CreateDefaultRolesAndPermissions rbac = Ok rbac'
    /\ userRoles rbac' = userRoles rbac
    /\ (forall roleID, roleID <> "user" -> roleID <> "admin" ->
          roles rbac' !! roleID = roles rbac !! roleID)
    /\ (forall permission, permission ∈ defaultPermissions ->
          GetPermission rbac' (Permission_ID permission) = Ok permission)
    /\ (forall role, role ∈ defaultRoles -> GetRole rbac' (Role_ID role) = Ok role)
    /\ (forall userID resource action,
          GetUserRoles rbac userID = ["admin"] ->
          HasResourcePermission rbac' userID resource action = true)
    /\ (forall userID resource action,
          GetUserRoles rbac userID = ["user"] ->
          (HasResourcePermission rbac' userID resource action = true
           <-> resource = "user" /\ action = "read"))
    /\ CreateDefaultRolesAndPermissions rbac' = Ok rbac'.
Proof.
  eexists. split; [reflexivity|]. simpl. split_and!.
  - reflexivity.
  - intros roleID Hu Ha. by rewrite !lookup_insert_ne.
  - intros permission Hp. unfold GetPermission, defaultPermissions in *. simpl.
    rewrite !elem_of_cons, elem_of_nil in Hp.
    destruct Hp as [->|[->|[->|[->|[]]]]]; simpl;
      rewrite !lookup_insert; repeat case_decide; done.
  - intros role Hr. unfold GetRole, defaultRoles in *. simpl.
    rewrite !elem_of_cons, elem_of_nil in Hr.
    destruct Hr as [->|[->|[]]]; simpl;
      rewrite !lookup_insert; repeat case_decide; done.
  - intros userID resource action Hroles.
    unfold HasResourcePermission, GetUserPermissions, GetUserRoles in *. simpl.
    rewrite Hroles. unfold collectPermissions. simpl. rewrite lookup_insert_eq.
    simpl. unfold deduplicatePermissions. simpl.
    unfold dedupStep. simpl.
    destruct (decide ("admin.all" ∈ (∅ : gset string))) as [Hin|_];
      [by apply not_elem_of_empty in Hin|]. simpl.
    by destruct (bool_decide ("*" = resource) && bool_decide ("*" = action)).
  - intros userID resource action Hroles.
    unfold HasResourcePermission, GetUserPermissions, GetUserRoles in *. simpl.
    rewrite Hroles. unfold collectPermissions. simpl.
    rewrite lookup_insert_ne, lookup_insert_eq by done.
    simpl. unfold deduplicatePermissions. simpl.
    unfold dedupStep. simpl.
    destruct (decide ("user.read" ∈ (∅ : gset string))) as [Hin|_];
      [by apply not_elem_of_empty in Hin|]. simpl.
    repeat case_bool_decide; simpl; split; try done; intros [? ?]; congruence.
  - unfold CreateDefaultRolesAndPermissions. simpl. f_equal. f_equal.
    + apply map_eq. intros id. rewrite !lookup_insert.
      repeat case_decide; done.
    + apply map_eq. intros id. rewrite !lookup_insert.
      repeat case_decide; done.
Qed.

Lemma roles_loop rbac (userRoles_ : list string) : forall acc : list Role,
  foldl (fun roles_ roleID =>
           match roles rbac !! roleID with
           | Some role0 => (roles_ ++ [role0])%list
           | None => roles_
           end) acc userRoles_
  = (acc ++ omap (fun roleID => roles rbac !! roleID) userRoles_)%list.
Proof.
  induction userRoles_ as [|r rs IH]; intros acc; simpl.
  - by rewrite app_nil_r.
  - rewrite IH. destruct (roles rbac !! r) as [role0|]; [|done].
    by rewrite <- app_assoc.
Qed.

Lemma permissions_loop rbac (userRoles_ : list string) : forall acc : list Permission,
  foldl (fun perms roleID =>
           match roles rbac !! roleID with
           | Some role0 => (perms ++ Role_Permissions role0)%list
           | None => perms
           end) acc userRoles_
  = (acc ++ concat (Role_Permissions
                      <$> omap (fun roleID => roles rbac !! roleID) userRoles_))%list.
Proof.
  induction userRoles_ as [|r rs IH]; intros acc; simpl.
  - by rewrite app_nil_r.
  - rewrite IH. destruct (roles rbac !! r) as [role0|]; [|done].
    simpl. by rewrite <- app_assoc.
Qed.

(** X13. [GetRolesByUser] returns the registered roles among the user's
    role ids, in the order of assignment, and skips ids that are not
    registered; [GetUserPermissions] is the deduplicated concatenation of
    the permission lists of exactly these roles. *)
Theorem GetRolesByUser_GetUserPermissions rbac userID :
  GetRolesByUser rbac userID
  = omap (fun roleID => roles rbac !! roleID) (GetUserRoles rbac userID)
  /\ GetUserPermissions rbac userID
     = deduplicatePermissions (concat (Role_Permissions <$> GetRolesByUser rbac userID))
  /\ (forall role0, role0 ∈ GetRolesByUser rbac userID <->
        exists roleID, HasRole rbac userID roleID = true
                       /\ GetRole rbac roleID = Ok role0).
Proof.
  assert (Hroles : GetRolesByUser rbac userID
                   = omap (fun roleID => roles rbac !! roleID) (GetUserRoles rbac userID)).
  { unfold GetRolesByUser. by rewrite roles_loop. }
  split_and!.
  - exact Hroles.
  - rewrite Hroles. unfold GetUserPermissions, collectPermissions.
    by rewrite permissions_loop.
  - intros role0. rewrite Hroles, list_elem_of_omap. unfold GetRole.
    split; intros (roleID & Hin & Hlook); exists roleID.
    + rewrite HasRole_elem_of. by rewrite Hlook.
    + rewrite HasRole_elem_of in Hin. split; [done|].
      destruct (roles rbac !! roleID); congruence.
Qed.

End RbacMore.

(** ** More on the tokens of [Manager] *)
Section ManagerMore.
Local Open Scope Z_scope.

Implicit Types (m : Manager.Manager).

(** Without claims validation the parser accepts every token of an HMAC
    algorithm whose tag was made under [secret]. *)
Lemma ParseWithClaims_skip_Ok {C : Type} {claimsC : jwt.Claims C} (secret : string)
    (now : Z) (tokenString : jwt.TokenString C) (token : jwt.Token C) :
  jwt.ParseWithClaims tokenString (jwt.hmacKeyFunc secret) true now = Ok token <->
  exists alg claims,
    alg ∈ ["HS256"; "HS384"; "HS512"]
    /\ tokenString = jwt.Compact alg claims (jwt.HMACTag alg secret alg claims)
    /\ token = jwt.mkToken (jwt.SigningMethodHMAC alg) alg claims
                 (jwt.HMACTag alg secret alg claims) true.
Proof.
  destruct tokenString as [alg claims signature|raw]; simpl;
    [|split; [done | intros (? & ? & _ & ? & _); done]].
  destruct (decide (alg ∈ ["HS256"; "HS384"; "HS512"])) as [Hin|Hin].
  - rewrite (GetSigningMethod_HMAC alg Hin). simpl.
    destruct (bool_decide_reflect (signature = jwt.HMACTag alg secret alg claims))
      as [->|Hs]; simpl.
    + split.
      * intros [= <-]. by exists alg, claims.
      * intros (? & ? & _ & [= <- <-] & ->). done.
    + split; [done|]. intros (? & ? & _ & [= -> -> ->] & _). done.
  - split; [|intros (? & ? & ? & [= -> -> ->] & _); done].
    destruct (GetSigningMethod_not_HMAC alg Hin) as [-> | ->]; done.
Qed.

Lemma GetTokenClaims_Ok m (tokenString : jwt.TokenString Manager.Claims)
    (claims : Manager.Claims) :
  Manager.GetTokenClaims m tokenString = Ok claims <->
  exists alg,
    alg ∈ ["HS256"; "HS384"; "HS512"]
    /\ tokenString
       = jwt.Compact alg claims
           (jwt.HMACTag alg (config.Secret (Manager.config m)) alg claims).
Proof.
  unfold Manager.GetTokenClaims.
  destruct (jwt.ParseWithClaims tokenString _ true 0) as [token|e] eqn:Hp.
  - apply ParseWithClaims_skip_Ok in Hp as (alg & claims' & Hin & -> & ->). simpl.
    split.
    + intros [= <-]. by exists alg.
    + intros (alg' & _ & [= _ <-]). done.
  - split; [done|]. intros (alg & Hin & ->).
    assert (Hp' : exists token,
               jwt.ParseWithClaims
                 (jwt.Compact alg claims
                    (jwt.HMACTag alg (config.Secret (Manager.config m)) alg claims))
                 (jwt.hmacKeyFunc (config.Secret (Manager.config m))) true 0
               = Ok token).
    { eexists. apply ParseWithClaims_skip_Ok. exists alg, claims. split_and!; eauto. }
    destruct Hp' as [token Hp']. congruence.
Qed.

(** X14. [GetTokenClaims] returns the claims of exactly the tokens of an
    HMAC algorithm signed under the manager's secret: it checks neither the
    expiry, nor the not-before time, nor the issuer.  Whatever
    [ValidateToken] accepts at some instant, [GetTokenClaims] returns at
    every instant. *)
Theorem GetTokenClaims_spec m (tokenString : jwt.TokenString Manager.Claims) :
  (forall claims,
     Manager.GetTokenClaims m tokenString = Ok claims <->
     exists alg,
       alg ∈ ["HS256"; "HS384"; "HS512"]
       /\ tokenString
          = jwt.Compact alg claims
              (jwt.HMACTag alg (config.Secret (Manager.config m)) alg claims))
  /\ (forall now claims,
        Manager.ValidateToken m now tokenString = Ok claims ->
        Manager.GetTokenClaims m tokenString = Ok claims).
Proof.
  split; [apply GetTokenClaims_Ok|].
  intros now claims Hv. apply GetTokenClaims_Ok.
  apply Manager_ValidateToken_Ok in Hv as (alg & Hin & -> & _). by exists alg.
Qed.

(** X15. The expiry [GetTokenExpiration] reads from a token that
    [GenerateToken] or [GenerateRefreshToken] issued is the instant of issue
    plus the configured lifetime, cut to the second: it lies at most one
    second before that instant. *)
Theorem GetTokenExpiration_GenerateToken m (issuedAt : Z)
    (userID : Z) (username email role : string) :
  (exists tokenString expiresAt,
     Manager.GenerateToken m issuedAt userID username email role = Ok tokenString
     /\ Manager.GetTokenExpiration m tokenString = Ok expiresAt
     /\ expiresAt <= issuedAt + time.Hours (config.ExpireHours (Manager.config m))
        < expiresAt + time.Second)
  /\ (exists tokenString expiresAt,
        Manager.GenerateRefreshToken m issuedAt userID username = Ok tokenString
        /\ Manager.GetTokenExpiration m tokenString = Ok expiresAt
        /\ expiresAt <= issuedAt + time.Hours (config.RefreshHours (Manager.config m))
           < expiresAt + time.Second).
Proof.
  assert (Htrunc : forall t, time.TruncateSecond t <= t < time.TruncateSecond t + time.Second).
  { intros t. unfold time.TruncateSecond, time.Second.
    pose proof (Z.mul_div_le t 1000000000).
    pose proof (Z.mod_pos_bound t 1000000000).
    pose proof (Z.div_mod t 1000000000). lia. }
  split; eexists _, _; (split; [reflexivity|]);
    unfold Manager.GetTokenExpiration;
    (erewrite (proj2 (GetTokenClaims_Ok _ _ _));
       [|exists "HS256"; split; [apply list_elem_of_here | reflexivity]]);
    (split; [reflexivity|]); apply Htrunc.
Qed.





(** X17. [IsTokenExpired] on a token of an HMAC algorithm signed under the
    manager's secret: an expiry that has passed gives [true]; an expiry
    still ahead gives an error, not [false], when the not-before time is
    still ahead too, and otherwise compares the expiry with a second
    reading of the clock; a token without expiry makes it panic on the nil
    date.  A token that is not signed under the secret is never reported
    expired, whatever its expiry: the signature error is returned. *)
Theorem IsTokenExpired_spec m (now now2 : Z) (alg : string) (claims : Manager.Claims)
    (signature : jwt.Signature Manager.Claims) :
  let tokenString := jwt.Compact alg claims signature in
  let own := jwt.HMACTag alg (config.Secret (Manager.config m)) alg claims in
  let rc := Manager.Claims_Registered claims in
  let started := forall nbf, jwt.NotBefore rc = Some nbf -> nbf <= now in
  (alg ∉ ["HS256"; "HS384"; "HS512"] ->
   Manager.IsTokenExpired m now now2 tokenString
   = Returned (Err (jwt_Error ErrTokenUnverifiable)))
  /\ (alg ∈ ["HS256"; "HS384"; "HS512"] -> signature <> own ->
      Manager.IsTokenExpired m now now2 tokenString
      = Returned (Err (jwt_Error ErrTokenSignatureInvalid)))
  /\ (alg ∈ ["HS256"; "HS384"; "HS512"] -> signature = own ->
      (forall exp, jwt.ExpiresAt rc = Some exp -> exp <= now ->
         Manager.IsTokenExpired m now now2 tokenString = Returned (Ok true))
      /\ (forall exp, jwt.ExpiresAt rc = Some exp -> now < exp -> started ->
            Manager.IsTokenExpired m now now2 tokenString
            = Returned (Ok (bool_decide (exp < now2))))
      /\ (forall nbf, jwt.NotBefore rc = Some nbf -> now < nbf ->
            (forall exp, jwt.ExpiresAt rc = Some exp -> now < exp) ->
            Manager.IsTokenExpired m now now2 tokenString
            = Returned (Err (jwt_Error (ErrTokenInvalidClaims [ErrTokenNotValidYet]))))
      /\ (jwt.ExpiresAt rc = None -> started ->
          Manager.IsTokenExpired m now now2 tokenString
          = Panicked "nil pointer dereference")).
Proof.
  intros tokenString own rc started.
  pose proof (ParseWithClaims_cases (config.Secret (Manager.config m)) now tokenString)
    as (H1 & H2 & H3 & H4).
  unfold Manager.IsTokenExpired. split_and!.
  - intros Hin. by rewrite (H1 Hin).
  - intros Hin Hs. by rewrite (H2 Hin Hs).
  - intros Hin Hs. split_and!.
    + intros exp He Hle.
      pose proof (Validate_expired now exp rc He Hle) as Hexp.
      rewrite (H3 Hin Hs) by (intros Hnil; simpl in Hnil; fold rc in Hnil;
                              rewrite Hnil in Hexp; by apply elem_of_nil in Hexp).
      simpl. by rewrite bool_decide_eq_true_2.
    + intros exp He Hlt Hst.
      rewrite (H4 Hin Hs).
      * simpl. fold rc. rewrite He. unfold time.Before.
        f_equal. f_equal. destruct (Z.ltb_spec exp now2).
        -- by rewrite bool_decide_eq_true_2.
        -- rewrite bool_decide_eq_false_2; [done | lia].
      * apply Validate_nil. split; [|exact Hst].
        intros exp' He'. simpl in He'. fold rc in He'. congruence.
    + intros nbf Hn Hlt Hexp.
      assert (Hval : jwt.Validate now rc = [ErrTokenNotValidYet]).
      { unfold jwt.Validate, time.Before. rewrite Hn.
        destruct (Z.ltb_spec now nbf); [|lia].
        destruct (jwt.ExpiresAt rc) as [exp|]; [|done].
        specialize (Hexp exp eq_refl). destruct (Z.ltb_spec now exp); [done | lia]. }
      rewrite (H3 Hin Hs) by (simpl; fold rc; by rewrite Hval).
      simpl. fold rc. rewrite Hval. reflexivity.
    + intros He Hst. rewrite (H4 Hin Hs).
      * simpl. fold rc. by rewrite He.
      * apply Validate_nil. split; [|exact Hst].
        intros exp' He'. simpl in He'. fold rc in He'. congruence.
Qed.

(** X18. [ValidateRole] passes exactly the tokens [ValidateToken] accepts
    whose role is one of the required ones, and every accepted token when
    no role is required; a token [ValidateToken] refuses is refused with
    the same error. *)
Theorem ValidateRole_iff m (now : Z) (tokenString : jwt.TokenString Manager.Claims)
    (requiredRoles : list string) :
  (Manager.ValidateRole m now tokenString requiredRoles = None <->
   exists claims,
     Manager.ValidateToken m now tokenString = Ok claims
     /\ (requiredRoles = [] \/ Manager.Claims_Role claims ∈ requiredRoles))
  /\ (forall err,
        Manager.ValidateToken m now tokenString = Err err ->
        Manager.ValidateRole m now tokenString requiredRoles = Some err).
Proof.
  unfold Manager.ValidateRole.
  destruct (Manager.ValidateToken m now tokenString) as [claims|err].
  - split; [|done]. destruct requiredRoles as [|r rs].
    + simpl. split; [|done]. intros _. exists claims. auto.
    + change (length (r :: rs) =? 0)%nat with false. cbv iota.
      destruct (existsb _ (r :: rs)) eqn:Hex.
      * split; [|done]. intros _. exists claims. split; [done|]. right.
        apply existsb_elem_of in Hex as (x & Hx & Heq).
        apply bool_decide_eq_true in Heq. by subst.
      * split; [done|]. intros (claims' & [= <-] & [Hnil|Hin]); [done|].
        apply not_true_iff_false in Hex. exfalso. apply Hex.
        apply existsb_elem_of. exists (Manager.Claims_Role claims).
        split; [done | by apply bool_decide_eq_true].
  - split; [|by intros ? [= <-]]. split; [done|]. intros (? & ? & _). done.
Qed.

(** X29. The [ExpiresAt] of a token pair and the expiry of its access
    token come from two readings of the clock: when the second reading is
    not earlier, the pair never announces an expiry before the real one of
    the access token, and the two agree when both readings fall in the
    same second and the lifetime does not overflow. *)
Theorem GenerateTokenPair_ExpiresAt m (now1 now2 now3 : Z)
    (userID : Z) (username email role : string) :
  now1 <= now3 ->
  exists pair expiresAt,
    Manager.GenerateTokenPair m now1 now2 now3 userID username email role = Ok pair
    /\ Manager.GetTokenExpiration m (Manager.TokenPair_AccessToken pair) = Ok expiresAt
    /\ expiresAt <= Manager.TokenPair_ExpiresAt pair * time.Second
    /\ (now1 / time.Second = now3 / time.Second ->
        min_int64 <= config.ExpireHours (Manager.config m) * time.Hour <= max_int64 ->
        expiresAt = Manager.TokenPair_ExpiresAt pair * time.Second).
Proof.
  intros Hle. eexists _, _. split; [reflexivity|]. simpl.
  unfold Manager.GetTokenExpiration.
  erewrite (proj2 (GetTokenClaims_Ok _ _ _));
    [|exists "HS256"; split; [apply list_elem_of_here | reflexivity]].
  simpl. split; [reflexivity|].
  unfold time.TruncateSecond, time.Unix, time.Add. split.
  - apply Z.mul_le_mono_nonneg_r; [unfold time.Second; lia|].
    apply Z.div_le_mono; [unfold time.Second; lia | lia].
  - intros Hsame Hrange. unfold time.Hours. rewrite wrap64_id by done.
    unfold time.Hour.
    replace (config.ExpireHours (Manager.config m) * (3600 * time.Second))
      with (config.ExpireHours (Manager.config m) * 3600 * time.Second) by lia.
    rewrite !Z.div_add by (unfold time.Second; lia). by rewrite Hsame.
Qed.

Lemma GenerateTokenPair_ExpiresAt_witness :
  exists pair expiresAt,
    Manager.GenerateTokenPair
      (Manager.New (config.mkJWTConfig "test-secret-key" 1 24 "test-app"))
      1700000000999999998 1700000000999999999 1700000001000000001
      123 "testuser" "test@example.com" "user" = Ok pair
    /\ Manager.GetTokenExpiration
         (Manager.New (config.mkJWTConfig "test-secret-key" 1 24 "test-app"))
         (Manager.TokenPair_AccessToken pair) = Ok expiresAt
    /\ expiresAt <= Manager.TokenPair_ExpiresAt pair * time.Second
    /\ (1700000000999999998 / time.Second = 1700000001000000001 / time.Second ->
        min_int64
        <= config.ExpireHours
             (Manager.config
                (Manager.New (config.mkJWTConfig "test-secret-key" 1 24 "test-app")))
           * time.Hour
        <= max_int64 ->
        expiresAt = Manager.TokenPair_ExpiresAt pair * time.Second).
Proof.
  apply (GenerateTokenPair_ExpiresAt
           (Manager.New (config.mkJWTConfig "test-secret-key" 1 24 "test-app"))
           1700000000999999998 1700000000999999999 1700000001000000001).
  lia.
Defined.

End ManagerMore.

(** ** More on [JWTManager] *)
Section JWTManagerMore.
Local Open Scope Z_scope.

Implicit Types (jm : JWTManager.JWTManager).

Lemma IndexByte_Some (c : ascii) (s : string) : forall i : nat,
  Strings.IndexByte s c = Some i ->
  s = String.substring 0 i s
      ++ String c (String.substring (S i) (String.length s - S i) s).
Proof.
  induction s as [|b s IH]; intros i; simpl; [done|].
  destruct (decide (b = c)) as [->|Hne].
  - intros [= <-]. simpl. rewrite append_nil_l, Nat.sub_0_r. by rewrite substring_all.
  - destruct (Strings.IndexByte s c) as [j|]; [|done]. simpl. intros [= <-].
    rewrite append_cons. f_equal. by apply IH.
Qed.

Lemma IndexByte_append_fresh (c : ascii) (b : string) : forall a : string,
  Strings.IndexByte a c = None ->
  Strings.IndexByte (a ++ String c b) c = Some (String.length a).
Proof.
  induction a as [|x a IH]; simpl.
  - intros _. by rewrite decide_True.
  - destruct (decide (x = c)); [done|].
    destruct (Strings.IndexByte a c) eqn:Hi; [done|]. intros _. by rewrite IH.
Qed.

Lemma IndexByte_ToLower (c : ascii) : forall s : string,
  Strings.lowerByte c = c ->
  Strings.IndexByte (Strings.ToLower s) c = None ->
  Strings.IndexByte s c = None.
Proof.
  intros s Hc. induction s as [|x s IH]; simpl; [done|].
  destruct (decide (x = c)) as [->|Hne].
  - by rewrite Hc, decide_True.
  - destruct (decide (Strings.lowerByte x = c)); [done|].
    destruct (Strings.IndexByte (Strings.ToLower s) c); [done|].
    intros _. by rewrite IH.
Qed.

(** X19. [ExtractTokenFromHeader] returns a token exactly for the headers
    made of a scheme that is "bearer" in any letter case, one space, and
    the token, which is everything after that first space: an empty token
    and a token with spaces in it are returned as they are.  The empty
    header has an error of its own. *)
Theorem ExtractTokenFromHeader_iff (authHeader token : string) :
  (JWTManager.ExtractTokenFromHeader authHeader = Ok token <->
   exists scheme,
     authHeader = scheme ++ " " ++ token /\ Strings.ToLower scheme = "bearer")
  /\ JWTManager.ExtractTokenFromHeader ("Bearer " ++ token) = Ok token
  /\ JWTManager.ExtractTokenFromHeader ("bearer " ++ token) = Ok token
  /\ JWTManager.ExtractTokenFromHeader "" = Err (errors_New "authorization header is empty").
Proof.
  assert (Hiff : forall authHeader token,
            JWTManager.ExtractTokenFromHeader authHeader = Ok token <->
            exists scheme,
              authHeader = scheme ++ " " ++ token /\ Strings.ToLower scheme = "bearer").
  { clear authHeader token. intros authHeader token.
    unfold JWTManager.ExtractTokenFromHeader, Strings.SplitN2. split.
    - destruct (bool_decide (authHeader = "")); [done|].
      destruct (Strings.IndexByte authHeader " ") as [i|] eqn:Hi; [|done].
      destruct (bool_decide_reflect
                  (Strings.ToLower (String.substring 0 i authHeader) = "bearer"))
        as [Hlow|Hlow]; [|done].
      simpl. intros [= <-]. exists (String.substring 0 i authHeader).
      split; [|done]. by apply IndexByte_Some.
    - intros (scheme & -> & Hlow).
      rewrite bool_decide_eq_false_2.
      2:{ destruct scheme; [done|]. rewrite append_cons. discriminate. }
      assert (Hfresh : Strings.IndexByte scheme " " = None).
      { apply IndexByte_ToLower; [done|]. by rewrite Hlow. }
      change (" " ++ token) with (String " " token).
      rewrite (IndexByte_append_fresh " " token scheme Hfresh).
      rewrite substring_0_append, Hlow. simpl. f_equal.
      rewrite length_append. simpl.
      replace (String.length scheme + S (String.length token) - S (String.length scheme))%nat
        with (String.length token) by lia.
      change (S (String.length scheme)) with (String.length (String " " "") + String.length scheme)%nat.
      replace (String.length (String " " "") + String.length scheme)%nat
        with (String.length (scheme ++ " ")) by (rewrite length_append; simpl; lia).
      replace (scheme ++ String " " token) with ((scheme ++ " ") ++ token)
        by (rewrite append_assoc; reflexivity).
      by rewrite substring_skip_append, substring_all. }
  split_and!.
  - apply Hiff.
  - apply Hiff. by exists "Bearer".
  - apply Hiff. by exists "bearer".
  - reflexivity.
Qed.







(** The flags after the loop: a flag is set when it was set before or the
    loop met a byte of its class. *)
Lemma classify_loop (l : list ascii) : forall flags : JWTManager.charFlags,
  let n := nat_of_ascii in
  let flags' := foldl JWTManager.classify flags l in
  (JWTManager.hasUpper flags' = true <->
   JWTManager.hasUpper flags = true \/ exists c, c ∈ l /\ (65 <= n c <= 90)%nat)
  /\ (JWTManager.hasLower flags' = true <->
      JWTManager.hasLower flags = true \/ exists c, c ∈ l /\ (97 <= n c <= 122)%nat)
  /\ (JWTManager.hasNumber flags' = true <->
      JWTManager.hasNumber flags = true \/ exists c, c ∈ l /\ (48 <= n c <= 57)%nat)
  /\ (JWTManager.hasSpecial flags' = true <->
      JWTManager.hasSpecial flags = true
      \/ exists c, c ∈ l /\ ~ (65 <= n c <= 90)%nat /\ ~ (97 <= n c <= 122)%nat
                   /\ ~ (48 <= n c <= 57)%nat).
Proof.
  induction l as [|x l IH]; intros flags n flags'.
  - subst flags'. simpl.
    split_and!; (split; [auto|]); intros [H|(c & Hc & _)]; try done;
      by apply elem_of_nil in Hc.
  - subst flags'. simpl.
    destruct (IH (JWTManager.classify flags x)) as (I1 & I2 & I3 & I4).
    rewrite I1, I2, I3, I4. clear IH I1 I2 I3 I4.
    unfold JWTManager.classify. fold (n x).
    destruct (Nat.leb_spec 65 (n x)), (Nat.leb_spec (n x) 90),
      (Nat.leb_spec 97 (n x)), (Nat.leb_spec (n x) 122),
      (Nat.leb_spec 48 (n x)), (Nat.leb_spec (n x) 57); simpl; try lia;
      setoid_rewrite elem_of_cons;
      (split_and!;
       (split;
        [ intros [Hf|(c & Hc & Hn)];
          [ first [ by left | right; exists x; split; [by left | lia] ]
          | right; exists c; split; [by right | done] ]
        | intros [Hf|(c & [->|Hc] & Hn)];
          [ by left
          | first [ by left | exfalso; lia ]
          | right; exists c; split; done ] ])).
Qed.

(** X22. [ValidatePasswordStrength] accepts a password exactly when it has
    at least 8 bytes and holds an ASCII capital letter, an ASCII small
    letter, an ASCII digit and a byte that is none of these: a space or a
    byte of a non-ASCII character counts as special.  Shorter passwords
    get the length error whatever they hold. *)
Theorem ValidatePasswordStrength_iff (password : string) :
  let bytes := list_ascii_of_string password in
  let n := nat_of_ascii in
  (JWTManager.ValidatePasswordStrength password = None <->
   (8 <= String.length password)%nat
   /\ (exists c, c ∈ bytes /\ (65 <= n c <= 90)%nat)
   /\ (exists c, c ∈ bytes /\ (97 <= n c <= 122)%nat)
   /\ (exists c, c ∈ bytes /\ (48 <= n c <= 57)%nat)
   /\ (exists c, c ∈ bytes /\ ~ (65 <= n c <= 90)%nat /\ ~ (97 <= n c <= 122)%nat
                 /\ ~ (48 <= n c <= 57)%nat))
  /\ ((String.length password < 8)%nat <->
      JWTManager.ValidatePasswordStrength password
      = Some (errors_New "password must be at least 8 characters long")).
Proof.
  intros bytes n. unfold JWTManager.ValidatePasswordStrength. fold bytes.
  destruct (classify_loop bytes (JWTManager.mkCharFlags false false false false))
    as (H1 & H2 & H3 & H4). simpl in H1, H2, H3, H4. fold n in H1, H2, H3, H4.
  destruct (Nat.ltb_spec (String.length password) 8) as [Hlt|Hge].
  - split; [split; [done | lia] | done].
  - split.
    + rewrite <- (or_False (exists c, c ∈ bytes /\ (65 <= n c <= 90)%nat)).
      rewrite <- (or_False (exists c, c ∈ bytes /\ (97 <= n c <= 122)%nat)).
      rewrite <- (or_False (exists c, c ∈ bytes /\ (48 <= n c <= 57)%nat)).
      rewrite <- (or_False (exists c, c ∈ bytes /\ ~ (65 <= n c <= 90)%nat
                                      /\ ~ (97 <= n c <= 122)%nat
                                      /\ ~ (48 <= n c <= 57)%nat)).
      rewrite (or_comm _ False), (or_comm _ False), (or_comm _ False), (or_comm _ False).
      assert (Hf : False <-> false = true) by (split; [done | discriminate]).
      rewrite Hf at 1 2 3 4. rewrite <- H1, <- H2, <- H3, <- H4.
      destruct (JWTManager.hasUpper _), (JWTManager.hasLower _),
        (JWTManager.hasNumber _), (JWTManager.hasSpecial _); simpl;
        (split; [try done; intros _; split_and!; done
                | try done; intros (_ & ? & ? & ? & ?); done]).
    + split; [lia|]. 
      destruct (JWTManager.hasUpper _), (JWTManager.hasLower _),
        (JWTManager.hasNumber _), (JWTManager.hasSpecial _); simpl; discriminate.
Qed.

End JWTManagerMore.

(** ** More on the rate limiters *)
Section RateLimitMore.
Import RateLimit.
Local Open Scope Z_scope.

Lemma div_Second_add (a b : Z) :
  a / time.Second + b / time.Second <= (a + b) / time.Second.
Proof.
  unfold time.Second.
  pose proof (Z.div_mod a 1000000000 ltac:(lia)).
  pose proof (Z.div_mod b 1000000000 ltac:(lia)).
  pose proof (Z.div_mod (a + b) 1000000000 ltac:(lia)).
  pose proof (Z.mod_pos_bound a 1000000000 ltac:(lia)).
  pose proof (Z.mod_pos_bound b 1000000000 ltac:(lia)).
  pose proof (Z.mod_pos_bound (a + b) 1000000000 ltac:(lia)).
  lia.
Qed.

(** The whole seconds [consume] reads off the clock, when there are any,
    are whole seconds that have passed since the last refill. *)
Lemma SecondsInt_Sub_le (now last : Z) :
  0 < time.SecondsInt (time.Sub now last) ->
  time.SecondsInt (time.Sub now last) <= (now - last) / time.Second.
Proof.
  unfold time.SecondsInt, time.Sub, time.Second, max_int64, min_int64.
  destruct (Z.ltb_spec (2 ^ 63 - 1) (now - last)) as [Hbig|Hsmall].
  - intros _. rewrite Z.quot_div_nonneg by lia.
    apply Z.div_le_mono; lia.
  - destruct (Z.ltb_spec (now - last) (- 2 ^ 63)) as [Hneg|Hok].
    + intros Hpos. exfalso. revert Hpos.
      change (- 2 ^ 63 ÷ 1000000000) with (-9223372036). lia.
    + intros Hpos.
      destruct (Z.le_gt_cases 0 (now - last)) as [Hnn|Hn].
      * rewrite Z.quot_div_nonneg by lia. lia.
      * exfalso. pose proof (Z.quot_le_mono (now - last) 0 1000000000 ltac:(lia) ltac:(lia)).
        rewrite Z.quot_0_l in H by lia. lia.
Qed.

(** One call: the tokens left, plus the token taken, exceed the tokens
    before by no more than the rate times the whole seconds by which the
    last refill has moved. *)
Lemma consume_potential (tb : tokenBucket) (now origin : Z) :
  0 <= rate tb ->
  0 <= tokens tb <= capacity tb ->
  capacity tb + 9223372037 * rate tb <= max_int64 ->
  tokens (consume tb now).2 + (if (consume tb now).1 then 1 else 0)
  - rate tb * ((lastRefill (consume tb now).2 - origin) / time.Second)
  <= tokens tb - rate tb * ((lastRefill tb - origin) / time.Second)
  /\ (lastRefill (consume tb now).2 = lastRefill tb
      \/ lastRefill (consume tb now).2 = now).
Proof.
  intros Hrate Htok Hcap. unfold consume.
  pose proof (SecondsInt_bound _ (Sub_in_int64 now (lastRefill tb))) as Hsecs.
  pose proof (SecondsInt_Sub_le now (lastRefill tb)) as Hle.
  set (secs := time.SecondsInt (time.Sub now (lastRefill tb))) in *.
  assert (Hmax : max_int64 = 9223372036854775807) by reflexivity.
  assert (Hmin : min_int64 = -9223372036854775808) by reflexivity.
  assert (Habs : Z.abs (secs * rate tb) <= 9223372037 * rate tb).
  { rewrite Z.abs_mul, (Z.abs_eq (rate tb)) by done.
    apply Z.mul_le_mono_nonneg_r; lia. }
  unfold refill. rewrite (wrap64_id (secs * rate tb)) by lia.
  destruct (Z.ltb_spec 0 (secs * rate tb)) as [Hpos|Hnpos].
  - assert (Hsp : 0 < secs) by nia. specialize (Hle Hsp).
    rewrite (wrap64_id (tokens tb + secs * rate tb)) by lia.
    pose proof (div_Second_add (lastRefill tb - origin) (now - lastRefill tb)) as Hdiv.
    replace (lastRefill tb - origin + (now - lastRefill tb)) with (now - origin)
      in Hdiv by lia.
    assert (Hmul : rate tb * secs
                   <= rate tb * ((now - origin) / time.Second
                                 - (lastRefill tb - origin) / time.Second)).
    { apply Z.mul_le_mono_nonneg_l; lia. }
    unfold takeToken; simpl.
    destruct (Z.ltb_spec (capacity tb) (tokens tb + secs * rate tb));
      match goal with
      | |- context [(0 <? ?t)] => destruct (Z.ltb_spec 0 t)
      end; simpl; rewrite ?wrap64_id by lia; split; auto; lia.
  - unfold takeToken. destruct (Z.ltb_spec 0 (tokens tb)); simpl;
      rewrite ?wrap64_id by lia; split; auto; lia.
Qed.

Lemma consumeAll_potential (origin : Z) (times : list Z) : forall tb : tokenBucket,
  0 <= rate tb ->
  0 <= tokens tb <= capacity tb ->
  capacity tb + 9223372037 * rate tb <= max_int64 ->
  Z.of_nat (length (admitted times (consumeAll tb times).1))
  + tokens (consumeAll tb times).2
  - rate tb * ((lastRefill (consumeAll tb times).2 - origin) / time.Second)
  <= tokens tb - rate tb * ((lastRefill tb - origin) / time.Second)
  /\ (lastRefill (consumeAll tb times).2 = lastRefill tb
      \/ lastRefill (consumeAll tb times).2 ∈ times)
  /\ 0 <= tokens (consumeAll tb times).2.
Proof.
  induction times as [|now times IH]; intros tb Hrate Htok Hcap; simpl.
  - split_and!; [lia | by left | lia].
  - destruct (consume_potential tb now origin Hrate Htok Hcap) as [Hpot Hlast].
    destruct (consume_bounded tb now Htok) as (B1 & B2 & B3);
      [rewrite Z.abs_eq by done; done|].
    destruct (consume tb now) as [ok tb1]. simpl in *.
    specialize (IH tb1). rewrite B2, B3 in IH. specialize (IH Hrate B1 Hcap).
    destruct (consumeAll tb1 times) as [oks tb2]. simpl in *.
    destruct IH as (I1 & I2 & I3). split_and!.
    + destruct ok; simpl; lia.
    + destruct I2 as [I2|I2].
      * rewrite I2. destruct Hlast as [->| ->]; [by left | right; apply list_elem_of_here].
      * right. by apply list_elem_of_further.
    + done.
Qed.

(** X23. A bucket never admits more than its capacity plus its rate times
    the whole seconds since it was created: for a capacity and a rate that
    are not negative and cannot overflow, and calls at any instants between
    the creation and [deadline], in any order.  The deadline is taken
    within 2^24 seconds of the creation, where [int(elapsed.Seconds())] is
    exactly the number of whole seconds elapsed. *)
Theorem tokenBucket_admission_bound (capacity_ rate_ created deadline : Z)
    (times : list Z) :
  0 <= capacity_ -> 0 <= rate_ ->
  capacity_ + 9223372037 * rate_ <= max_int64 ->
  created <= deadline <= created + 16777216 * time.Second ->
  (forall now, now ∈ times -> created <= now <= deadline) ->
  Z.of_nat (length (admitted times
                      (consumeAll (newTokenBucket capacity_ rate_ created) times).1))
  <= capacity_ + rate_ * ((deadline - created) / time.Second).
Proof.
  intros Hcap Hrate Hov Hcreated Htimes.
  destruct (consumeAll_potential created times (newTokenBucket capacity_ rate_ created))
    as (H1 & H2 & H3); simpl in *; try lia.
  replace (created - created) with 0 in H1 by lia.
  change (0 / time.Second) with 0 in H1.
  set (r := consumeAll (newTokenBucket capacity_ rate_ created) times) in *.
  assert (Hlast : lastRefill r.2 <= deadline).
  { destruct H2 as [-> | Hin]; [lia | by apply Htimes]. }
  assert (Hdiv : (lastRefill r.2 - created) / time.Second
                 <= (deadline - created) / time.Second).
  { apply Z.div_le_mono; [unfold time.Second; lia | lia]. }
  assert (Hmul : rate_ * ((lastRefill r.2 - created) / time.Second)
                 <= rate_ * ((deadline - created) / time.Second)).
  { by apply Z.mul_le_mono_nonneg_l. }
  lia.
Qed.

Lemma tokenBucket_admission_bound_witness :
  Z.of_nat (length (admitted
                      [0; 1; 2; 3; 4; 5; 1000000000; 1000000001; 7000000000]
                      (consumeAll (newTokenBucket 5 1 0)
                         [0; 1; 2; 3; 4; 5; 1000000000; 1000000001; 7000000000]).1))
  <= 5 + 1 * ((7000000000 - 0) / time.Second).
Proof.
  apply (tokenBucket_admission_bound 5 1 0 7000000000
           [0; 1; 2; 3; 4; 5; 1000000000; 1000000001; 7000000000]).
  - lia.
  - lia.
  - vm_compute. discriminate.
  - unfold time.Second. lia.
  - intros now Hin. repeat (apply elem_of_cons in Hin as [->|Hin]; [lia|]).
    by apply elem_of_nil in Hin.
Defined.

(** Less than a second from the last refill, in either direction,
    [consume] reads no whole second and only tries to take a token. *)
Lemma consume_within_second (tb : tokenBucket) (now : Z) :
  lastRefill tb - time.Second < now < lastRefill tb + time.Second ->
  consume tb now = takeToken tb.
Proof.
  unfold time.Second. intros Hnow. unfold consume.
  assert (Hsub : time.Sub now (lastRefill tb) = now - lastRefill tb).
  { unfold time.Sub, max_int64, min_int64.
    destruct (Z.ltb_spec (2 ^ 63 - 1) (now - lastRefill tb)); [lia|].
    destruct (Z.ltb_spec (now - lastRefill tb) (- 2 ^ 63)); [lia | done]. }
  rewrite Hsub. unfold time.SecondsInt, time.Second.
  assert (Hq : (now - lastRefill tb) ÷ 1000000000 = 0).
  { destruct (Z.le_gt_cases 0 (now - lastRefill tb)).
    - apply Z.quot_small. lia.
    - rewrite <- (Z.opp_involutive (now - lastRefill tb)), Z.quot_opp_l by lia.
      rewrite Z.quot_small by lia. done. }
  rewrite Hq. unfold refill. by rewrite Z.mul_0_l.
Qed.

Lemma consumeAll_within_second (times : list Z) : forall tb : tokenBucket,
  tokens tb <= max_int64 ->
  (forall now, now ∈ times ->
     lastRefill tb - time.Second < now < lastRefill tb + time.Second) ->
  (consumeAll tb times).1
  = (replicate (Nat.min (length times) (Z.to_nat (tokens tb))) true
     ++ replicate (length times - Z.to_nat (tokens tb)) false)%list.
Proof.
  induction times as [|now times IH]; intros tb Hmax Htimes; simpl; [done|].
  rewrite consume_within_second by (apply Htimes, list_elem_of_here).
  unfold takeToken.
  assert (Hmax' : max_int64 = 9223372036854775807) by reflexivity.
  assert (Hmin' : min_int64 = -9223372036854775808) by reflexivity.
  destruct (Z.ltb_spec 0 (tokens tb)) as [Hpos|Hnpos].
  - rewrite wrap64_id by lia.
    specialize (IH {| tokens := tokens tb - 1; capacity := capacity tb;
                      rate := rate tb; lastRefill := lastRefill tb |}).
    simpl in IH.
    destruct (consumeAll _ times) as [oks tb2]. simpl in *.
    rewrite IH; [|lia | intros t Ht; by apply Htimes, list_elem_of_further].
    destruct (Z.to_nat (tokens tb)) as [|k] eqn:Hk; [lia|].
    replace (Z.to_nat (tokens tb - 1)) with k by lia. done.
  - specialize (IH tb Hmax).
    destruct (consumeAll tb times) as [oks tb2]. simpl in *.
    rewrite IH by (intros t Ht; by apply Htimes, list_elem_of_further).
    replace (Z.to_nat (tokens tb)) with O by lia.
    rewrite Nat.min_0_r, Nat.sub_0_r. done.
Qed.

(** X24. The burst: of the calls that reach a new bucket within less than
    a second of its creation, exactly the first [capacity] are admitted and
    all later ones are refused, whatever the rate. *)
Theorem tokenBucket_burst (capacity_ rate_ created : Z) (times : list Z) :
  capacity_ <= max_int64 ->
  (forall now, now ∈ times -> created - time.Second < now < created + time.Second) ->
  (consumeAll (newTokenBucket capacity_ rate_ created) times).1
  = (replicate (Nat.min (length times) (Z.to_nat capacity_)) true
     ++ replicate (length times - Z.to_nat capacity_) false)%list.
Proof.
  intros Hcap Htimes.
  by apply (consumeAll_within_second times (newTokenBucket capacity_ rate_ created)).
Qed.

Lemma tokenBucket_burst_witness :
  (consumeAll (newTokenBucket 2 1 1700000000000000000)
     [1700000000000000001; 1700000000000000002; 1700000000999999999]).1
  = [true; true; false].
Proof.
  apply (tokenBucket_burst 2 1 1700000000000000000
           [1700000000000000001; 1700000000000000002; 1700000000999999999]).
  - vm_compute. discriminate.
  - intros now Hin. unfold time.Second.
    repeat (apply elem_of_cons in Hin as [->|Hin]; [lia|]).
    by apply elem_of_nil in Hin.
Defined.

(** *** Sliding window: a run of calls *)

Lemma filter_filter_later (lo hi : Z) (l : list Z) :
  lo <= hi ->
  List.filter (fun t => hi <? t) (List.filter (fun t => lo <? t) l)
  = List.filter (fun t => hi <? t) l.
Proof.
  intros Hle. induction l as [|x l IH]; simpl; [done|].
  destruct (Z.ltb_spec lo x); simpl.
  - by rewrite IH.
  - destruct (Z.ltb_spec hi x); [lia | done].
Qed.

Lemma filter_length_le (f : Z -> bool) (l : list Z) :
  (length (List.filter f l) <= length l)%nat.
Proof. induction l as [|x l IH]; simpl; [lia|]. destruct (f x); simpl; lia. Qed.

(** What one [allow] leaves recorded, for a window of a positive length. *)
Lemma allow_requests (sw : slidingWindow) (now : Z) :
  0 < window sw <= max_int64 ->
  requests (allow sw now).2
  = (List.filter (fun t => now - window sw <? t) (requests sw)
     ++ (if (allow sw now).1 then [now] else []))%list
  /\ limit (allow sw now).2 = limit sw
  /\ window (allow sw now).2 = window sw
  /\ (Z.of_nat (length (requests sw)) <= Z.max 0 (limit sw) ->
      Z.of_nat (length (requests (allow sw now).2)) <= Z.max 0 (limit sw))
  /\ (0 < limit sw -> requests (allow sw now).2 <> []).
Proof.
  intros Hw. unfold allow, time.After.
  rewrite cutoff_sub by (unfold min_int64; lia).
  pose proof (filter_length_le (fun t => now - window sw <? t) (requests sw)) as Hlen.
  destruct (Z.leb_spec (limit sw)
              (Z.of_nat (length (List.filter (fun t => now - window sw <? t)
                                   (requests sw))))) as [Hfull|Hroom]; simpl.
  - rewrite app_nil_r. split_and!; try done; [lia|].
    intros Hpos Hnil. rewrite Hnil in Hfull. simpl in Hfull. lia.
  - split_and!; try done.
    + intros _. rewrite length_app. simpl. lia.
    + intros _ Hnil. by apply app_eq_nil in Hnil as [_ Hnil].
Qed.

Lemma allowAll_requests (now : Z) (times : list Z) : forall sw : slidingWindow,
  0 < window sw <= max_int64 ->
  (forall t, t ∈ times -> t <= now) ->
  Z.of_nat (length (requests sw)) <= Z.max 0 (limit sw) ->
  requests (allowAll sw (times ++ [now])).2
  = List.filter (fun t => now - window sw <? t)
      (requests sw ++ admitted (times ++ [now]) (allowAll sw (times ++ [now])).1)
  /\ Z.of_nat (length (requests (allowAll sw (times ++ [now])).2)) <= Z.max 0 (limit sw).
Proof.
  induction times as [|t times IH]; intros sw Hw Htimes Hlen; simpl.
  - destruct (allow_requests sw now Hw) as (A1 & A2 & A3 & A4 & _).
    destruct (allow sw now) as [ok sw1]. simpl in *. split; [|auto].
    rewrite A1, List.filter_app. f_equal.
    destruct ok; simpl; [|done].
    destruct (Z.ltb_spec (now - window sw) now); [done | lia].
  - destruct (allow_requests sw t Hw) as (A1 & A2 & A3 & A4 & _).
    destruct (allow sw t) as [ok sw1]. simpl in *.
    specialize (IH sw1). rewrite A2, A3 in IH.
    destruct IH as [I1 I2];
      [done | intros t' Ht'; by apply Htimes, list_elem_of_further | auto |].
    destruct (allowAll sw1 (times ++ [now])) as [oks sw2]. simpl in *.
    split; [|done].
    assert (Hle : t - window sw <= now - window sw).
    { pose proof (Htimes t (list_elem_of_here _ _)). lia. }
    rewrite I1, A1, !List.filter_app, (filter_filter_later _ _ _ Hle).
    rewrite <- app_assoc. f_equal.
    destruct ok; simpl; [|done]. by destruct (now - window sw <? t).
Qed.

(** X25. The sliding window keeps its promise at every call that is not
    earlier than the calls before it: what is recorded after the call are
    the instants of the admitted calls of the last [window], the call
    itself included, and there are at most [limit] of them. *)
Theorem slidingWindow_rate_guarantee (limit_ window_ now : Z) (times : list Z) :
  0 < window_ <= max_int64 ->
  (forall t, t ∈ times -> t <= now) ->
  let r := allowAll (newSlidingWindow limit_ window_) (times ++ [now]) in
  requests r.2
  = List.filter (fun t => now - window_ <? t) (admitted (times ++ [now]) r.1)
  /\ Z.of_nat (length (List.filter (fun t => now - window_ <? t)
                         (admitted (times ++ [now]) r.1)))
     <= Z.max 0 limit_.
Proof.
  intros Hw Htimes r.
  destruct (allowAll_requests now times (newSlidingWindow limit_ window_))
    as [H1 H2]; simpl; [done | done | lia |].
  fold r in H1, H2. simpl in H1. split; [done|]. by rewrite <- H1.
Qed.

Lemma slidingWindow_rate_guarantee_witness :
  let r := allowAll (newSlidingWindow 2 time.Second)
             ([1700000000000000000; 1700000000500000000; 1700000000600000000]
              ++ [1700000001200000000]) in
  requests r.2
  = List.filter (fun t => 1700000001200000000 - time.Second <? t)
      (admitted ([1700000000000000000; 1700000000500000000; 1700000000600000000]
                 ++ [1700000001200000000]) r.1)
  /\ Z.of_nat (length (List.filter (fun t => 1700000001200000000 - time.Second <? t)
                         (admitted
                            ([1700000000000000000; 1700000000500000000;
                              1700000000600000000] ++ [1700000001200000000]) r.1)))
     <= Z.max 0 2.
Proof.
  apply (slidingWindow_rate_guarantee 2 time.Second 1700000001200000000
           [1700000000000000000; 1700000000500000000; 1700000000600000000]).
  - vm_compute. split; [reflexivity | discriminate].
  - intros t Hin.
    repeat (apply elem_of_cons in Hin as [->|Hin]; [lia|]).
    by apply elem_of_nil in Hin.
Defined.

(** *** The limiter and its cleanup *)

Lemma allow_nonempty (sw : slidingWindow) (now : Z) :
  0 < limit sw ->
  requests (allow sw now).2 <> [] /\ limit (allow sw now).2 = limit sw.
Proof.
  intros Hpos. unfold allow.
  destruct (Z.leb_spec (limit sw)
              (Z.of_nat (length (List.filter
                                   (fun reqTime => time.After reqTime (cutoff sw now))
                                   (requests sw))))) as [Hfull|Hroom]; simpl.
  - split; [|done]. intros Hnil. rewrite Hnil in Hfull. simpl in Hfull. lia.
  - split; [|done]. intros Hnil. by apply app_eq_nil in Hnil as [_ Hnil].
Qed.

Lemma rateLimiter_allowSliding_eq (rl : rateLimiter) (key : string) (now : Z) :
  let window_ := default (newSlidingWindow (Rate (config rl)) (Duration (config rl)))
                   (windows rl !! key) in
  rateLimiter_allowSliding rl key now
  = ((allow window_ now).1,
     {| buckets := buckets rl;
        windows := <[key := (allow window_ now).2]> (windows rl);
        config := config rl |}).
Proof.
  unfold rateLimiter_allowSliding.
  destruct (windows rl !! key) as [sw|]; simpl; by destruct (allow _ now).
Qed.

Lemma rateLimiter_allow_eq (rl : rateLimiter) (key : string) (created now : Z) :
  let bucket := default (newTokenBucket (Burst (config rl)) (Rate (config rl)) created)
                  (buckets rl !! key) in
  rateLimiter_allow rl key created now
  = ((consume bucket now).1,
     {| buckets := <[key := (consume bucket now).2]> (buckets rl);
        windows := windows rl;
        config := config rl |}).
Proof.
  unfold rateLimiter_allow.
  destruct (buckets rl !! key) as [tb|]; simpl; by destruct (consume _ now).
Qed.

(** In a limiter run from [newRateLimiter] with a positive rate, every
    window was made for the configured rate and holds a recorded instant;
    a key that was passed to [allowSliding] has a window. *)
Lemma runCalls_windows (cfg : RateLimiterConfig) (key : string) (calls : list call) :
  0 < Rate cfg ->
  let rl := runCalls (newRateLimiter cfg) calls in
  config rl = cfg
  /\ (forall k sw, windows rl !! k = Some sw -> limit sw = Rate cfg /\ requests sw <> [])
  /\ ((exists now, call_allowSliding key now ∈ calls) -> is_Some (windows rl !! key)).
Proof.
  intros Hrate. induction calls as [|c calls IH] using rev_ind; simpl.
  - split_and!; [done | intros k sw Hk; by rewrite lookup_empty in Hk |].
    intros [now Hin]. by apply elem_of_nil in Hin.
  - unfold runCalls in *. rewrite foldl_app. simpl in *.
    destruct IH as (Hcfg & Hinv & Hkey).
    set (rl := foldl runCall (newRateLimiter cfg) calls) in *.
    assert (Hstep : config (runCall rl c) = cfg
              /\ (forall k sw, windows (runCall rl c) !! k = Some sw ->
                    limit sw = Rate cfg /\ requests sw <> [])
              /\ (is_Some (windows rl !! key) -> is_Some (windows (runCall rl c) !! key))
              /\ (forall now, c = call_allowSliding key now ->
                    is_Some (windows (runCall rl c) !! key))).
    { destruct c as [k created now|k now|now]; simpl.
      - rewrite rateLimiter_allow_eq. simpl. split_and!; try done.
      - rewrite rateLimiter_allowSliding_eq. simpl. rewrite Hcfg.
        assert (Hlim : limit (default (newSlidingWindow (Rate cfg) (Duration cfg))
                                (windows rl !! k)) = Rate cfg).
        { destruct (windows rl !! k) as [sw|] eqn:Hk; simpl; [|done].
          by apply (Hinv k sw). }
        destruct (allow_nonempty
                    (default (newSlidingWindow (Rate cfg) (Duration cfg))
                       (windows rl !! k)) now) as [Hne Hl]; [lia|].
        split_and!; [done| | |].
        + intros k' sw'. rewrite lookup_insert. case_decide.
          * intros [= <-]. split; [congruence | done].
          * apply Hinv.
        + intros Hsome. rewrite lookup_insert. case_decide; [done | exact Hsome].
        + intros now' [= -> ->]. by rewrite lookup_insert_eq.
      - split_and!; [done| | |done].
        + intros k sw Hk. apply map_lookup_filter_Some in Hk as [Hk _].
          by apply (Hinv k sw).
        + intros [sw Hsw]. exists sw. apply map_lookup_filter_Some. split; [done|].
          simpl. by apply (Hinv key sw). }
    destruct Hstep as (S1 & S2 & S3 & S4). split_and!; [done | done |].
    intros [now Hin]. apply elem_of_app in Hin as [Hin|Hin].
    + apply S3, Hkey. by exists now.
    + apply list_elem_of_singleton in Hin. by apply (S4 now).
Qed.

(** X26. With a positive rate the cleanup never removes a sliding window:
    whatever calls and cleanup ticks follow, a key that was once passed to
    [allowSliding] keeps its window, which holds at least one recorded
    instant.  A call on a window records the instant or leaves an older one
    recorded, and nothing else prunes the records. *)
Theorem cleanup_keeps_sliding_windows (cfg : RateLimiterConfig) (key : string)
    (calls : list call) :
  0 < Rate cfg ->
  (exists now, call_allowSliding key now ∈ calls) ->
  exists sw,
    windows (runCalls (newRateLimiter cfg) calls) !! key = Some sw
    /\ requests sw <> [].
Proof.
  intros Hrate Hcalled.
  destruct (runCalls_windows cfg key calls Hrate) as (_ & Hinv & Hkey).
  destruct (Hkey Hcalled) as [sw Hsw]. exists sw. split; [done|].
  by apply (Hinv key sw).
Qed.

Lemma cleanup_keeps_sliding_windows_witness :
  exists sw,
    windows (runCalls (newRateLimiter (mkRateLimiterConfig 2 5 time.Second))
               [call_allowSliding "10.0.0.1" 1700000000000000000;
                call_cleanupTick 1700000060000000000;
                call_cleanupTick 1700003600000000000]) !! "10.0.0.1" = Some sw
    /\ requests sw <> [].
Proof.
  apply (cleanup_keeps_sliding_windows (mkRateLimiterConfig 2 5 time.Second) "10.0.0.1"
           [call_allowSliding "10.0.0.1" 1700000000000000000;
            call_cleanupTick 1700000060000000000;
            call_cleanupTick 1700003600000000000]).
  - simpl. lia.
  - exists 1700000000000000000. apply list_elem_of_here.
Defined.

(** X27. Removing an idle bucket changes no answer when the burst is at
    most the tokens that ten minutes bring: for a bucket of the configured
    burst and rate, the call after a cleanup tick is answered, and leaves
    as many tokens, as it would without the tick.  A removed bucket had not
    been refilled for more than ten minutes, so that the call would have
    refilled it to its capacity, which is what the new bucket starts with. *)
Theorem cleanupTick_keeps_answers (rl : rateLimiter) (key : string) (tb : tokenBucket)
    (tick created now : Z) :
  buckets rl !! key = Some tb ->
  capacity tb = Burst (config rl) -> rate tb = Rate (config rl) ->
  0 <= tokens tb <= capacity tb ->
  0 < Rate (config rl) ->
  Burst (config rl) <= 600 * Rate (config rl) ->
  Burst (config rl) + 9223372037 * Rate (config rl) <= max_int64 ->
  tick <= created -> created <= now < created + time.Second ->
  (rateLimiter_allow (cleanupTick rl tick) key created now).1
  = (rateLimiter_allow rl key created now).1
  /\ tokens <$> buckets (rateLimiter_allow (cleanupTick rl tick) key created now).2 !! key
     = tokens <$> buckets (rateLimiter_allow rl key created now).2 !! key.
Proof.
  intros Hkey Hcap Hrate Htok Hpos Hburst Hov Htick Hnow.
  rewrite !rateLimiter_allow_eq. simpl. rewrite !lookup_insert_eq, Hkey. simpl.
  destruct (decide (10 * Minute < time.Sub tick (lastRefill tb))) as [Hidle|Hused].
  - assert (Hgone : filter (fun kb => ~ (10 * Minute < time.Sub tick (lastRefill kb.2)))
                      (buckets rl) !! key = None).
    { apply map_lookup_filter_None. right. intros tb' Htb'.
      rewrite Hkey in Htb'. injection Htb' as <-. simpl. tauto. }
    rewrite Hgone. simpl.
    rewrite consume_within_second by (simpl; unfold time.Second in *; lia).
    assert (Hmax : max_int64 = 9223372036854775807) by reflexivity.
    assert (Hmin : min_int64 = -9223372036854775808) by reflexivity.
    assert (Hsecs : 600 <= time.SecondsInt (time.Sub now (lastRefill tb)) <= 9223372036).
    { pose proof (SecondsInt_bound _ (Sub_in_int64 now (lastRefill tb))) as Hb.
      split; [|lia].
      assert (Hsub : 600000000000 <= time.Sub now (lastRefill tb)).
      { revert Hidle. unfold Minute, time.Second, time.Sub. rewrite Hmax, Hmin.
        repeat match goal with
               | |- context [(?a <? ?b)] => destruct (Z.ltb_spec a b)
               end; lia. }
      unfold time.SecondsInt, time.Second.
      change 600 with (600000000000 ÷ 1000000000).
      apply Z.quot_le_mono; lia. }
    unfold consume, refill.
    set (secs := time.SecondsInt (time.Sub now (lastRefill tb))) in *.
    assert (Hadd : 600 * rate tb <= secs * rate tb <= 9223372036 * rate tb).
    { split; apply Z.mul_le_mono_nonneg_r; lia. }
    rewrite (wrap64_id (secs * rate tb)) by lia.
    destruct (Z.ltb_spec 0 (secs * rate tb)); [|lia].
    rewrite (wrap64_id (tokens tb + secs * rate tb)) by lia.
    assert (Hfull : (if capacity tb <? tokens tb + secs * rate tb
                     then capacity tb else tokens tb + secs * rate tb) = capacity tb).
    { destruct (Z.ltb_spec (capacity tb) (tokens tb + secs * rate tb)); lia. }
    rewrite Hfull. unfold takeToken, newTokenBucket. simpl. rewrite <- Hcap.
    destruct (Z.ltb_spec 0 (capacity tb)); simpl; done.
  - assert (Hkept : filter (fun kb => ~ (10 * Minute < time.Sub tick (lastRefill kb.2)))
                      (buckets rl) !! key = Some tb).
    { apply map_lookup_filter_Some. split; [done | simpl; tauto]. }
    rewrite Hkept. done.
Qed.

Lemma cleanupTick_keeps_answers_witness :
  let rl := mkRateLimiter
              {["10.0.0.1" := mkTokenBucket 0 5 1 1700000000000000000]} ∅
              (mkRateLimiterConfig 1 5 time.Second) in
  (rateLimiter_allow (cleanupTick rl 1700000660000000000) "10.0.0.1"
     1700000661000000000 1700000661000000001).1
  = (rateLimiter_allow rl "10.0.0.1" 1700000661000000000 1700000661000000001).1
  /\ tokens <$> buckets (rateLimiter_allow (cleanupTick rl 1700000660000000000)
                           "10.0.0.1" 1700000661000000000 1700000661000000001).2
                !! "10.0.0.1"
     = tokens <$> buckets (rateLimiter_allow rl "10.0.0.1"
                             1700000661000000000 1700000661000000001).2 !! "10.0.0.1".
Proof.
  apply (cleanupTick_keeps_answers
           (mkRateLimiter
              {["10.0.0.1" := mkTokenBucket 0 5 1 1700000000000000000]} ∅
              (mkRateLimiterConfig 1 5 time.Second))
           "10.0.0.1" (mkTokenBucket 0 5 1 1700000000000000000)).
  - vm_compute. reflexivity.
  - reflexivity.
  - reflexivity.
  - simpl. lia.
  - simpl. lia.
  - simpl. lia.
  - vm_compute. discriminate.
  - lia.
  - unfold time.Second. lia.
Defined.

End RateLimitMore.

(** ** The role handlers of the JWT middleware *)
Section MiddlewareProperties.
Import Middleware.

(** X28. With claims of type [*auth.Claims] in the context, [RequireRole]
    lets the request through exactly when the role of the claims is one of
    the listed roles, and [RequireAllRoles] exactly when every listed role
    is the role of the claims.  So [RequireRole] without roles forbids every
    request, [RequireAllRoles] without roles forbids none, and
    [RequireAllRoles] with two different roles forbids every request.
    Without such claims neither handler lets the request through. *)
Theorem RequireRole_spec (roles : list string) :
  (forall claims,
     RequireRole roles (Some (ClaimsPointer (Some claims))) = Returned Next
     <-> Manager.Claims_Role claims ∈ roles)
  /\ (forall claims,
        RequireAllRoles roles (Some (ClaimsPointer (Some claims))) = Returned Next
        <-> forall role, role ∈ roles -> role = Manager.Claims_Role claims)
  /\ (forall claimsValue, RequireRole [] claimsValue <> Returned Next)
  /\ (forall claims,
        RequireAllRoles [] (Some (ClaimsPointer (Some claims))) = Returned Next)
  /\ (forall role1 role2 claimsValue,
        role1 ∈ roles -> role2 ∈ roles -> role1 <> role2 ->
        RequireAllRoles roles claimsValue <> Returned Next)
  /\ (forall claimsValue,
        (forall claims, claimsValue <> Some (ClaimsPointer (Some claims))) ->
        RequireRole roles claimsValue <> Returned Next
        /\ RequireAllRoles roles claimsValue <> Returned Next).
Proof.
  assert (Hany : forall claims,
            RequireRole roles (Some (ClaimsPointer (Some claims))) = Returned Next
            <-> Manager.Claims_Role claims ∈ roles).
  { intros claims. simpl.
    destruct (existsb _ roles) eqn:Hex.
    - split; [|done]. intros _.
      apply existsb_elem_of in Hex as (r & Hr & Heq).
      apply bool_decide_eq_true in Heq. by subst.
    - split; [done|]. intros Hin. apply not_true_iff_false in Hex.
      exfalso. apply Hex. apply existsb_elem_of.
      exists (Manager.Claims_Role claims). split; [done | by apply bool_decide_eq_true]. }
  assert (Hall : forall claims,
            RequireAllRoles roles (Some (ClaimsPointer (Some claims))) = Returned Next
            <-> forall role, role ∈ roles -> role = Manager.Claims_Role claims).
  { intros claims. simpl.
    destruct (forallb _ roles) eqn:Hfa.
    - split; [|done]. intros _ role Hrole.
      pose proof (proj1 (forallb_elem_of _ _) Hfa role Hrole) as Heq.
      apply bool_decide_eq_true in Heq. done.
    - split; [done|]. intros Hroles. apply not_true_iff_false in Hfa.
      exfalso. apply Hfa. apply forallb_elem_of. intros role Hrole.
      apply bool_decide_eq_true. symmetry. by apply Hroles. }
  split_and!.
  - exact Hany.
  - exact Hall.
  - intros [[[claims|]|]|]; simpl; discriminate.
  - done.
  - intros role1 role2 [[[claims|]|]|] H1 H2 Hne; try (simpl; discriminate).
    intros Hnext. pose proof (proj1 (Hall claims) Hnext) as Hsame.
    apply Hne. rewrite (Hsame role1 H1), (Hsame role2 H2). done.
  - intros [[[claims|]|]|] Hno; try (split; simpl; discriminate).
    by destruct (Hno claims).
Qed.

End MiddlewareProperties.

(** ** Roles on shared arrays *)
Section RbacSlicesProperties.
Import RbacSlices.

Implicit Types (h : gmap nat (list Rbac.Permission)) (s : Slice).

Lemma elements_lookup h s (k : nat) :
  elements h s !! k
  = if decide (k < len s)%nat then default [] (h !! array s) !! (offset s + k)%nat
    else None.
Proof.
  unfold elements. rewrite lookup_take.
  destruct (decide (k < len s)%nat); [by rewrite lookup_drop | done].
Qed.

Lemma elements_length h s : valid h s -> length (elements h s) = len s.
Proof.
  intros (a & Ha & Hcap & Hlen). unfold elements. rewrite Ha. simpl.
  rewrite length_take, length_drop. lia.
Qed.

(** A slice on an array that a write leaves alone keeps its elements. *)
Lemma elements_frame h h' s (written : nat) :
  (forall b, b <> written -> h' !! b = h !! b) ->
  array s <> written ->
  elements h' s = elements h s /\ (valid h s -> valid h' s).
Proof.
  intros Hframe Hne. unfold elements, valid. rewrite (Hframe _ Hne). done.
Qed.

(** [removeAt] cuts the element of index [i] out of the slice. *)
Lemma removeAt_spec h s (i : nat) :
  valid h s -> (i < len s)%nat ->
  elements (removeAt h s i).1 (removeAt h s i).2
  = (take i (elements h s) ++ drop (S i) (elements h s))%list
  /\ valid (removeAt h s i).1 (removeAt h s i).2
  /\ array (removeAt h s i).2 = array s
  /\ (forall b, b <> array s -> (removeAt h s i).1 !! b = h !! b).
Proof.
  intros (a & Ha & Hcap & Hlen) Hi. unfold removeAt. rewrite Ha. simpl.
  split_and!.
  - apply list_eq. intros k. rewrite elements_lookup. simpl.
    rewrite lookup_insert_eq. simpl. rewrite list_lookup_imap.
    assert (Hlen' : length (elements h s) = len s).
    { apply elements_length. by exists a. }
    destruct (decide (k < len s - 1)%nat) as [Hk|Hk].
    + destruct (lookup_lt_is_Some_2 a (offset s + k)) as [x Hx]; [lia|].
      rewrite Hx. simpl.
      destruct (decide (k < i)%nat) as [Hki|Hki].
      * rewrite bool_decide_eq_false_2 by lia.
        rewrite lookup_app_l by (rewrite length_take; lia).
        rewrite lookup_take, decide_True by lia. rewrite elements_lookup.
        rewrite decide_True by lia. rewrite Ha. simpl. done.
      * rewrite bool_decide_eq_true_2 by lia.
        destruct (lookup_lt_is_Some_2 a (S (offset s + k))) as [y Hy]; [lia|].
        rewrite Hy. simpl.
        rewrite lookup_app_r by (rewrite length_take; lia).
        rewrite length_take, lookup_drop, elements_lookup.
        rewrite decide_True by lia. rewrite Ha. simpl.
        rewrite <- Hy. f_equal. lia.
    + symmetry. apply lookup_ge_None.
      rewrite length_app, length_take, length_drop. lia.
  - exists (imap (fun k x =>
                    if bool_decide (offset s + i <= k < offset s + len s - 1)%nat
                    then default x (a !! S k) else x) a).
    rewrite lookup_insert_eq, length_imap. simpl. split_and!; [done | lia | lia].
  - done.
  - intros b Hb. by rewrite lookup_insert_ne.
Qed.

(** [append] adds the element after the elements of the slice; the array
    it writes is that of the slice or a new one. *)
Lemma append_spec h s (permission : Rbac.Permission) (newcap : nat) :
  valid h s ->
  elements (append h s permission newcap).1 (append h s permission newcap).2
  = (elements h s ++ [permission])%list
  /\ valid (append h s permission newcap).1 (append h s permission newcap).2
  /\ (array (append h s permission newcap).2 = array s
      \/ h !! array (append h s permission newcap).2 = None)
  /\ (forall b, b <> array (append h s permission newcap).2 ->
                (append h s permission newcap).1 !! b = h !! b).
Proof.
  intros (a & Ha & Hcap & Hlen). unfold append.
  destruct (bool_decide_reflect (len s < cap s)%nat) as [Hroom|Hfull].
  - rewrite Ha. simpl. split_and!.
    + unfold elements. simpl. rewrite lookup_insert_eq, Ha. simpl.
      rewrite (take_S_r _ _ permission).
      * f_equal. rewrite !take_drop_commute. f_equal.
        rewrite take_insert_ge by lia. done.
      * rewrite lookup_drop. apply list_lookup_insert_eq. lia.
    + exists (<[(offset s + len s)%nat := permission]> a).
      rewrite lookup_insert_eq, length_insert. simpl. split_and!; [done | lia | lia].
    + by left.
    + intros b Hb. by rewrite lookup_insert_ne.
  - simpl.
    assert (Hfresh : h !! fresh (dom h) = None).
    { apply not_elem_of_dom, is_fresh. }
    assert (Hels : length (elements h s) = len s).
    { apply elements_length. by exists a. }
    split_and!.
    + unfold elements at 1. simpl. rewrite lookup_insert_eq. simpl.
      rewrite drop_0.
      replace (elements h s ++ permission
                 :: replicate (newcap - S (len s)) zeroPermission)%list
        with ((elements h s ++ [permission])
                ++ replicate (newcap - S (len s)) zeroPermission)%list
        by (by rewrite <- app_assoc).
      replace (S (len s)) with (length (elements h s ++ [permission])%list)
        by (rewrite length_app; simpl; lia).
      by rewrite take_app_length.
    + eexists. rewrite lookup_insert_eq. simpl. split; [done|].
      rewrite length_app. simpl. rewrite length_replicate, Hels. lia.
    + by right.
    + intros b Hb. by rewrite lookup_insert_ne.
Qed.

(** *** The view of [Rbac] *)

Lemma abstract_lookup (rbac : RBAC) (roleID : string) :
  Rbac.roles (abstract rbac) !! roleID
  = abstractRole (arrays rbac) <$> roles rbac !! roleID.
Proof. unfold abstract. simpl. by rewrite lookup_fmap. Qed.

Lemma rolePermissions_abstract (rbac : RBAC) (role : Role) :
  Rbac.Role_Permissions (abstractRole (arrays rbac) role) = rolePermissions rbac role.
Proof. reflexivity. Qed.

Lemma Rbac_RBAC_eq (a b : Rbac.RBAC) :
  Rbac.roles a = Rbac.roles b -> Rbac.permissions a = Rbac.permissions b ->
  Rbac.userRoles a = Rbac.userRoles b -> a = b.
Proof. destruct a, b. simpl. congruence. Qed.

(** A step that gives one role a new slice, and writes only the array of
    that slice, keeps the roles apart and changes only that role. *)
Lemma abstract_update (rbac : RBAC) (roleID : string) (role : Role) s' h'
    (perms : gmap string Rbac.Permission) :
  separated rbac ->
  roles rbac !! roleID = Some role ->
  valid h' s' ->
  (array s' = array (Role_Permissions role) \/ arrays rbac !! array s' = None) ->
  (forall b, b <> array s' -> h' !! b = arrays rbac !! b) ->
  let role' := mkRole (Role_ID role) (Role_Name role) (Role_Description role) s' in
  let rbac' := mkRBAC (<[roleID := role']> (roles rbac)) perms (userRoles rbac) h' in
  separated rbac'
  /\ Rbac.roles (abstract rbac')
     = <[roleID := abstractRole h' role']> (Rbac.roles (abstract rbac)).
Proof.
  intros [Hvalid Hapart] Hrole Hs' Harr Hframe role' rbac'.
  assert (Hother : forall r2 role2, r2 <> roleID -> roles rbac !! r2 = Some role2 ->
                     array (Role_Permissions role2) <> array s').
  { intros r2 role2 Hne Hr2. destruct Harr as [-> | Hnew].
    - by apply (Hapart r2 roleID role2 role).
    - destruct (Hvalid r2 role2 Hr2) as (a & Ha & _). congruence. }
  split; [split|].
  - intros r role0. unfold rbac'. simpl. rewrite lookup_insert.
    case_decide as Hr.
    + intros [= <-]. done.
    + intros Hr0. apply (elements_frame (arrays rbac) h' _ (array s')); eauto.
  - intros r1 r2 role1 role2 Hne. unfold rbac'. simpl. rewrite !lookup_insert.
    repeat case_decide; subst.
    + done.
    + intros [= <-] Hr2. simpl. intros Heq. by apply (Hother r2 role2).
    + intros Hr1 [= <-]. simpl. by apply (Hother r1 role1).
    + by apply Hapart.
  - apply map_eq. intros r. rewrite abstract_lookup. unfold rbac'. simpl.
    rewrite !lookup_insert. case_decide as Hr; [done|].
    rewrite lookup_fmap. destruct (roles rbac !! r) as [role0|] eqn:Hr0; [|done].
    simpl. f_equal. unfold abstractRole. f_equal.
    apply (elements_frame (arrays rbac) h' _ (array s')); eauto.
Qed.

(** [removePermissionFromRole] on roles that are apart does what it does
    in [Rbac], to the role it is called on. *)
Lemma removePermissionFromRole_abstract (rbac : RBAC) (roleID : string) (role : Role)
    (permissionID : string) :
  separated rbac ->
  roles rbac !! roleID = Some role ->
  separated (removePermissionFromRole rbac roleID role permissionID)
  /\ permissions (removePermissionFromRole rbac roleID role permissionID)
     = permissions rbac
  /\ userRoles (removePermissionFromRole rbac roleID role permissionID)
     = userRoles rbac
  /\ Rbac.roles (abstract (removePermissionFromRole rbac roleID role permissionID))
     = <[roleID := Rbac.removePermissionFromRole
                     (abstractRole (arrays rbac) role) permissionID]>
         (Rbac.roles (abstract rbac)).
Proof.
  intros Hsep Hrole. unfold removePermissionFromRole, Rbac.removePermissionFromRole.
  rewrite rolePermissions_abstract.
  destruct (Rbac.indexOfPermission (rolePermissions rbac role) permissionID)
    as [i|] eqn:Hi.
  - assert (Hv : valid (arrays rbac) (Role_Permissions role))
      by (by apply (proj1 Hsep roleID)).
    assert (Hlt : (i < len (Role_Permissions role))%nat).
    { apply indexOfPermission_Some in Hi as (q & Hq & _).
      apply lookup_lt_Some in Hq. unfold rolePermissions in Hq.
      by rewrite elements_length in Hq. }
    destruct (removeAt_spec (arrays rbac) (Role_Permissions role) i Hv Hlt)
      as (Hels & Hv' & Harr & Hframe).
    destruct (removeAt (arrays rbac) (Role_Permissions role) i) as [h' s'] eqn:Hrm.
    simpl in *.
    destruct (abstract_update rbac roleID role s' h' (permissions rbac) Hsep Hrole Hv')
      as [Hsep' Hroles]; [by left | by intros b Hb; apply Hframe; congruence |].
    split_and!; try done.
    etrans; [exact Hroles|]. f_equal. unfold abstractRole. simpl. by rewrite Hels.
  - split_and!; try done.
    symmetry. apply insert_id. rewrite abstract_lookup, Hrole. simpl.
    by destruct role.
Qed.

Lemma removeFromRoleAt_abstract (permissionID : string) (rbac : RBAC) (roleID : string) :
  separated rbac ->
  separated (removeFromRoleAt permissionID rbac roleID)
  /\ permissions (removeFromRoleAt permissionID rbac roleID) = permissions rbac
  /\ userRoles (removeFromRoleAt permissionID rbac roleID) = userRoles rbac
  /\ (forall r,
        Rbac.roles (abstract (removeFromRoleAt permissionID rbac roleID)) !! r
        = if decide (r = roleID)
          then (fun role => Rbac.removePermissionFromRole role permissionID)
                 <$> Rbac.roles (abstract rbac) !! r
          else Rbac.roles (abstract rbac) !! r).
Proof.
  intros Hsep. unfold removeFromRoleAt.
  destruct (roles rbac !! roleID) as [role|] eqn:Hrole.
  - destruct (removePermissionFromRole_abstract rbac roleID role permissionID Hsep Hrole)
      as (H1 & H2 & H3 & H4).
    split_and!; try done. intros r. rewrite H4, lookup_insert.
    destruct (decide (r = roleID)) as [->|Hne].
    + rewrite decide_True by done. by rewrite abstract_lookup, Hrole.
    + by rewrite decide_False by done.
  - split_and!; try done. intros r.
    destruct (decide (r = roleID)) as [->|Hne]; [|done].
    by rewrite abstract_lookup, Hrole.
Qed.

(** The loop of [RemovePermission] over keys met once each. *)
Lemma RemovePermission_loop (permissionID : string) (order : list string) :
  forall rbac : RBAC,
  separated rbac -> NoDup order ->
  separated (foldl (removeFromRoleAt permissionID) rbac order)
  /\ permissions (foldl (removeFromRoleAt permissionID) rbac order) = permissions rbac
  /\ userRoles (foldl (removeFromRoleAt permissionID) rbac order) = userRoles rbac
  /\ (forall r,
        Rbac.roles (abstract (foldl (removeFromRoleAt permissionID) rbac order)) !! r
        = if decide (r ∈ order)
          then (fun role => Rbac.removePermissionFromRole role permissionID)
                 <$> Rbac.roles (abstract rbac) !! r
          else Rbac.roles (abstract rbac) !! r).
Proof.
  induction order as [|r0 order IH]; intros rbac Hsep Hnd; cbn [foldl].
  - split_and!; [done..|]. intros r. rewrite decide_False; [done|]. apply not_elem_of_nil.
  - apply NoDup_cons in Hnd as [Hr0 Hnd].
    destruct (removeFromRoleAt_abstract permissionID rbac r0 Hsep) as (S1 & S2 & S3 & S4).
    destruct (IH (removeFromRoleAt permissionID rbac r0) S1 Hnd) as (I1 & I2 & I3 & I4).
    split_and!; try congruence. intros r. rewrite I4, S4.
    destruct (decide (r = r0)) as [->|Hne].
    + rewrite (decide_False (P := r0 ∈ order)) by done.
      rewrite decide_True; [done|]. apply list_elem_of_here.
    + destruct (decide (r ∈ order)) as [Hin|Hnin].
      * rewrite decide_True; [done|]. by apply list_elem_of_further.
      * rewrite decide_False; [done|]. rewrite elem_of_cons. tauto.
Qed.

(** [RemovePermission] on roles that are apart does what it does in
    [Rbac], whatever the order of the loop. *)
Lemma RemovePermission_abstract (rbac : RBAC) (permissionID : string)
    (order : list string) :
  separated rbac -> NoDup order ->
  (forall roleID, roleID ∈ order <-> is_Some (roles rbac !! roleID)) ->
  match RemovePermission rbac permissionID order with
  | Ok rbac' =>
      separated rbac'
      /\ Rbac.RemovePermission (abstract rbac) permissionID = Ok (abstract rbac')
  | Err e => Rbac.RemovePermission (abstract rbac) permissionID = Err e
  end.
Proof.
  intros Hsep Hnd Horder. unfold RemovePermission, Rbac.RemovePermission.
  change (Rbac.permissions (abstract rbac)) with (permissions rbac).
  destruct (permissions rbac !! permissionID) as [p|]; [|done].
  set (rbac0 := {| roles := roles rbac;
                   permissions := delete permissionID (permissions rbac);
                   userRoles := userRoles rbac; arrays := arrays rbac |}).
  assert (Hsep0 : separated rbac0) by exact Hsep.
  destruct (RemovePermission_loop permissionID order rbac0 Hsep0 Hnd)
    as (L1 & L2 & L3 & L4).
  split; [done|]. f_equal.
  apply Rbac_RBAC_eq; cbn [Rbac.roles Rbac.permissions Rbac.userRoles];
    [|symmetry; exact L2|symmetry; exact L3].
  apply map_eq. intros r. symmetry. rewrite L4.
  change (Rbac.roles (abstract rbac0)) with (Rbac.roles (abstract rbac)).
  rewrite lookup_fmap.
  destruct (decide (r ∈ order)) as [Hin|Hnin]; [done|].
  rewrite abstract_lookup.
  destruct (roles rbac !! r) as [role|] eqn:Hr; [|done].
  exfalso. apply Hnin, Horder. by rewrite Hr.
Qed.

Lemma RemovePermissionFromRole_abstract (rbac : RBAC) (roleID permissionID : string) :
  separated rbac ->
  match RemovePermissionFromRole rbac roleID permissionID with
  | Ok rbac' =>
      separated rbac'
      /\ Rbac.RemovePermissionFromRole (abstract rbac) roleID permissionID
         = Ok (abstract rbac')
  | Err e => Rbac.RemovePermissionFromRole (abstract rbac) roleID permissionID = Err e
  end.
Proof.
  intros Hsep. unfold RemovePermissionFromRole, Rbac.RemovePermissionFromRole.
  rewrite abstract_lookup.
  destruct (roles rbac !! roleID) as [role|] eqn:Hrole; simpl; [|done].
  destruct (removePermissionFromRole_abstract rbac roleID role permissionID Hsep Hrole)
    as (H1 & H2 & H3 & H4).
  split; [done|]. f_equal.
  apply Rbac_RBAC_eq; cbn [Rbac.roles Rbac.permissions Rbac.userRoles];
    [symmetry; exact H4|symmetry; exact H2|symmetry; exact H3].
Qed.

Lemma AddPermissionToRole_abstract (rbac : RBAC) (roleID permissionID : string)
    (newcap : nat) :
  separated rbac ->
  match AddPermissionToRole rbac roleID permissionID newcap with
  | Ok rbac' =>
      separated rbac'
      /\ Rbac.AddPermissionToRole (abstract rbac) roleID permissionID
         = Ok (abstract rbac')
  | Err e => Rbac.AddPermissionToRole (abstract rbac) roleID permissionID = Err e
  end.
Proof.
  intros Hsep. unfold AddPermissionToRole, Rbac.AddPermissionToRole.
  rewrite abstract_lookup.
  change (Rbac.permissions (abstract rbac)) with (permissions rbac).
  destruct (roles rbac !! roleID) as [role|] eqn:Hrole; simpl; [|done].
  destruct (permissions rbac !! permissionID) as [permission|]; [|done].
  fold (rolePermissions rbac role).
  destruct (existsb _ (rolePermissions rbac role)); [done|].
  assert (Hv : valid (arrays rbac) (Role_Permissions role))
    by (by apply (proj1 Hsep roleID)).
  destruct (append_spec (arrays rbac) (Role_Permissions role) permission newcap Hv)
    as (Hels & Hv' & Harr & Hframe).
  destruct (append (arrays rbac) (Role_Permissions role) permission newcap)
    as [h' s'] eqn:Happ.
  simpl in *.
  destruct (abstract_update rbac roleID role s' h' (permissions rbac) Hsep Hrole Hv'
              Harr Hframe) as [Hsep' Hroles].
  split; [done|]. f_equal.
  apply Rbac_RBAC_eq; cbn [Rbac.roles Rbac.permissions Rbac.userRoles]; [|done..].
  symmetry. etrans; [exact Hroles|].
  f_equal. unfold abstractRole. simpl. by rewrite Hels.
Qed.

End RbacSlicesProperties.
